(** * Bitburner helper scripts: [utils.js] and [port-utils.js]

    A shallow embedding of the two script files and the properties of
    their functions.  JavaScript values are modelled as the code uses
    them: hostnames and file names are strings, port messages and the
    strings inside them are sequences of UTF-16 code units, port numbers
    and port counts are integers, RAM amounts and the numbers of
    messages are binary64 floating-point numbers, and a plain object
    used as a map is the list of its own properties, in the order
    [Object.keys] reports them, together with the properties it inherits
    from [Object.prototype]. *)

From Stdlib Require Import String Ascii List ZArith NArith Bool Lia.
From Stdlib Require Import QArith Qround Lqa Floats Permutation.
Import ListNotations.

Local Close Scope Q_scope.

Set Warnings "-register-all".

Local Open Scope list_scope.
Local Open Scope string_scope.

(* ================================================================== *)
(** * JavaScript preliminaries *)
(* ================================================================== *)

Module JS.

(** ToBoolean on a string: only the empty string is falsy. *)
Definition truthy_string (s : string) : bool :=
  match s with
  | EmptyString => false
  | String _ _ => true
  end.

(** A plain object created by [{}]: its own enumerable properties, in
    property order (see below). *)
Definition object (V : Type) : Type := list (string * V).

Definition empty_object {V : Type} : object V := [].

(** The properties every plain object inherits from [Object.prototype].
    All of them hold a function or an object, so all are truthy. *)
Definition object_prototype_names : list string :=
  [ "constructor"; "__defineGetter__"; "__defineSetter__"; "hasOwnProperty";
    "__lookupGetter__"; "__lookupSetter__"; "isPrototypeOf";
    "propertyIsEnumerable"; "toString"; "valueOf"; "__proto__";
    "toLocaleString" ].

Definition inherited (k : string) : bool :=
  existsb (String.eqb k) object_prototype_names.

(** Result of the property read [o[k]]. *)
Inductive property (V : Type) : Type :=
| Own (v : V)
| Inherited
| Undefined.
Arguments Own {V} v.
Arguments Inherited {V}.
Arguments Undefined {V}.

Fixpoint get_own {V : Type} (o : object V) (k : string) : option V :=
  match o with
  | [] => None
  | (k', v) :: o' => if String.eqb k' k then Some v else get_own o' k
  end.

Definition has_own {V : Type} (o : object V) (k : string) : bool :=
  match get_own o k with Some _ => true | None => false end.

(** [o[k]]: an own property first, then the prototype chain. *)
Definition get {V : Type} (o : object V) (k : string) : property V :=
  match get_own o k with
  | Some v => Own v
  | None => if inherited k then Inherited else Undefined
  end.

(** ToBoolean of [o[k]] for an object whose own values are strings. *)
Definition truthy (p : property string) : bool :=
  match p with
  | Own s => truthy_string s
  | Inherited => true
  | Undefined => false
  end.

(** ** Property order

    The own properties of an object are kept in the order in which
    [Object.keys] lists them (OrdinaryOwnPropertyKeys): array indices in
    ascending numeric order, then the other string keys in creation
    order. *)

Definition digit_value (c : ascii) : option N :=
  let n := N_of_ascii c in
  if ((48 <=? n) && (n <=? 57))%N then Some (n - 48)%N else None.

Fixpoint decimal_value (acc : N) (s : string) : option N :=
  match s with
  | EmptyString => Some acc
  | String c s' =>
      match digit_value c with
      | Some d => decimal_value (10 * acc + d)%N s'
      | None => None
      end
  end.

(** A key is an array index when it is the canonical decimal numeral of
    an integer between 0 and 2^32 - 2. *)
Definition array_index (k : string) : option N :=
  match k with
  | EmptyString => None
  | String c rest =>
      if (Ascii.eqb c "0" && negb (String.eqb rest ""))%bool then None
      else match decimal_value 0 k with
           | Some n => if (n <? 4294967295)%N then Some n else None
           | None => None
           end
  end.

(** [precedes k k'] holds when a new key [k] is listed before the
    existing key [k']. *)
Definition precedes (k k' : string) : bool :=
  match array_index k, array_index k' with
  | Some n, Some m => (n <? m)%N
  | Some _, None => true
  | None, _ => false
  end.

Fixpoint replace_own {V : Type} (o : object V) (k : string) (v : V) : object V :=
  match o with
  | [] => []
  | (k', v') :: o' =>
      if String.eqb k' k then (k', v) :: o' else (k', v') :: replace_own o' k v
  end.

Fixpoint create_own {V : Type} (o : object V) (k : string) (v : V) : object V :=
  match o with
  | [] => [(k, v)]
  | (k', v') :: o' =>
      if precedes k k' then (k, v) :: o else (k', v') :: create_own o' k v
  end.

(** CreateDataProperty: overwrite the own property or create it. *)
Definition define {V : Type} (o : object V) (k : string) (v : V) : object V :=
  if has_own o k then replace_own o k v else create_own o k v.

(** The assignment [o[k] = v] of a primitive value.  When the object has
    no own property ["__proto__"], that key reaches the setter of
    [Object.prototype], which ignores a value that is neither an object
    nor null. *)
Definition assign {V : Type} (o : object V) (k : string) (v : V) : object V :=
  if (String.eqb k "__proto__" && negb (has_own o k))%bool then o
  else define o k v.

(** [Object.keys(o)]. *)
Definition keys {V : Type} (o : object V) : list string := map fst o.

(** ** Integers as text: [Number.prototype.toString(radix)] *)

Definition digit_char (d : N) : ascii :=
  if (d <? 10)%N then ascii_of_N (48 + d) else ascii_of_N (87 + d).

Fixpoint radix_digits (radix : N) (fuel : nat) (n : N) : string :=
  match fuel with
  | O => ""
  | S fuel' =>
      (if (n <? radix)%N then "" else radix_digits radix fuel' (n / radix)%N)
      ++ String (digit_char (n mod radix)%N) ""
  end.

Definition N_to_string (radix : N) (n : N) : string :=
  radix_digits radix (S (N.to_nat (N.log2 n))) n.

Definition Z_to_string (radix : N) (z : Z) : string :=
  if (z <? 0)%Z then "-" ++ N_to_string radix (Z.abs_N z)
  else N_to_string radix (Z.to_N z).

Fixpoint join (sep : string) (parts : list string) : string :=
  match parts with
  | [] => ""
  | [p] => p
  | p :: parts' => p ++ sep ++ join sep parts'
  end.

End JS.

(* ================================================================== *)
(** * Strings of UTF-16 code units *)
(* ================================================================== *)

Module Text.

(** The strings that travel through ports and JSON text are sequences
    of 16-bit code units.  A string of 8-bit characters stands for the
    text of the same code units. *)
Definition text : Type := list N.

Definition code (c : ascii) : N := N_of_ascii c.

Definition txt (s : string) : text := map code (list_ascii_of_string s).
Coercion txt : string >-> text.

(** [a === b] on two strings. *)
Fixpoint eqb (a b : text) : bool :=
  match a, b with
  | [], [] => true
  | x :: a', y :: b' => (x =? y)%N && eqb a' b'
  | _, _ => false
  end.

Fixpoint join (sep : text) (parts : list text) : text :=
  match parts with
  | [] => []
  | [p] => p
  | p :: parts' => (p ++ sep ++ join sep parts')%list
  end.

Fixpoint strip_prefix (p s : text) : option text :=
  match p, s with
  | [], _ => Some s
  | a :: p', b :: s' => if (a =? b)%N then strip_prefix p' s' else None
  | _ :: _, [] => None
  end.

Definition digit_value (c : N) : option N :=
  if ((48 <=? c) && (c <=? 57))%N then Some (c - 48)%N else None.

(** The decimal digits of a natural number. *)
Definition decimal (n : N) : text := txt (JS.N_to_string 10 n).

End Text.

(* ================================================================== *)
(** * Own properties under arbitrary keys *)
(* ================================================================== *)

(** The objects that [JSON.parse] builds have keys of any code units.
    Their own properties are kept as those of [JS.object] are: in the
    order of [Object.keys], array indices first. *)
Module Props.
Import Text.

Definition object (V : Type) : Type := list (text * V).

Section Own.
Context {V : Type}.

Fixpoint get_own (o : object V) (k : text) : option V :=
  match o with
  | [] => None
  | (k', v) :: o' => if Text.eqb k' k then Some v else get_own o' k
  end.

Definition has_own (o : object V) (k : text) : bool :=
  match get_own o k with Some _ => true | None => false end.

Fixpoint decimal_value (acc : N) (s : text) : option N :=
  match s with
  | [] => Some acc
  | c :: s' =>
      match digit_value c with
      | Some d => decimal_value (10 * acc + d)%N s'
      | None => None
      end
  end.

(** A key is an array index when it is the canonical decimal numeral of
    an integer between 0 and 2^32 - 2. *)
Definition array_index (k : text) : option N :=
  match k with
  | [] => None
  | c :: rest =>
      if ((c =? code "0")%N && negb (Text.eqb rest []))%bool then None
      else match decimal_value 0 k with
           | Some n => if (n <? 4294967295)%N then Some n else None
           | None => None
           end
  end.

Definition precedes (k k' : text) : bool :=
  match array_index k, array_index k' with
  | Some n, Some m => (n <? m)%N
  | Some _, None => true
  | None, _ => false
  end.

Fixpoint replace_own (o : object V) (k : text) (v : V) : object V :=
  match o with
  | [] => []
  | (k', v') :: o' =>
      if Text.eqb k' k then (k', v) :: o' else (k', v') :: replace_own o' k v
  end.

Fixpoint create_own (o : object V) (k : text) (v : V) : object V :=
  match o with
  | [] => [(k, v)]
  | (k', v') :: o' =>
      if precedes k k' then (k, v) :: o else (k', v') :: create_own o' k v
  end.

(** CreateDataProperty: overwrite the own property or create it. *)
Definition define (o : object V) (k : text) (v : V) : object V :=
  if has_own o k then replace_own o k v else create_own o k v.

Definition keys (o : object V) : list text := map fst o.

End Own.
End Props.

(* ================================================================== *)
(** * JSON.stringify and JSON.parse *)
(* ================================================================== *)

Module Json.
Import Text.
Local Open Scope list_scope.

(** JavaScript values without functions: what a message can carry.
    Numbers are the binary64 floating-point numbers. *)
Inductive value : Type :=
| Undefined
| Null
| Bool (b : bool)
| Number (x : float)
| Str (s : text)
| Array (items : list value)
| Object (props : Props.object value).

Definition dquote : N := 34.
Definition backslash : N := 92.

(** ** The value of a numeral *)

Definition prec : Z := 53.
Definition emax : Z := 1024.

(** The binary64 number nearest to [(-1)^negative * M * 10^E], ties to
    the even mantissa: the quotient of two integers as the Standard
    Library's specification of the division rounds it. *)
Definition round_decimal (negative : bool) (M : N) (E : Z) : spec_float :=
  match M with
  | N0 => S754_zero negative
  | Npos m =>
      SFdiv prec emax
        (S754_finite negative (m * Z.to_pos (10 ^ Z.max E 0)) 0)
        (S754_finite false (Z.to_pos (10 ^ Z.max (- E) 0)) 0)
  end.

(** The digits at the head of [s], read onto [acc]. *)
Fixpoint read_digits (acc : N) (s : text) : N * text :=
  match s with
  | [] => (acc, [])
  | c :: s' =>
      match digit_value c with
      | Some d => read_digits (10 * acc + d)%N s'
      | None => (acc, s)
      end
  end.

(** The same for the digits of a fraction, which are counted. *)
Fixpoint read_fraction_digits (acc : N) (count : Z) (s : text) : N * Z * text :=
  match s with
  | [] => (acc, count, [])
  | c :: s' =>
      match digit_value c with
      | Some d => read_fraction_digits (10 * acc + d)%N (count + 1)%Z s'
      | None => (acc, count, s)
      end
  end.

Definition starts_with_digit (s : text) : bool :=
  match s with
  | c :: _ => match digit_value c with Some _ => true | None => false end
  | [] => false
  end.

(** [int]: [0], or a non-zero digit followed by digits. *)
Definition read_int (s : text) : option (N * text) :=
  match s with
  | [] => None
  | c :: s' =>
      match digit_value c with
      | Some 0%N => Some (0%N, s')
      | Some d => Some (read_digits d s')
      | None => None
      end
  end.

(** [frac]: a point and at least one digit.  The digits are read onto
    the integer part; their number is the second component. *)
Definition read_frac (int : N) (s : text) : option (N * Z * text) :=
  match s with
  | c :: s' =>
      if (c =? code ".")%N then
        if starts_with_digit s' then Some (read_fraction_digits int 0 s') else None
      else Some (int, 0%Z, s)
  | [] => Some (int, 0%Z, [])
  end.

(** [exp]: [e] or [E], a sign or none, and at least one digit. *)
Definition read_exp (s : text) : option (Z * text) :=
  match s with
  | c :: s' =>
      if ((c =? code "e") || (c =? code "E"))%N then
        let '(negative, s1) :=
          match s' with
          | g :: s'' =>
              if (g =? code "-")%N then (true, s'')
              else if (g =? code "+")%N then (false, s'')
              else (false, s')
          | [] => (false, s')
          end in
        if starts_with_digit s1 then
          let '(n, rest) := read_digits 0 s1 in
          Some (if negative : bool then (- Z.of_N n)%Z else Z.of_N n, rest)
        else None
      else Some (0%Z, s)
  | [] => Some (0%Z, [])
  end.

(** The numeral after its sign. *)
Definition read_unsigned (negative : bool) (s : text) : option (spec_float * text) :=
  match read_int s with
  | Some (int, s2) =>
      match read_frac int s2 with
      | Some (M, count, s3) =>
          match read_exp s3 with
          | Some (E, rest) => Some (round_decimal negative M (E - count), rest)
          | None => None
          end
      | None => None
      end
  | None => None
  end.

(** A numeral at the head of [s]: its value and the rest of [s]. *)
Definition read_numeral (s : text) : option (spec_float * text) :=
  match s with
  | c :: s' =>
      if (c =? code "-")%N then read_unsigned true s' else read_unsigned false s
  | [] => None
  end.

(** ** Number::toString *)

Definition same_float (a b : spec_float) : bool :=
  match a, b with
  | S754_zero s, S754_zero s' => Bool.eqb s s'
  | S754_infinity s, S754_infinity s' => Bool.eqb s s'
  | S754_nan, S754_nan => true
  | S754_finite s m e, S754_finite s' m' e' =>
      Bool.eqb s s' && Pos.eqb m m' && Z.eqb e e'
  | _, _ => false
  end.

(** The text is a numeral and nothing else, and its value is [x]. *)
Definition reads_as (x : spec_float) (t : text) : bool :=
  match read_numeral t with
  | Some (y, []) => same_float x y
  | _ => false
  end.

(** The number [m * 2^e] as a fraction. *)
Definition fraction (m : positive) (e : Z) : Z * Z :=
  if (0 <=? e)%Z then (Zpos m * 2 ^ e, 1)%Z else (Zpos m, 2 ^ (- e))%Z.

(** The least [j], from [j] on, with [den <= num * 10^j]. *)
Fixpoint leading_zeros (fuel : nat) (num den : Z) (j : Z) : Z :=
  match fuel with
  | O => j
  | S fuel' =>
      if (den <=? num * 10 ^ j)%Z then j
      else leading_zeros fuel' num den (j + 1)
  end.

(** The [n] with [10^(n-1) <= num / den < 10^n]. *)
Definition decade (num den : Z) : Z :=
  if (den <=? num)%Z then Z.of_nat (length (decimal (Z.to_N (num / den))))
  else (1 - leading_zeros 400 num den 1)%Z.

(** The integers [s] of [k] digits, with their [n], for which
    [s * 10^(n-k)] lies next to [num / den]: the nearer first, of two
    equally near the even one first. *)
Definition candidates (num den n k : Z) : list (Z * Z) :=
  let d := (k - n)%Z in
  let num' := if (0 <=? d)%Z then (num * 10 ^ d)%Z else num in
  let den' := if (0 <=? d)%Z then den else (den * 10 ^ (- d))%Z in
  let low := (num' / den')%Z in
  let r := (num' mod den')%Z in
  let below := (low, n) in
  let above :=
    if (low + 1 =? 10 ^ k)%Z then (10 ^ (k - 1), n + 1)%Z else (low + 1, n)%Z in
  if (r =? 0)%Z then [below]
  else match (2 * r ?= den')%Z with
       | Lt => [below; above]
       | Gt => [above; below]
       | Eq => if Z.even low then [below; above] else [above; below]
       end.

Definition zeros (j : Z) : text := repeat (code "0") (Z.to_nat j).

(** The digits [ds] of [s] with the decimal point after the [n]-th, as
    Number::toString lays them out. *)
Definition layout (ds : text) (n : Z) : text :=
  let k := Z.of_nat (length ds) in
  if ((-6 <? n) && (n <=? 21))%Z then
    if (k <=? n)%Z then ds ++ zeros (n - k)
    else if (0 <? n)%Z then
      firstn (Z.to_nat n) ds ++ txt "." ++ skipn (Z.to_nat n) ds
    else txt "0." ++ zeros (- n) ++ ds
  else
    let e := (n - 1)%Z in
    let exponent :=
      txt (if (e <? 0)%Z then "e-" else "e+") ++ decimal (Z.abs_N e) in
    match ds with
    | [] => []
    | [d] => d :: exponent
    | d :: more => d :: txt "." ++ more ++ exponent
    end.

(** The shortest digits that are read back as [m * 2^e]: the first of
    the candidates of 1, 2, ... 17 digits that is. *)
Definition shortest (m : positive) (e : Z) : option text :=
  let '(num, den) := fraction m e in
  let n := decade num den in
  find (reads_as (S754_finite false m e))
    (flat_map
       (fun k => map (fun c => layout (decimal (Z.to_N (fst c))) (snd c))
                     (candidates num den n (Z.of_nat k)))
       (seq 1 17)).

(** All the decimal digits of [m * 2^e].  Seventeen digits tell any two
    binary64 numbers apart, so [shortest] finds its digits for every
    number of the format and this text is not what is printed; it makes
    the function total without a proof of that bound. *)
Definition exact_decimal (m : positive) (e : Z) : text :=
  if (0 <=? e)%Z then decimal (Npos m * 2 ^ Z.to_N e)
  else decimal (Npos m * 5 ^ Z.to_N (- e)) ++ txt "e-" ++ decimal (Z.to_N (- e)).

Definition finite_to_string (m : positive) (e : Z) : text :=
  match shortest m e with
  | Some t => t
  | None => exact_decimal m e
  end.

Definition number_to_string (x : float) : text :=
  match Prim2SF x with
  | S754_nan => "NaN"
  | S754_infinity false => "Infinity"
  | S754_infinity true => "-Infinity"
  | S754_zero _ => "0"
  | S754_finite s m e => (if s then txt "-" else []) ++ finite_to_string m e
  end.

Definition is_finite (x : float) : bool :=
  match Prim2SF x with
  | S754_zero _ | S754_finite _ _ _ => true
  | _ => false
  end.

(** ** QuoteJSONString *)

Definition hex_digit (d : N) : N := code (JS.digit_char d).

(** UnicodeEscape: [\u] and four lowercase hexadecimal digits. *)
Definition unicode_escape (c : N) : text :=
  [ backslash; code "u";
    hex_digit (c / 4096 mod 16); hex_digit (c / 256 mod 16);
    hex_digit (c / 16 mod 16); hex_digit (c mod 16) ]%N.

Definition is_leading_surrogate (c : N) : bool := ((55296 <=? c) && (c <=? 56319))%N.
Definition is_trailing_surrogate (c : N) : bool := ((56320 <=? c) && (c <=? 57343))%N.

(** A code unit that is not part of a surrogate. *)
Definition escape_char (c : N) : text :=
  if (c =? 8)%N then [backslash; code "b"]
  else if (c =? 9)%N then [backslash; code "t"]
  else if (c =? 10)%N then [backslash; code "n"]
  else if (c =? 12)%N then [backslash; code "f"]
  else if (c =? 13)%N then [backslash; code "r"]
  else if (c =? dquote)%N then [backslash; dquote]
  else if (c =? backslash)%N then [backslash; backslash]
  else if (c <? 32)%N then unicode_escape c
  else [c].

(** The code points of the string one by one: a surrogate pair is
    written as it is, a surrogate on its own as an escape. *)
Fixpoint escape (s : text) : text :=
  match s with
  | [] => []
  | c :: s' =>
      if is_leading_surrogate c then
        match s' with
        | d :: s'' =>
            if is_trailing_surrogate d then c :: d :: escape s''
            else unicode_escape c ++ escape s'
        | [] => unicode_escape c
        end
      else if is_trailing_surrogate c then unicode_escape c ++ escape s'
      else escape_char c ++ escape s'
  end.

Definition quote (s : text) : text := dquote :: escape s ++ [dquote].

(** ** SerializeJSONProperty

    [None] is the result [undefined].  Inside an array an unserializable
    element is written [null]; inside an object its property is left
    out.  A number that is not finite is written [null]. *)

Definition element_text (t : option text) : text :=
  match t with Some t' => t' | None => "null" end.

Definition member_text (k : text) (t : option text) : list text :=
  match t with Some t' => [quote k ++ txt ":" ++ t'] | None => [] end.

Fixpoint stringify (v : value) : option text :=
  match v with
  | Undefined => None
  | Null => Some (txt "null")
  | Bool true => Some (txt "true")
  | Bool false => Some (txt "false")
  | Number x => Some (if is_finite x then number_to_string x else txt "null")
  | Str s => Some (quote s)
  | Array items =>
      Some (txt "[" ++ join "," (map (fun x => element_text (stringify x)) items)
              ++ txt "]")
  | Object props =>
      Some (txt "{"
              ++ join "," (flat_map (fun p => member_text (fst p) (stringify (snd p)))
                             props)
              ++ txt "}")
  end.

(** ** ToString, applied by [JSON.parse] to an argument that is not a string

    [None] is a thrown TypeError: an object with an own property
    [toString] has no callable [toString] (no value of a message is a
    function), and the [valueOf] it finds gives no primitive value. *)

Fixpoint to_string (v : value) : option text :=
  match v with
  | Undefined => Some (txt "undefined")
  | Null => Some (txt "null")
  | Bool true => Some (txt "true")
  | Bool false => Some (txt "false")
  | Number x => Some (number_to_string x)
  | Str s => Some s
  | Array items =>
      option_map (join ",")
        ((fix each (l : list value) : option (list text) :=
            match l with
            | [] => Some []
            | x :: l' =>
                match match x with
                      | Undefined | Null => Some []
                      | _ => to_string x
                      end, each l' with
                | Some t, Some ts => Some (t :: ts)
                | _, _ => None
                end
            end) items)
  | Object props =>
      if Props.has_own props "toString" then None else Some (txt "[object Object]")
  end.

(** ** The JSON grammar *)

Definition is_ws (c : N) : bool :=
  ((c =? 32) || (c =? 9) || (c =? 10) || (c =? 13))%N.

Fixpoint skip_ws (s : text) : text :=
  match s with
  | [] => []
  | c :: s' => if is_ws c then skip_ws s' else s
  end.

Definition hex_value (c : N) : option N :=
  if ((48 <=? c) && (c <=? 57))%N then Some (c - 48)%N
  else if ((97 <=? c) && (c <=? 102))%N then Some (c - 87)%N
  else if ((65 <=? c) && (c <=? 70))%N then Some (c - 55)%N
  else None.

(** The code unit of a [\uXXXX] escape. *)
Definition read_unicode_escape (h1 h2 h3 h4 : N) : option N :=
  match hex_value h1, hex_value h2, hex_value h3, hex_value h4 with
  | Some a, Some b, Some c, Some d => Some (4096 * a + 256 * b + 16 * c + d)%N
  | _, _, _, _ => None
  end.

Definition simple_escape (e : N) : option N :=
  if (e =? dquote)%N then Some dquote
  else if (e =? backslash)%N then Some backslash
  else if (e =? code "/")%N then Some (code "/")
  else if (e =? code "b")%N then Some 8%N
  else if (e =? code "f")%N then Some 12%N
  else if (e =? code "n")%N then Some 10%N
  else if (e =? code "r")%N then Some 13%N
  else if (e =? code "t")%N then Some 9%N
  else None.

Definition prepend (c : N) (r : option (text * text)) : option (text * text) :=
  match r with
  | Some (body, rest) => Some (c :: body, rest)
  | None => None
  end.

(** The characters of a string literal after its opening quote, up to
    and including the closing quote. *)
Fixpoint parse_chars (s : text) : option (text * text) :=
  match s with
  | [] => None
  | c :: s' =>
      if (c =? dquote)%N then Some ([], s')
      else if (c =? backslash)%N then
        match s' with
        | e :: s'' =>
            if (e =? code "u")%N then
              match s'' with
              | h1 :: h2 :: h3 :: h4 :: s4 =>
                  match read_unicode_escape h1 h2 h3 h4 with
                  | Some ch => prepend ch (parse_chars s4)
                  | None => None
                  end
              | _ => None
              end
            else
              match simple_escape e with
              | Some ch => prepend ch (parse_chars s'')
              | None => None
              end
        | [] => None
        end
      else if (c <? 32)%N then None
      else prepend c (parse_chars s')
  end.

Definition parse_number (s : text) : option (value * text) :=
  match read_numeral s with
  | Some (x, rest) => Some (Number (SF2Prim x), rest)
  | None => None
  end.

(** The properties of a parsed object are created one by one, in the
    order of the text; a repeated key overwrites. *)
Definition from_entries (entries : list (text * value)) : Props.object value :=
  fold_left (fun o p => Props.define o (fst p) (snd p)) entries [].

Fixpoint parse_value (fuel : nat) (s : text) : option (value * text) :=
  match fuel with
  | O => None
  | S fuel' =>
      match skip_ws s with
      | [] => None
      | (c :: rest) as s1 =>
          if (c =? code "n")%N then
            option_map (fun r => (Null, r)) (strip_prefix "ull" rest)
          else if (c =? code "t")%N then
            option_map (fun r => (Bool true, r)) (strip_prefix "rue" rest)
          else if (c =? code "f")%N then
            option_map (fun r => (Bool false, r)) (strip_prefix "alse" rest)
          else if (c =? dquote)%N then
            match parse_chars rest with
            | Some (body, r) => Some (Str body, r)
            | None => None
            end
          else if (c =? code "[")%N then
            match strip_prefix "]" (skip_ws rest) with
            | Some r => Some (Array [], r)
            | None =>
                match parse_elements fuel' rest with
                | Some (items, r) => Some (Array items, r)
                | None => None
                end
            end
          else if (c =? code "{")%N then
            match strip_prefix "}" (skip_ws rest) with
            | Some r => Some (Object [], r)
            | None =>
                match parse_members fuel' rest with
                | Some (entries, r) => Some (Object (from_entries entries), r)
                | None => None
                end
            end
          else parse_number s1
      end
  end

with parse_elements (fuel : nat) (s : text) : option (list value * text) :=
  match fuel with
  | O => None
  | S fuel' =>
      match parse_value fuel' s with
      | Some (v, rest) =>
          match skip_ws rest with
          | c :: rest' =>
              if (c =? code ",")%N then
                match parse_elements fuel' rest' with
                | Some (vs, r) => Some (v :: vs, r)
                | None => None
                end
              else if (c =? code "]")%N then Some ([v], rest')
              else None
          | [] => None
          end
      | None => None
      end
  end

with parse_members (fuel : nat) (s : text) : option (list (text * value) * text) :=
  match fuel with
  | O => None
  | S fuel' =>
      match strip_prefix [dquote] (skip_ws s) with
      | Some s1 =>
          match parse_chars s1 with
          | Some (k, s2) =>
              match strip_prefix ":" (skip_ws s2) with
              | Some s3 =>
                  match parse_value fuel' s3 with
                  | Some (v, rest) =>
                      match skip_ws rest with
                      | c :: rest' =>
                          if (c =? code ",")%N then
                            match parse_members fuel' rest' with
                            | Some (ms, r) => Some ((k, v) :: ms, r)
                            | None => None
                            end
                          else if (c =? code "}")%N then Some ([(k, v)], rest')
                          else None
                      | [] => None
                      end
                  | None => None
                  end
              | None => None
              end
          | None => None
          end
      | None => None
      end
  end.

(** [JSON.parse(text)]; [None] is a thrown SyntaxError.  Every call of
    the parser reads at least one character, so the length of the text
    bounds the calls. *)
Definition parse (t : text) : option value :=
  match parse_value (S (length t)) t with
  | Some (v, rest) =>
      match skip_ws rest with
      | [] => Some v
      | _ :: _ => None
      end
  | None => None
  end.

(** A value as it comes back from JSON text: the sign of a zero is
    lost. *)
Definition unsigned_zero (x : float) : float :=
  match Prim2SF x with S754_zero _ => 0%float | _ => x end.

Fixpoint unsigned_zeros (v : value) : value :=
  match v with
  | Number x => Number (unsigned_zero x)
  | Array items => Array (map unsigned_zeros items)
  | Object props => Object (map (fun p => (fst p, unsigned_zeros (snd p))) props)
  | _ => v
  end.

(** Values that JSON text represents: no [undefined], no NaN or
    infinity, and the properties of every object in property order. *)
Fixpoint representable (v : value) : Prop :=
  match v with
  | Undefined => False
  | Null | Bool _ | Str _ => True
  | Number x => is_finite x = true
  | Array items =>
      (fix all (l : list value) : Prop :=
         match l with
         | [] => True
         | x :: l' => representable x /\ all l'
         end) items
  | Object props =>
      from_entries props = props /\
      (fix all (l : list (text * value)) : Prop :=
         match l with
         | [] => True
         | p :: l' => representable (snd p) /\ all l'
         end) props
  end.

End Json.


(* ================================================================== *)
(** * The host: the Netscript interface [ns] *)
(* ================================================================== *)

Module Netscript.

(** What the game reports about its state when a helper asks.  The
    helpers of the two files never change any of it. *)
Record NS : Type := {
  getHostname : string;
  scan : string -> list string;
  fileExists : string -> string -> bool;
  getServerNumPortsRequired : string -> Z;
  getServerMaxRam : string -> float;
  getServerUsedRam : string -> float;
  portCapacity : nat
}.

(** The calls into the host that act on the game, in the order made.  A
    cracking function ([ns.brutessh], ...) is known by its name. *)
Inductive event : Type :=
| Print (msg : string)
| Tprint (msg : string)
| Nuke (server : string)
| Call (fn : string) (server : string)
| GetPortHandle (port : Z)
| PortFull (port : Z)
| PortEmpty (port : Z)
| PortPeek (port : Z)
| PortRead (port : Z)
| PortWrite (port : Z) (data : Text.text).

Record world : Type := {
  ports : Z -> list Text.text;
  log : list event
}.

Inductive error : Type := SyntaxError | TypeError.

Inductive outcome (A : Type) : Type :=
| Returned (a : A)
| Thrown (e : error).
Arguments Returned {A} a.
Arguments Thrown {A} e.

(** A script fragment: it runs in a world and returns or throws. *)
Definition script (A : Type) : Type := world -> outcome A * world.

Definition ret {A : Type} (a : A) : script A := fun w => (Returned a, w).

Definition throw {A : Type} (e : error) : script A := fun w => (Thrown e, w).

Definition bind {A B : Type} (c : script A) (k : A -> script B) : script B :=
  fun w =>
    match c w with
    | (Returned a, w') => k a w'
    | (Thrown e, w') => (Thrown e, w')
    end.

Definition emit (e : event) : script unit :=
  fun w => (Returned tt, {| ports := ports w; log := log w ++ [e] |}).

(** The world after some more host calls. *)
Definition logged (w : world) (events : list event) : world :=
  {| ports := ports w; log := (log w ++ events)%list |}.

(** The world after port [p] has been given the queue [q]. *)
Definition with_port (w : world) (p : Z) (q : list Text.text) : world :=
  {| ports := fun p' => if Z.eqb p' p then q else ports w p'; log := log w |}.

Definition set_port (p : Z) (q : list Text.text) : script unit :=
  fun w => (Returned tt, with_port w p q).

Definition port_data (p : Z) : script (list Text.text) :=
  fun w => (Returned (ports w p), w).

Definition of_option {A : Type} (e : error) (o : option A) : script A :=
  match o with Some a => ret a | None => throw e end.

Fixpoint for_each {A : Type} (l : list A) (body : A -> script unit) : script unit :=
  match l with
  | [] => ret tt
  | x :: l' => bind (body x) (fun _ => for_each l' body)
  end.

End Netscript.

Declare Scope script_scope.
Delimit Scope script_scope with script.
Notation "x <- c ;; k" := (Netscript.bind c (fun x => k))
  (at level 61, c at next level, right associativity) : script_scope.
Notation "c ;; k" := (Netscript.bind c (fun _ => k))
  (at level 61, right associativity) : script_scope.

Module Host.
Import Text Netscript.
Local Open Scope script_scope.

(** The calls that only act on the game are recorded as they are made. *)
Definition print (msg : string) : script unit := emit (Print msg).
Definition tprint (msg : string) : script unit := emit (Tprint msg).
Definition nuke (server : string) : script unit := emit (Nuke server).
Definition call (fn : string) (server : string) : script unit := emit (Call fn server).

(** Modelled from the spec: the host's placeholder for the data of an
    empty port. *)
Definition null_port_data : text := "NULL PORT DATA".

(** Modelled from the spec: [ns.getPortHandle], of the host.  A handle
    is the number of its port. *)
Definition getPortHandle (port : Z) : script Z :=
  emit (GetPortHandle port) ;; ret port.

(** Modelled from the spec: [handle.full()], of the host.  A port is a
    FIFO queue of fixed capacity. *)
Definition full (ns : NS) (handle : Z) : script bool :=
  emit (PortFull handle) ;;
  q <- port_data handle ;;
  ret (portCapacity ns <=? length q)%nat.

(** Modelled from the spec: [handle.empty()], of the host. *)
Definition empty (handle : Z) : script bool :=
  emit (PortEmpty handle) ;;
  q <- port_data handle ;;
  ret (match q with [] => true | _ :: _ => false end).

(** Modelled from the spec: [handle.peek()], of the host: the oldest
    message, which stays in the queue. *)
Definition peek (handle : Z) : script text :=
  emit (PortPeek handle) ;;
  q <- port_data handle ;;
  ret (match q with [] => null_port_data | m :: _ => m end).

(** Modelled from the spec: [handle.read()], of the host: the oldest
    message, which leaves the queue. *)
Definition read (handle : Z) : script text :=
  emit (PortRead handle) ;;
  q <- port_data handle ;;
  match q with
  | [] => ret null_port_data
  | m :: q' => set_port handle q' ;; ret m
  end.

(** Modelled from the spec: [handle.write(data)], of the host: the
    message joins the queue at its end; when that exceeds the capacity,
    the oldest message is pushed out and returned. *)
Definition write (ns : NS) (handle : Z) (data : text) : script (option text) :=
  emit (PortWrite handle data) ;;
  q <- port_data handle ;;
  let q' := (q ++ [data])%list in
  if (length q' <=? portCapacity ns)%nat then set_port handle q' ;; ret None
  else match q' with
       | [] => ret None
       | oldest :: q'' => set_port handle q'' ;; ret (Some oldest)
       end.

End Host.

(* ================================================================== *)
(** * port-utils.js *)
(* ================================================================== *)

Module PortUtils.
Import Text Netscript Host.
Local Open Scope script_scope.

Definition minInputPort : Z := 1.
Definition maxInputPort : Z := 19.
Definition outputPort : Z := 20.

Definition isInputPort (port : Z) : bool :=
  ((minInputPort <=? port) && (port <=? maxInputPort))%Z.

Definition tab : string := String "009"%char "".

(** The message [pushToInputPort] writes: the stringified object
    [{eventType, reqId, data: JSON.stringify(data)}].  A property whose
    value is [undefined] is not written. *)
Definition envelope (eventType reqId : text) (data : Json.value) : text :=
  let payload :=
    Json.Object
      [ (txt "eventType", Json.Str eventType);
        (txt "reqId", Json.Str reqId);
        (txt "data", match Json.stringify data with
                     | Some t => Json.Str t
                     | None => Json.Undefined
                     end) ] in
  match Json.stringify payload with
  | Some t => t
  | None => "undefined"
  end.

Definition pushToInputPort (ns : NS) (eventType reqId : text) (data : Json.value)
    (port : Z) : script unit :=
  if negb (isInputPort port) then
    tprint ("ERROR" ++ tab ++ " Input ports must be between "
              ++ JS.Z_to_string 10 minInputPort ++ " and "
              ++ JS.Z_to_string 10 maxInputPort ++ "!")
  else
    handle <- getPortHandle port ;;
    write ns handle (envelope eventType reqId data) ;;
    ret tt.

Definition pushToOutputPort (ns : NS) (payload : text) : script bool :=
  handle <- getPortHandle outputPort ;;
  is_full <- full ns handle ;;
  if is_full then ret false
  else write ns handle payload ;; ret true.

(** The property read [payload.key] for one of the keys [eventType],
    [reqId] and [data], which no prototype defines: reading from [null]
    or [undefined] throws, reading from a primitive or an array gives
    [undefined]. *)
Definition member (payload : Json.value) (key : text) : script Json.value :=
  match payload with
  | Json.Undefined | Json.Null => throw TypeError
  | Json.Object props =>
      ret (match Props.get_own props key with
           | Some v => v
           | None => Json.Undefined
           end)
  | _ => ret Json.Undefined
  end.

(** [v === s] for a string [s]. *)
Definition strict_eq_string (v : Json.value) (s : text) : bool :=
  match v with
  | Json.Str s' => Text.eqb s' s
  | _ => false
  end.

(** [JSON.parse(v)]: the argument is made a string first, which throws
    a TypeError when it cannot be; text that is not JSON throws a
    SyntaxError. *)
Definition JSON_parse (v : Json.value) : script Json.value :=
  t <- of_option TypeError (Json.to_string v) ;;
  of_option SyntaxError (Json.parse t).

(** The object [{data, reqId}] that [checkForEvent] returns. *)
Record response : Type := {
  data : Json.value;
  reqId : Json.value
}.

(** [None] as the [reqId] argument is the omitted argument, which takes
    the default ["ANY"]; [None] as the result is [undefined]. *)
Definition checkForEvent (ns : NS) (eventType : text) (reqId_arg : option text)
    : script (option response) :=
  let reqId : text := match reqId_arg with Some r => r | None => "ANY" end in
  handle <- getPortHandle outputPort ;;
  is_empty <- empty handle ;;
  if negb is_empty then
    message <- peek handle ;;
    payload <- JSON_parse (Json.Str message) ;;
    payload_eventType <- member payload "eventType" ;;
    if strict_eq_string payload_eventType eventType then
      mismatch <-
        (if negb (Text.eqb reqId "ANY") then
           payload_reqId <- member payload "reqId" ;;
           ret (negb (strict_eq_string payload_reqId reqId))
         else ret false) ;;
      if mismatch : bool then ret None
      else
        read handle ;;
        payload_data <- member payload "data" ;;
        parsed <- JSON_parse payload_data ;;
        payload_reqId <- member payload "reqId" ;;
        ret (Some {| data := parsed; reqId := payload_reqId |})
    else ret None
  else ret None.

(** ** createUUID

    Numbers are exact rationals, and [fl] is the rounding of an
    arithmetic result to binary64.  [now] is [new Date().getTime()], an
    integer; [random n] is the value of the [n]-th call of
    [Math.random()]. *)

Definition truncate (q : Q) : Z :=
  if Qle_bool 0 q then Qfloor q else Qceiling q.

(** The remainder operator [%]: the result has the sign of the dividend. *)
Definition js_rem (a n : Q) : Q :=
  (a - n * inject_Z (truncate (a / n)))%Q.

(** ToInt32, applied by [| 0]. *)
Definition to_int32 (q : Q) : Z :=
  let m := (truncate q mod 4294967296)%Z in
  if (m <? 2147483648)%Z then m else (m - 4294967296)%Z.

Definition replacement (fl : Q -> Q) (dt : Z) (rnd : Q) (c : ascii) : string * Z :=
  let r := to_int32 (js_rem (fl (inject_Z dt + fl (rnd * 16))%Q) 16) in
  let dt' := (dt / 16)%Z in
  (JS.Z_to_string 16 (if Ascii.eqb c "x" then r else Z.lor (Z.land r 3) 8), dt').

(** [template.replace(/[xy]/g, callback)], with the callback's captured
    variable [dt] and the number of calls of [Math.random()] so far. *)
Fixpoint replace_xy (fl : Q -> Q) (random : nat -> Q) (template : string)
    (dt : Z) (calls : nat) : string :=
  match template with
  | EmptyString => ""
  | String c rest =>
      if (Ascii.eqb c "x" || Ascii.eqb c "y")%bool then
        let '(text, dt') := replacement fl dt (random calls) c in
        text ++ replace_xy fl random rest dt' (S calls)
      else String c (replace_xy fl random rest dt calls)
  end.

Definition createUUID (fl : Q -> Q) (now : Z) (random : nat -> Q) : string :=
  replace_xy fl random "xxxxxxxx-xxxx-4xxx-yxxx-xxxxxxxxxxxx" now 0.

End PortUtils.

(* ================================================================== *)
(** * utils.js *)
(* ================================================================== *)

Module Utils.
Import Netscript Host.
Local Open Scope script_scope.

Definition homeServer : string := "home".

(** The inner [for] loop of [getNetworkNodes]: the neighbours that are
    not yet visited are pushed in order.  The stack is a list whose head
    is the top, the element [pop] takes. *)
Definition push_unvisited (visited : JS.object string) (neighbours stack : list string)
    : list string :=
  fold_left
    (fun st child => if negb (JS.truthy (JS.get visited child)) then child :: st else st)
    neighbours stack.

(** The [while] loop of [getNetworkNodes], for at most [fuel]
    iterations; [None] when they do not empty the stack. *)
Fixpoint scan_loop (ns : NS) (fuel : nat) (visited : JS.object string)
    (stack : list string) : option (JS.object string) :=
  match fuel with
  | O => None
  | S fuel' =>
      match stack with
      | [] => Some visited
      | node :: stack' =>
          if negb (JS.truthy (JS.get visited node)) then
            let visited' := JS.assign visited node node in
            let neighbours := scan ns node in
            scan_loop ns fuel' visited' (push_unvisited visited' neighbours stack')
          else scan_loop ns fuel' visited stack'
      end
  end.

Definition getNetworkNodes (ns : NS) (fuel : nat) : option (list string) :=
  let origin := getHostname ns in
  option_map JS.keys (scan_loop ns fuel JS.empty_object [origin]).

(** [cracks] maps a file name to the name of a cracking function. *)
Definition penetrate (ns : NS) (server : string) (cracks : JS.object string)
    : script unit :=
  print ("Penetrating " ++ server) ;;
  for_each (JS.keys cracks)
    (fun file =>
       if fileExists ns file homeServer then
         runScript <- of_option TypeError (JS.get_own cracks file) ;;
         call runScript server
       else ret tt).

Definition getNumCracks (ns : NS) (cracks : JS.object string) : nat :=
  length (filter (fun file => fileExists ns file homeServer) (JS.keys cracks)).

Definition canPenetrate (ns : NS) (server : string) (cracks : JS.object string) : bool :=
  let numCracks := getNumCracks ns cracks in
  let reqPorts := getServerNumPortsRequired ns server in
  (reqPorts <=? Z.of_nat numCracks)%Z.

(** [ramAvail > scriptRam] is the comparison [scriptRam < ramAvail]. *)
Definition hasRam (ns : NS) (server : string) (scriptRam : float) (useMax : bool) : bool :=
  let maxRam := getServerMaxRam ns server in
  let usedRam := getServerUsedRam ns server in
  let ramAvail := if useMax then maxRam else (maxRam - usedRam)%float in
  (scriptRam <? ramAvail)%float.

Definition getRootAccess (ns : NS) (server : string) (cracks : JS.object string)
    : script unit :=
  let requiredPorts := getServerNumPortsRequired ns server in
  (if (0 <? requiredPorts)%Z then penetrate ns server cracks else ret tt) ;;
  print ("Gaining root access on " ++ server) ;;
  nuke server.

End Utils.

(* ================================================================== *)
(** * The notions the properties are stated with *)
(* ================================================================== *)

Module UtilsSpec.
Import Netscript Utils.

(** The number of list elements that satisfy a test, counted one by one. *)
Fixpoint count_files (present : string -> bool) (files : list string) : nat :=
  match files with
  | [] => 0
  | file :: files' =>
      if present file then S (count_files present files') else count_files present files'
  end.

(** The calls [cracks[file](server)], for the files that exist on
    "home", in the order of [files]. *)
Definition crack_calls (ns : NS) (server : string) (cracks : JS.object string)
    (files : list string) : list event :=
  flat_map
    (fun file =>
       if fileExists ns file "home" then
         match JS.get_own cracks file with
         | Some fn => [Call fn server]
         | None => []
         end
       else [])
    files.

(** The hostnames that [ns.scan] connects to the current host. *)
Inductive reachable (ns : NS) : string -> Prop :=
| reach_origin : reachable ns (getHostname ns)
| reach_step (h c : string) :
    reachable ns h -> In c (scan ns h) -> reachable ns c.

(** A finite network: the hostnames are among those of a list, which
    holds the current host and the neighbours of each of its members. *)
Definition finite_network (ns : NS) (universe : list string) : Prop :=
  In (getHostname ns) universe /\
  forall h c, In h universe -> In c (scan ns h) -> In c universe.

Definition terminates (ns : NS) : Prop :=
  exists fuel nodes, getNetworkNodes ns fuel = Some nodes.

Definition diverges (ns : NS) : Prop :=
  forall fuel, getNetworkNodes ns fuel = None.

End UtilsSpec.

Module PortUtilsSpec.
Import Text Netscript PortUtils.

(** The request id in force: the argument, or the default. *)
Definition requested (reqId_arg : option text) : text :=
  match reqId_arg with Some r => r | None => "ANY" end.

(** The value of [payload.key] when it can be read. *)
Definition field (payload : Json.value) (key : text) : Json.value :=
  match payload with
  | Json.Object props =>
      match Props.get_own props key with Some v => v | None => Json.Undefined end
  | _ => Json.Undefined
  end.

(** The message is JSON text whose [eventType] is the wanted one and
    whose [reqId] is the wanted one, unless any is accepted. *)
Definition matches (eventType reqId msg : text) : bool :=
  match Json.parse msg with
  | Some payload =>
      strict_eq_string (field payload "eventType") eventType
      && (Text.eqb reqId "ANY" || strict_eq_string (field payload "reqId") reqId)
  | None => false
  end.

(** What [checkForEvent] answers on a message that matches: the parsed
    [data], unless [data] cannot be made a string (TypeError) or its
    string is not JSON text (SyntaxError). *)
Definition delivered (msg : text) : outcome (option response) :=
  match Json.parse msg with
  | Some payload =>
      match Json.to_string (field payload "data") with
      | Some t =>
          match Json.parse t with
          | Some d => Returned (Some {| data := d; reqId := field payload "reqId" |})
          | None => Thrown SyntaxError
          end
      | None => Thrown TypeError
      end
  | None => Thrown SyntaxError
  end.

(** What it answers on a message that does not match. *)
Definition declined (msg : text) : outcome (option response) :=
  match Json.parse msg with
  | None => Thrown SyntaxError
  | Some Json.Null | Some Json.Undefined => Thrown TypeError
  | Some _ => Returned None
  end.

Definition lower_hex (c : ascii) : bool :=
  let n := N_of_ascii c in
  (((48 <=? n) && (n <=? 57)) || ((97 <=? n) && (n <=? 102)))%N.

Definition variant_char (c : ascii) : bool :=
  (Ascii.eqb c "8" || Ascii.eqb c "9" || Ascii.eqb c "a" || Ascii.eqb c "b")%bool.

Definition hyphen_index (i : nat) : bool :=
  ((i =? 8) || (i =? 13) || (i =? 18) || (i =? 23))%nat.

(** The shape 8-4-4-4-12 of a version 4 UUID. *)
Definition uuid_shape (s : string) : Prop :=
  String.length s = 36%nat /\
  forall i, (i < 36)%nat ->
    exists c, String.get i s = Some c
      /\ (if hyphen_index i then c = "-"%char else lower_hex c = true)
      /\ (i = 14%nat -> c = "4"%char)
      /\ (i = 19%nat -> variant_char c = true).

End PortUtilsSpec.

(* ================================================================== *)
(** * Concrete hosts and worlds *)
(* ================================================================== *)

Module Samples.
Import Text Netscript.

Definition sample_ns : NS :=
  {| getHostname := "home";
     scan := fun _ => [];
     fileExists := fun _ _ => false;
     getServerNumPortsRequired := fun _ => 0%Z;
     getServerMaxRam := fun _ => 8%float;
     getServerUsedRam := fun _ => 0%float;
     portCapacity := 50 |}.

Definition idle_world : world := {| ports := fun _ => []; log := [] |}.

(** A host on the given server, with the given neighbour lists. *)
Definition network (origin : string) (links : string -> list string) : NS :=
  {| getHostname := origin;
     scan := links;
     fileExists := fun _ _ => false;
     getServerNumPortsRequired := fun _ => 0%Z;
     getServerMaxRam := fun _ => 8%float;
     getServerUsedRam := fun _ => 0%float;
     portCapacity := 50 |}.

(** Four servers: home - n00dles - zer0 and home - foodnstuff. *)
Definition small_network : NS :=
  network "home"
    (fun h =>
       if String.eqb h "home" then ["n00dles"; "foodnstuff"]
       else if String.eqb h "n00dles" then ["home"; "zer0"]
       else if String.eqb h "zer0" then ["n00dles"]
       else ["home"]).

(** Three servers, each a neighbour of the other two. *)
Definition triangle_network : NS :=
  network "a"
    (fun h =>
       if String.eqb h "a" then ["b"; "c"]
       else if String.eqb h "b" then ["a"; "c"]
       else ["a"; "b"]).

(** A purchased server carries the name of a method of every object. *)
Definition prototype_network : NS :=
  network "home"
    (fun h => if String.eqb h "home" then ["n00dles"; "toString"] else ["home"]).

(** One server with the empty hostname, listed as its own neighbour. *)
Definition empty_loop_network : NS := network "" (fun _ => [""]).

(** A payload with every kind of value that JSON text represents. *)
Definition sample_payload : Json.value :=
  Json.Array
    [ Json.Number (-12)%float; Json.Number 0.75%float; Json.Number 1e21%float;
      Json.Str "n00dles"; Json.Bool true; Json.Null;
      Json.Object [(txt "money", Json.Number 1750000%float);
                   (txt "tags", Json.Array [])] ].

(** A world whose output port holds the given messages. *)
Definition output_holds (messages : list text) : world :=
  {| ports := fun p => if Z.eqb p 20 then messages else []; log := [] |}.

End Samples.

(* ================================================================== *)
(** * Further notions *)
(* ================================================================== *)

Module ExtraSpec.
Import Text Netscript Utils PortUtils.

(** The total length of the neighbour lists of the given hostnames. *)
Definition degree_sum (ns : NS) (universe : list string) : nat :=
  list_sum (map (fun h => length (scan ns h)) universe).

(** The own properties of the object whose text [pushToInputPort]
    writes: [data] is there only when the payload has a JSON text. *)
Definition sent_properties (eventType reqId : text) (payload : Json.value)
    : Props.object Json.value :=
  ([ (txt "eventType", Json.Str eventType); (txt "reqId", Json.Str reqId) ]
   ++ match Json.stringify payload with
      | Some t => [(txt "data", Json.Str t)]
      | None => []
      end)%list.

(** The world after [checkForEvent] has been called [n] times. *)
Fixpoint after_polls (ns : NS) (eventType : text) (reqId_arg : option text)
    (n : nat) (w : world) : world :=
  match n with
  | O => w
  | S n' => after_polls ns eventType reqId_arg n'
              (snd (checkForEvent ns eventType reqId_arg w))
  end.

(** The number of calls of cracking functions among host calls. *)
Definition count_calls (events : list event) : nat :=
  length (filter (fun e => match e with Call _ _ => true | _ => false end) events).

(** The number of characters of a template that
    [replace(/[xy]/g, ...)] replaces. *)
Fixpoint count_xy (template : string) : nat :=
  match template with
  | EmptyString => 0
  | String c rest =>
      if (Ascii.eqb c "x" || Ascii.eqb c "y")%bool then S (count_xy rest)
      else count_xy rest
  end.

(** [replace_xy] with the number of calls of [Math.random()] made when
    the replacement is done: every call of the callback makes one. *)
Fixpoint replace_xy_counting (fl : Q -> Q) (random : nat -> Q) (template : string)
    (dt : Z) (calls : nat) : string * nat :=
  match template with
  | EmptyString => ("", calls)
  | String c rest =>
      if (Ascii.eqb c "x" || Ascii.eqb c "y")%bool then
        let '(digit, dt') := replacement fl dt (random calls) c in
        let '(out, n) := replace_xy_counting fl random rest dt' (S calls) in
        (digit ++ out, n)
      else
        let '(out, n) := replace_xy_counting fl random rest dt calls in
        (String c out, n)
  end.

Definition createUUID_counting (fl : Q -> Q) (now : Z) (random : nat -> Q)
    : string * nat :=
  replace_xy_counting fl random "xxxxxxxx-xxxx-4xxx-yxxx-xxxxxxxxxxxx" now 0.

(** A player who owns one of two cracking programs, and a server that
    requires one open port. *)
Definition two_tools : JS.object string :=
  [("BruteSSH.exe", "brutessh"); ("FTPCrack.exe", "ftpcrack")].

Definition ssh_only_ns : NS :=
  {| getHostname := "home";
     scan := fun _ => [];
     fileExists := fun file _ => String.eqb file "BruteSSH.exe";
     getServerNumPortsRequired := fun _ => 1%Z;
     getServerMaxRam := fun _ => 8%float;
     getServerUsedRam := fun _ => 0%float;
     portCapacity := 50 |}.

End ExtraSpec.

(* ================================================================== *)
(** * Facts about the host model *)
(* ================================================================== *)

Module HostFacts.
Import Text Netscript Host.

Lemma logged_nil (w : world) : logged w [] = w.
Proof. destruct w; unfold logged; simpl. rewrite app_nil_r. reflexivity. Qed.

Lemma logged_logged (w : world) (es1 es2 : list event) :
  logged (logged w es1) es2 = logged w (es1 ++ es2)%list.
Proof. unfold logged; simpl. rewrite app_assoc. reflexivity. Qed.

Lemma bind_returned {A B : Type} (c : script A) (k : A -> script B)
    (w w' : world) (a : A) :
  c w = (Returned a, w') -> bind c k w = k a w'.
Proof. intros H. unfold bind. rewrite H. reflexivity. Qed.

Lemma getPortHandle_run (port : Z) (w : world) :
  getPortHandle port w = (Returned port, logged w [GetPortHandle port]).
Proof. reflexivity. Qed.

Lemma full_run (ns : NS) (handle : Z) (w : world) :
  full ns handle w
  = (Returned (portCapacity ns <=? length (ports w handle))%nat,
     logged w [PortFull handle]).
Proof. reflexivity. Qed.

Lemma empty_run (handle : Z) (w : world) :
  empty handle w
  = (Returned (match ports w handle with [] => true | _ :: _ => false end),
     logged w [PortEmpty handle]).
Proof. reflexivity. Qed.

Lemma peek_run (handle : Z) (w : world) :
  peek handle w
  = (Returned (match ports w handle with [] => null_port_data | m :: _ => m end),
     logged w [PortPeek handle]).
Proof. reflexivity. Qed.

Lemma read_run (handle : Z) (w : world) (m : text) (q : list text) :
  ports w handle = m :: q ->
  read handle w = (Returned m, with_port (logged w [PortRead handle]) handle q).
Proof.
  intros H. unfold read, bind, emit, port_data, set_port, ret. cbn [ports log].
  rewrite H. reflexivity.
Qed.

Lemma write_run (ns : NS) (handle : Z) (data : text) (w : world) :
  (length (ports w handle) < portCapacity ns)%nat ->
  write ns handle data w
  = (Returned None,
     with_port (logged w [PortWrite handle data]) handle
       (ports w handle ++ [data])%list).
Proof.
  intros H. unfold write, bind, emit, port_data, set_port, ret. cbn [ports log].
  assert (Hfits : (length (ports w handle ++ [data]) <=? portCapacity ns)%nat = true).
  { apply Nat.leb_le. rewrite length_app. simpl. lia. }
  rewrite Hfits. reflexivity.
Qed.

Lemma ports_with_port_same (w : world) (p : Z) (q : list text) :
  ports (with_port w p q) p = q.
Proof. unfold with_port; simpl. rewrite Z.eqb_refl. reflexivity. Qed.

Lemma ports_with_port_other (w : world) (p p' : Z) (q : list text) :
  p' <> p -> ports (with_port w p q) p' = ports w p'.
Proof.
  intros H. unfold with_port; simpl. apply Z.eqb_neq in H. rewrite H. reflexivity.
Qed.

End HostFacts.

(* ================================================================== *)
(** * Facts about plain objects *)
(* ================================================================== *)

Module JSFacts.
Import JS.

Section Objects.
Context {V : Type}.
Implicit Types (o : object V) (k q : string) (v : V).

Lemma has_own_keys o k : has_own o k = true <-> In k (keys o).
Proof.
  unfold has_own, keys. induction o as [|[k' v'] o IH]; simpl.
  - split; [discriminate | intros []].
  - destruct (String.eqb_spec k' k) as [-> | Hne].
    + split; auto.
    + rewrite IH. split; [auto | intros [Heq | Hin]; [contradiction | exact Hin]].
Qed.

Lemma get_own_none_keys o k : get_own o k = None <-> ~ In k (keys o).
Proof.
  rewrite <- has_own_keys. unfold has_own.
  destruct (get_own o k); split; intros H; try reflexivity; try discriminate.
  exfalso. apply H. reflexivity.
Qed.

Lemma get_own_replace o k v q :
  get_own (replace_own o k v) q
  = if String.eqb k q then (if has_own o k then Some v else None) else get_own o q.
Proof.
  unfold has_own. induction o as [|[k' v'] o IH]; simpl.
  - destruct (String.eqb k q); reflexivity.
  - destruct (String.eqb_spec k' k) as [-> | Hne]; simpl.
    + destruct (String.eqb k q); reflexivity.
    + rewrite IH. destruct (String.eqb_spec k q) as [Heq | Hkq]; [subst q|].
      * apply String.eqb_neq in Hne. rewrite Hne. reflexivity.
      * reflexivity.
Qed.

Lemma get_own_create o k v q :
  get_own o k = None ->
  get_own (create_own o k v) q = if String.eqb k q then Some v else get_own o q.
Proof.
  induction o as [|[k' v'] o IH]; simpl; intros Hnone; [reflexivity|].
  destruct (String.eqb_spec k' k) as [-> | Hne]; [discriminate|].
  destruct (precedes k k'); simpl; [reflexivity|].
  rewrite (IH Hnone).
  destruct (String.eqb_spec k q) as [Heq | Hkq]; [subst q|reflexivity].
  apply String.eqb_neq in Hne. rewrite Hne. reflexivity.
Qed.

Lemma get_own_define o k v q :
  get_own (define o k v) q = if String.eqb k q then Some v else get_own o q.
Proof.
  unfold define. destruct (has_own o k) eqn:Hown.
  - rewrite get_own_replace, Hown. reflexivity.
  - apply get_own_create. unfold has_own in Hown.
    destruct (get_own o k); [discriminate | reflexivity].
Qed.

Lemma keys_replace o k v : keys (replace_own o k v) = keys o.
Proof.
  unfold keys. induction o as [|[k' v'] o IH]; simpl; [reflexivity|].
  destruct (String.eqb k' k); simpl; congruence.
Qed.

Lemma keys_create o k v : Permutation (k :: keys o) (keys (create_own o k v)).
Proof.
  unfold keys. induction o as [|[k' v'] o IH]; simpl; [reflexivity|].
  destruct (precedes k k'); simpl; [reflexivity|].
  rewrite perm_swap. apply perm_skip. exact IH.
Qed.

Lemma in_keys_define o k v q : In q (keys (define o k v)) <-> q = k \/ In q (keys o).
Proof.
  rewrite <- !has_own_keys. unfold has_own. rewrite get_own_define.
  destruct (String.eqb_spec k q) as [Heq | Hne]; [subst q|].
  - split; auto.
  - split; [auto | intros [Heq | H]; [congruence | exact H]].
Qed.

Lemma NoDup_keys_define o k v : NoDup (keys o) -> NoDup (keys (define o k v)).
Proof.
  intros Hnd. unfold define. destruct (has_own o k) eqn:Hown.
  - rewrite keys_replace. exact Hnd.
  - eapply Permutation_NoDup; [apply keys_create|].
    constructor; [|exact Hnd].
    rewrite <- has_own_keys, Hown. discriminate.
Qed.
End Objects.

Lemma create_own_plain {V : Type} (o : object V) (k : string) (v : V) :
  array_index k = None -> create_own o k v = (o ++ [(k, v)])%list.
Proof.
  intros Hk. induction o as [|[k' v'] o IH]; [reflexivity|].
  cbn [create_own]. unfold precedes. rewrite Hk.
  rewrite IH. reflexivity.
Qed.

End JSFacts.

(* ================================================================== *)
(** * Facts about texts *)
(* ================================================================== *)

Module TextFacts.
Import Text.

Lemma eqb_refl (a : text) : Text.eqb a a = true.
Proof.
  induction a as [|x a IH]; [reflexivity|].
  cbn [Text.eqb]. rewrite N.eqb_refl. exact IH.
Qed.

Lemma eqb_eq (a b : text) : Text.eqb a b = true <-> a = b.
Proof.
  split; [|intros ->; apply eqb_refl].
  revert b. induction a as [|x a IH]; intros [|y b]; cbn [Text.eqb];
    try discriminate; [reflexivity|].
  intros H. apply andb_true_iff in H. destruct H as [Hxy Hab].
  apply N.eqb_eq in Hxy. rewrite Hxy, (IH b Hab). reflexivity.
Qed.

Lemma eqb_neq (a b : text) : Text.eqb a b = false <-> a <> b.
Proof.
  split.
  - intros H Heq. apply eqb_eq in Heq. congruence.
  - intros H. destruct (Text.eqb a b) eqn:Heq; [|reflexivity].
    apply eqb_eq in Heq. contradiction.
Qed.

End TextFacts.


(* ================================================================== *)
(** * Numbers and their numerals *)
(* ================================================================== *)

Module NumberText.
Import Text Json.
Local Open Scope list_scope.
Local Open Scope Z_scope.

(** ** Rounding a number of the format gives the number *)

Lemma iter_pos_nat {A : Type} (f : A -> A) (p : positive) (x : A) :
  iter_pos f p x = Nat.iter (Pos.to_nat p) f x.
Proof.
  revert x. induction p as [p IH | p IH | ]; intros x; cbn [iter_pos].
  - rewrite !IH, <- Nat.iter_add, <- Nat.iter_succ_r. f_equal. lia.
  - rewrite !IH, <- Nat.iter_add. f_equal. lia.
  - reflexivity.
Qed.

Lemma shifted_digits (m : positive) (n : nat) :
  Zpos (digits2_pos (Nat.iter n xO m)) = Zpos (digits2_pos m) + Z.of_nat n.
Proof.
  induction n as [|n IH]; [cbn; lia|].
  change (Nat.iter (S n) xO m) with (xO (Nat.iter n xO m)).
  cbn [digits2_pos]. rewrite Pos2Z.inj_succ, IH. lia.
Qed.

Lemma shifted_value (m : positive) (n : nat) :
  Zpos (Nat.iter n xO m) = Zpos m * 2 ^ Z.of_nat n.
Proof.
  induction n as [|n IH]; [cbn; lia|].
  change (Nat.iter (S n) xO m) with (xO (Nat.iter n xO m)).
  rewrite Pos2Z.inj_xO, IH, Nat2Z.inj_succ, Z.pow_succ_r by lia. lia.
Qed.

Lemma shr_shifted (m : positive) (n : nat) :
  Nat.iter n shr_1
    {| shr_m := Zpos (Nat.iter n xO m); shr_r := false; shr_s := false |}
  = {| shr_m := Zpos m; shr_r := false; shr_s := false |}.
Proof.
  induction n as [|n IH]; [reflexivity|].
  rewrite Nat.iter_succ_r.
  change (Nat.iter (S n) xO m) with (xO (Nat.iter n xO m)).
  cbn [shr_1 orb]. exact IH.
Qed.

Lemma round_shifted (s : bool) (m : positive) (e : Z) (n : nat) :
  bounded prec emax m e = true ->
  binary_round_aux prec emax s (Zpos (Nat.iter n xO m)) (e - Z.of_nat n) loc_Exact
  = S754_finite s m e.
Proof.
  intros Hb. unfold bounded in Hb. apply andb_true_iff in Hb.
  destruct Hb as [Hcan Hmax]. unfold canonical_mantissa in Hcan.
  apply Z.eqb_eq in Hcan. 
  unfold binary_round_aux, shr_fexp. cbn [Zdigits2 shr_record_of_loc].
  rewrite shifted_digits.
  replace (Zpos (digits2_pos m) + Z.of_nat n + (e - Z.of_nat n))
    with (Zpos (digits2_pos m) + e) by lia.
  rewrite Hcan.
  replace (e - (e - Z.of_nat n)) with (Z.of_nat n) by lia.
  assert (Hshr : shr {| shr_m := Zpos (Nat.iter n xO m); shr_r := false; shr_s := false |}
                   (e - Z.of_nat n) (Z.of_nat n)
                 = ({| shr_m := Zpos m; shr_r := false; shr_s := false |}, e)).
  { destruct n as [|n].
    - cbn. f_equal. lia.
    - unfold shr.
      destruct (Z.of_nat (S n)) as [|p|p] eqn:Hp; try lia.
      rewrite iter_pos_nat.
      replace (Pos.to_nat p) with (S n) by lia.
      rewrite shr_shifted. f_equal. lia. }
  rewrite Hshr. cbn [shr_m loc_of_shr_record round_nearest_even Zdigits2 shr_record_of_loc].
  rewrite Hcan, Z.sub_diag. cbn [shr shr_m]. rewrite Hmax. reflexivity.
Qed.

Lemma digits_bounds (p : positive) :
  2 ^ Zpos (digits2_pos p) <= 2 * Zpos p /\ Zpos p < 2 ^ Zpos (digits2_pos p).
Proof.
  induction p as [p IH | p IH | ]; cbn [digits2_pos].
  - rewrite Pos2Z.inj_succ, Z.pow_succ_r by lia. lia.
  - rewrite Pos2Z.inj_succ, Z.pow_succ_r by lia. lia.
  - cbn. lia.
Qed.

Lemma fexp_monotone (a b : Z) : a <= b -> fexp prec emax a <= fexp prec emax b.
Proof. unfold fexp. lia. Qed.

(** The quotient of two integers whose value is a number of the format
    is rounded to that number. *)
Lemma SFdiv_exact (s : bool) (p q m : positive) (e : Z) :
  bounded prec emax m e = true ->
  Zpos p * 2 ^ Z.max (- e) 0 = Zpos m * Zpos q * 2 ^ Z.max e 0 ->
  SFdiv prec emax (S754_finite s p 0) (S754_finite false q 0) = S754_finite s m e.
Proof.
  intros Hb Hvalue.
  assert (Hcan : fexp prec emax (Zpos (digits2_pos m) + e) = e).
  { unfold bounded in Hb. apply andb_true_iff in Hb. destruct Hb as [Hcan _].
    apply Z.eqb_eq. exact Hcan. }
  destruct (digits_bounds p) as [Hp1 Hp2].
  destruct (digits_bounds q) as [Hq1 Hq2].
  destruct (digits_bounds m) as [Hm1 Hm2].
  set (d1 := Zpos (digits2_pos p)) in *.
  set (d2 := Zpos (digits2_pos q)) in *.
  set (dm := Zpos (digits2_pos m)) in *.
  assert (Hdigits : d1 - d2 <= dm + e).
  { assert (Hlt : 2 ^ (d1 + Z.max (- e) 0) < 2 ^ (dm + d2 + 1 + Z.max e 0)).
    { rewrite !Z.pow_add_r by lia. rewrite Z.pow_1_r.
      assert (H1 : 2 ^ d1 * 2 ^ Z.max (- e) 0 <= 2 * (Zpos m * Zpos q * 2 ^ Z.max e 0)).
      { rewrite <- Hvalue. 
        assert (0 <= 2 ^ Z.max (- e) 0) by (apply Z.pow_nonneg; lia). nia. }
      assert (H2 : Zpos m * Zpos q < 2 ^ dm * 2 ^ d2) by nia.
      assert (0 < 2 ^ Z.max e 0) by (apply Z.pow_pos_nonneg; lia).
      nia. }
    apply Z.pow_lt_mono_r_iff in Hlt; lia. }
  set (e' := Z.min (fexp prec emax (d1 - d2)) 0).
  assert (He' : e' <= e /\ e' <= 0).
  { pose proof (fexp_monotone _ _ Hdigits) as Hmono. rewrite Hcan in Hmono.
    unfold e'. lia. }
  destruct He' as [Hle Hneg].
  unfold SFdiv, SFdiv_core_binary. cbn [Zdigits2].
  fold d1 d2. change (0 - 0) with 0. rewrite !Z.add_0_r.
  change (IntDef.Z.min (fexp prec emax (d1 - d2)) 0) with e'.
  change (xorb s false) with (xorb s false). rewrite xorb_false_r.
  rewrite Z.sub_0_l.
  change (IntDef.Z.shiftl (Zpos p) (- e')) with (Z.shiftl (Zpos p) (- e')).
  change (IntDef.Z.div_eucl) with Z.div_eucl.
  assert (Hquot : (match - e' with
                   | Z0 => Zpos p
                   | Zpos _ => Z.shiftl (Zpos p) (- e')
                   | Zneg _ => 0
                   end) = Zpos (Nat.iter (Z.to_nat (e - e')) xO m) * Zpos q).
  { assert (Hshift : (match - e' with
                      | Z0 => Zpos p
                      | Zpos _ => Z.shiftl (Zpos p) (- e')
                      | Zneg _ => 0
                      end) = Zpos p * 2 ^ (- e')).
    { destruct (- e') as [|k|k] eqn:Hk;
        [ rewrite Z.pow_0_r; lia
        | rewrite Z.shiftl_mul_pow2 by lia; reflexivity
        | lia ]. }
    rewrite Hshift, shifted_value, Z2Nat.id by lia.
    destruct (Z.le_ge_cases 0 e) as [Hpos | Hnonpos].
    - rewrite Z.max_r in Hvalue by lia. rewrite Z.max_l in Hvalue by lia.
      rewrite Z.pow_0_r, Z.mul_1_r in Hvalue. rewrite Hvalue.
      replace (e - e') with (e + - e') by lia.
      rewrite Z.pow_add_r by lia. ring.
    - rewrite Z.max_l in Hvalue by lia. rewrite Z.max_r in Hvalue by lia.
      rewrite Z.pow_0_r, Z.mul_1_r in Hvalue.
      replace (- e') with (- e + (e - e')) by lia.
      rewrite Z.pow_add_r by lia. rewrite Z.mul_assoc, Hvalue. ring. }
  rewrite Hquot.
  rewrite Z.mul_comm.
  assert (Hdiv : Z.div_eucl (Zpos q * Zpos (Nat.iter (Z.to_nat (e - e')) xO m)) (Zpos q)
                 = (Zpos (Nat.iter (Z.to_nat (e - e')) xO m), 0)).
  { pose proof (Z.div_mul (Zpos (Nat.iter (Z.to_nat (e - e')) xO m)) (Zpos q)) as Hquo.
    pose proof (Z.mod_mul (Zpos (Nat.iter (Z.to_nat (e - e')) xO m)) (Zpos q)) as Hrem.
    rewrite (Z.mul_comm (Zpos q)).
    unfold Z.div, Z.modulo in Hquo, Hrem.
    destruct (Z.div_eucl _ _) as [quo r]. cbn [fst snd] in Hquo, Hrem.
    rewrite Hquo, Hrem by lia. reflexivity. }
  rewrite Hdiv.
  assert (Hloc : new_location (Zpos q) 0 = loc_Exact).
  { unfold new_location, new_location_even, new_location_odd.
    destruct (Z.even (Zpos q)); reflexivity. }
  rewrite Hloc.
  replace e' with (e - Z.of_nat (Z.to_nat (e - e'))) at 2 by lia.
  apply round_shifted. exact Hb.
Qed.

Lemma power_of_ten_positive (k : Z) : Zpos (Z.to_pos (10 ^ Z.max k 0)) = 10 ^ Z.max k 0.
Proof. apply Z2Pos.id. apply Z.pow_pos_nonneg; lia. Qed.

Lemma round_decimal_exact (s : bool) (P m : positive) (E e : Z) :
  bounded prec emax m e = true ->
  Zpos P * 10 ^ Z.max E 0 * 2 ^ Z.max (- e) 0
  = Zpos m * 10 ^ Z.max (- E) 0 * 2 ^ Z.max e 0 ->
  round_decimal s (Npos P) E = S754_finite s m e.
Proof.
  intros Hb Hvalue. unfold round_decimal. apply SFdiv_exact; [exact Hb|].
  rewrite Pos2Z.inj_mul, !power_of_ten_positive. exact Hvalue.
Qed.

(** The sign of a numeral is the sign of its value and nothing more. *)
Definition with_sign (s : bool) (x : spec_float) : spec_float :=
  match x with
  | S754_zero _ => S754_zero s
  | S754_infinity _ => S754_infinity s
  | S754_nan => S754_nan
  | S754_finite _ m e => S754_finite s m e
  end.

Lemma round_decimal_sign (s : bool) (M : N) (E : Z) :
  round_decimal s M E = with_sign s (round_decimal false M E).
Proof.
  unfold round_decimal. destruct M as [|P]; [reflexivity|].
  unfold SFdiv. rewrite !xorb_false_r.
  destruct (SFdiv_core_binary _ _ _ _ _ _) as [[mz ez] lz].
  unfold binary_round_aux.
  destruct (shr_fexp prec emax mz ez lz) as [mrs e1].
  destruct (shr_fexp prec emax _ e1 loc_Exact) as [mrs' e2].
  destruct (shr_m mrs'); [reflexivity | | reflexivity].
  destruct (e2 <=? emax - prec); reflexivity.
Qed.

(** ** Reading digits *)

Lemma txt_app (a b : string) : txt (a ++ b)%string = txt a ++ txt b.
Proof.
  unfold txt. induction a as [|c a IH]; [reflexivity|].
  cbn [append list_ascii_of_string map app]. f_equal. exact IH.
Qed.

Lemma digit_value_code (d : N) :
  (d < 10)%N -> digit_value (code (JS.digit_char d)) = Some d.
Proof.
  intros H.
  assert (Hcases : In d [0; 1; 2; 3; 4; 5; 6; 7; 8; 9]%N) by (simpl; lia).
  simpl in Hcases.
  repeat (destruct Hcases as [<- | Hcases]; [reflexivity|]).
  contradiction.
Qed.

Lemma read_radix_digits (fuel : nat) :
  forall n : N,
    (0 < n)%N -> (n < 2 ^ N.of_nat fuel)%N ->
    exists d tail,
      txt (JS.radix_digits 10 fuel n) = code (JS.digit_char d) :: tail
      /\ (0 < d < 10)%N
      /\ forall rest, read_digits d (tail ++ rest) = read_digits n rest.
Proof.
  induction fuel as [|fuel IH]; intros n Hpos Hlt.
  - simpl in Hlt. lia.
  - cbn [JS.radix_digits]. destruct (N.ltb_spec n 10) as [Hsmall | Hbig].
    + exists n, []. rewrite N.mod_small by exact Hsmall.
      split; [reflexivity|]. split; [lia|]. reflexivity.
    + assert (Hq : (0 < n / 10)%N) by (apply N.div_str_pos; lia).
      assert (Hqlt : (n / 10 < 2 ^ N.of_nat fuel)%N).
      { rewrite Nat2N.inj_succ, N.pow_succ_r' in Hlt.
        apply N.Div0.div_lt_upper_bound. lia. }
      destruct (IH (n / 10)%N Hq Hqlt) as [d [tail [Htext [Hd Hread]]]].
      exists d, (tail ++ [code (JS.digit_char (n mod 10))]).
      rewrite txt_app, Htext. split; [reflexivity|]. split; [exact Hd|].
      intros rest. rewrite <- app_assoc. rewrite Hread. cbn [app read_digits].
      rewrite digit_value_code by (apply N.mod_lt; lia).
      f_equal. pose proof (N.div_mod n 10). lia.
Qed.

Lemma decimal_read (n : N) :
  (0 < n)%N ->
  exists d tail,
    decimal n = code (JS.digit_char d) :: tail
    /\ (0 < d < 10)%N
    /\ forall rest, read_digits d (tail ++ rest) = read_digits n rest.
Proof.
  intros Hpos. unfold decimal, JS.N_to_string. apply read_radix_digits; [exact Hpos|].
  rewrite Nat2N.inj_succ, N2Nat.id. apply N.log2_spec. exact Hpos.
Qed.

(** What may follow a numeral: the end of the text, or a character that
    is no digit and starts no fraction or exponent. *)
Definition delimited (rest : text) : bool :=
  match rest with
  | [] => true
  | c :: _ =>
      match digit_value c with
      | Some _ => false
      | None => negb ((c =? code ".") || (c =? code "e") || (c =? code "E"))%N
      end
  end.

Lemma delimited_no_digit (rest : text) :
  delimited rest = true -> starts_with_digit rest = false.
Proof.
  destruct rest as [|c rest]; [reflexivity|]. cbn [delimited starts_with_digit].
  destruct (digit_value c); [discriminate | reflexivity].
Qed.

Lemma read_digits_stop (n : N) (rest : text) :
  starts_with_digit rest = false -> read_digits n rest = (n, rest).
Proof.
  destruct rest as [|c rest]; [reflexivity|]. cbn [starts_with_digit read_digits].
  destruct (digit_value c); [discriminate | reflexivity].
Qed.

Lemma read_int_decimal (n : N) (rest : text) :
  starts_with_digit rest = false ->
  read_int (decimal n ++ rest) = Some (n, rest).
Proof.
  intros Hrest. destruct (N.eq_dec n 0) as [-> | Hn].
  - reflexivity.
  - destruct (decimal_read n) as [d [tail [Htext [Hd Hread]]]]; [lia|].
    rewrite Htext. cbn [app read_int].
    rewrite digit_value_code by lia.
    destruct d as [|p]; [lia|].
    rewrite Hread, read_digits_stop by exact Hrest. reflexivity.
Qed.

Lemma decimal_starts_with_digit (n : N) (rest : text) :
  starts_with_digit (decimal n ++ rest) = true.
Proof.
  destruct (N.eq_dec n 0) as [-> | Hn]; [reflexivity|].
  destruct (decimal_read n) as [d [tail [Htext [Hd _]]]]; [lia|].
  rewrite Htext. cbn [app starts_with_digit].
  rewrite digit_value_code by lia. reflexivity.
Qed.

Lemma read_digits_decimal (n : N) (rest : text) :
  starts_with_digit rest = false ->
  read_digits 0 (decimal n ++ rest) = (n, rest).
Proof.
  intros Hrest. destruct (N.eq_dec n 0) as [-> | Hn].
  - change (decimal 0) with [code "0"]. cbn [app read_digits].
    change (digit_value (code "0")) with (Some 0%N). cbv iota.
    apply read_digits_stop. exact Hrest.
  - destruct (decimal_read n) as [d [tail [Htext [Hd Hread]]]]; [lia|].
    rewrite Htext. cbn [app read_digits].
    rewrite digit_value_code by lia.
    replace (10 * 0 + d)%N with d by lia.
    rewrite Hread, read_digits_stop by exact Hrest. reflexivity.
Qed.

Lemma read_frac_none (int : N) (rest : text) :
  delimited rest = true -> read_frac int rest = Some (int, 0, rest).
Proof.
  destruct rest as [|c rest]; [reflexivity|]. cbn [delimited read_frac].
  destruct (digit_value c); [discriminate|].
  destruct (c =? code ".")%N; [discriminate | reflexivity].
Qed.

Lemma read_exp_none (rest : text) :
  delimited rest = true -> read_exp rest = Some (0, rest).
Proof.
  destruct rest as [|c rest]; [reflexivity|]. cbn [delimited read_exp].
  destruct (digit_value c); [discriminate|].
  destruct (c =? code ".")%N, (c =? code "e")%N, (c =? code "E")%N;
    try discriminate; reflexivity.
Qed.

(** ** All the digits are read back as the number *)

Lemma read_exact (s : bool) (m : positive) (e : Z) (rest : text) :
  bounded prec emax m e = true ->
  delimited rest = true ->
  read_unsigned s (exact_decimal m e ++ rest) = Some (S754_finite s m e, rest).
Proof.
  intros Hb Hrest. unfold read_unsigned, exact_decimal.
  destruct (Z.leb_spec 0 e) as [Hpos | Hneg].
  - rewrite read_int_decimal by (apply delimited_no_digit; exact Hrest).
    rewrite read_frac_none, read_exp_none by exact Hrest.
    assert (Hnum : (N.pos m * 2 ^ Z.to_N e)%N
                   = N.pos (m * Z.to_pos (2 ^ e))).
    { apply N2Z.inj. rewrite N2Z.inj_mul, N2Z.inj_pow, Z2N.id by lia.
      cbn [Z.of_N]. rewrite Pos2Z.inj_mul, Z2Pos.id by (apply Z.pow_pos_nonneg; lia).
      reflexivity. }
    rewrite Hnum. f_equal. f_equal.
    apply round_decimal_exact; [exact Hb|].
    rewrite Pos2Z.inj_mul, Z2Pos.id by (apply Z.pow_pos_nonneg; lia).
    rewrite Z.sub_diag. cbn [Z.opp]. rewrite !Z.max_id, (Z.max_r (- e)), (Z.max_l e) by lia.
    rewrite !Z.pow_0_r. ring.
  - set (K := Z.to_N (- e)).
    assert (Hdigits : (N.pos m * 5 ^ K)%N = N.pos (m * Z.to_pos (5 ^ (- e)))).
    { apply N2Z.inj. unfold K. rewrite N2Z.inj_mul, N2Z.inj_pow, Z2N.id by lia.
      cbn [Z.of_N]. rewrite Pos2Z.inj_mul, Z2Pos.id by (apply Z.pow_pos_nonneg; lia).
      reflexivity. }
    rewrite <- !app_assoc. rewrite read_int_decimal by reflexivity.
    cbn [txt list_ascii_of_string map app read_frac].
    change (code "e" =? code ".")%N with false. cbv iota.
    cbn [read_exp].
    change ((code "e" =? code "e") || (code "e" =? code "E"))%N with true. cbv iota.
    change (code "-" =? code "-")%N with true. cbv iota.
    rewrite decimal_starts_with_digit.
    rewrite read_digits_decimal by (apply delimited_no_digit; exact Hrest).
    rewrite Hdigits. f_equal. f_equal.
    apply round_decimal_exact; [exact Hb|].
    unfold K. rewrite Z2N.id by lia.
    rewrite Pos2Z.inj_mul, Z2Pos.id by (apply Z.pow_pos_nonneg; lia).
    replace (- - e - 0) with e by lia.
    rewrite (Z.max_r e), (Z.max_l (- e)) by lia.
    rewrite Z.pow_0_r.
    replace (10 ^ (- e)) with (5 ^ (- e) * 2 ^ (- e))
      by (rewrite <- Z.pow_mul_l; reflexivity).
    ring.
Qed.

(** ** A numeral read to its end is read the same before a delimiter *)

Lemma read_digits_app (rest : text) :
  starts_with_digit rest = false ->
  forall (t : text) (acc v : N) (r : text),
    read_digits acc t = (v, r) -> read_digits acc (t ++ rest) = (v, r ++ rest).
Proof.
  intros Hrest. induction t as [|c t IH]; intros acc v r.
  - cbn [read_digits app]. intros H; injection H as <- <-.
    apply read_digits_stop. exact Hrest.
  - cbn [read_digits app]. destruct (digit_value c).
    + apply IH.
    + intros H; injection H as <- <-. reflexivity.
Qed.

Lemma read_fraction_digits_app (rest : text) :
  starts_with_digit rest = false ->
  forall (t : text) (acc : N) (count : Z) (v : N) (n : Z) (r : text),
    read_fraction_digits acc count t = (v, n, r) ->
    read_fraction_digits acc count (t ++ rest) = (v, n, r ++ rest).
Proof.
  intros Hrest. induction t as [|c t IH]; intros acc count v n r.
  - cbn [read_fraction_digits app]. intros H; injection H as <- <- <-.
    destruct rest as [|c rest]; [reflexivity|].
    cbn [starts_with_digit] in Hrest. cbn [read_fraction_digits].
    destruct (digit_value c); [discriminate | reflexivity].
  - cbn [read_fraction_digits app]. destruct (digit_value c).
    + apply IH.
    + intros H; injection H as <- <- <-. reflexivity.
Qed.

Lemma starts_with_digit_app (t rest : text) :
  starts_with_digit t = true -> starts_with_digit (t ++ rest) = true.
Proof. destruct t as [|c t]; [discriminate | exact (fun H => H)]. Qed.

Lemma read_int_app (rest : text) :
  starts_with_digit rest = false ->
  forall (t : text) (n : N) (r : text),
    read_int t = Some (n, r) -> read_int (t ++ rest) = Some (n, r ++ rest).
Proof.
  intros Hrest t n r. destruct t as [|c t]; [discriminate|].
  cbn [read_int app]. destruct (digit_value c) as [[|d]|]; [ | | discriminate].
  - intros H; injection H as <- <-. reflexivity.
  - destruct (read_digits (N.pos d) t) as [v r'] eqn:Hread.
    intros H; injection H as <- <-.
    rewrite (read_digits_app rest Hrest _ _ _ _ Hread). reflexivity.
Qed.

Lemma read_frac_app (rest : text) :
  delimited rest = true ->
  forall (t : text) (int M : N) (count : Z) (r : text),
    read_frac int t = Some (M, count, r) ->
    read_frac int (t ++ rest) = Some (M, count, r ++ rest).
Proof.
  intros Hrest t int M count r. destruct t as [|c t].
  - cbn [read_frac app]. intros H; injection H as <- <- <-.
    apply read_frac_none. exact Hrest.
  - cbn [read_frac app]. destruct (c =? code ".")%N.
    + destruct (starts_with_digit t) eqn:Hdigit; [|discriminate].
      rewrite (starts_with_digit_app _ _ Hdigit).
      intros H; injection H as H. f_equal.
      apply read_fraction_digits_app; [apply delimited_no_digit|]; assumption.
    + intros H; injection H as <- <- <-. reflexivity.
Qed.

Lemma read_exp_app (rest : text) :
  delimited rest = true ->
  forall (t : text) (E : Z) (r : text),
    read_exp t = Some (E, r) -> read_exp (t ++ rest) = Some (E, r ++ rest).
Proof.
  intros Hrest t E r. destruct t as [|c t].
  - cbn [read_exp app]. intros H; injection H as <- <-.
    apply read_exp_none. exact Hrest.
  - cbn [read_exp app]. destruct ((c =? code "e") || (c =? code "E"))%N.
    + assert (Hdigits : forall (negative : bool) (t1 : text),
                 (if starts_with_digit t1 then
                    let '(n, rest0) := read_digits 0 t1 in
                    Some (if negative then - Z.of_N n else Z.of_N n, rest0)
                  else None) = Some (E, r) ->
                 (if starts_with_digit (t1 ++ rest) then
                    let '(n, rest0) := read_digits 0 (t1 ++ rest) in
                    Some (if negative then - Z.of_N n else Z.of_N n, rest0)
                  else None) = Some (E, r ++ rest)).
      { intros negative t1. destruct (starts_with_digit t1) eqn:Hdigit; [|discriminate].
        rewrite (starts_with_digit_app _ _ Hdigit).
        destruct (read_digits 0 t1) as [n r'] eqn:Hread.
        rewrite (read_digits_app rest (delimited_no_digit _ Hrest) _ _ _ _ Hread).
        intros H; injection H as <- <-. reflexivity. }
      destruct t as [|g t].
      * discriminate.
      * cbn [app]. destruct (g =? code "-")%N; [exact (Hdigits true t)|].
        destruct (g =? code "+")%N; [exact (Hdigits false t)|].
        exact (Hdigits false (g :: t)).
    + intros H; injection H as <- <-. reflexivity.
Qed.

Lemma read_unsigned_app (s : bool) (t rest : text) (x : spec_float) (r : text) :
  delimited rest = true ->
  read_unsigned s t = Some (x, r) ->
  read_unsigned s (t ++ rest) = Some (x, r ++ rest).
Proof.
  intros Hrest. unfold read_unsigned.
  destruct (read_int t) as [[int s2]|] eqn:Hint; [|discriminate].
  rewrite (read_int_app rest (delimited_no_digit _ Hrest) _ _ _ Hint).
  destruct (read_frac int s2) as [[[M count] s3]|] eqn:Hfrac; [|discriminate].
  rewrite (read_frac_app rest Hrest _ _ _ _ _ Hfrac).
  destruct (read_exp s3) as [[E r']|] eqn:Hexp; [|discriminate].
  rewrite (read_exp_app rest Hrest _ _ _ Hexp).
  intros H; injection H as <- <-. reflexivity.
Qed.

Lemma read_unsigned_sign (s : bool) (t : text) :
  read_unsigned s t
  = option_map (fun p => (with_sign s (fst p), snd p)) (read_unsigned false t).
Proof.
  unfold read_unsigned.
  destruct (read_int t) as [[int s2]|]; [|reflexivity].
  destruct (read_frac int s2) as [[[M count] s3]|]; [|reflexivity].
  destruct (read_exp s3) as [[E r]|]; [|reflexivity].
  cbn [option_map fst snd]. rewrite round_decimal_sign. reflexivity.
Qed.

Lemma with_sign_twice (s s' : bool) (x : spec_float) :
  with_sign s (with_sign s' x) = with_sign s x.
Proof. destruct x; reflexivity. Qed.

Lemma same_float_eq (a b : spec_float) : same_float a b = true -> a = b.
Proof.
  destruct a as [s | s | | s m e], b as [s' | s' | | s' m' e']; cbn [same_float];
    try discriminate; try reflexivity.
  - intros H. apply Bool.eqb_prop in H. congruence.
  - intros H. apply Bool.eqb_prop in H. congruence.
  - rewrite !andb_true_iff. intros [[Hs Hm] He].
    apply Bool.eqb_prop in Hs. apply Pos.eqb_eq in Hm. apply Z.eqb_eq in He.
    congruence.
Qed.

(** A text that reads as a positive number is read with either sign. *)
Lemma reads_as_unsigned (s : bool) (m : positive) (e : Z) (t : text) :
  reads_as (S754_finite false m e) t = true ->
  read_unsigned s t = Some (S754_finite s m e, []).
Proof.
  unfold reads_as, read_numeral. destruct t as [|c t]; [discriminate|].
  destruct (c =? code "-")%N.
  - rewrite read_unsigned_sign.
    destruct (read_unsigned false t) as [[y r]|]; [|discriminate].
    cbn [option_map fst snd]. destruct r; [|discriminate].
    intros H. apply same_float_eq in H. destruct y; discriminate.
  - destruct (read_unsigned false (c :: t)) as [[y r]|] eqn:Hread; [|discriminate].
    destruct r; [|discriminate].
    intros H. apply same_float_eq in H. subst y.
    rewrite read_unsigned_sign, Hread. reflexivity.
Qed.

(** The digits of a number of the format are read back as the number. *)
Lemma finite_to_string_read (s : bool) (m : positive) (e : Z) (rest : text) :
  bounded prec emax m e = true ->
  delimited rest = true ->
  read_unsigned s (finite_to_string m e ++ rest) = Some (S754_finite s m e, rest).
Proof.
  intros Hb Hrest. unfold finite_to_string.
  destruct (shortest m e) as [t|] eqn:Hshort.
  - unfold shortest in Hshort. destruct (fraction m e) as [num den].
    apply find_some in Hshort. destruct Hshort as [_ Hreads].
    apply (reads_as_unsigned s) in Hreads.
    apply (read_unsigned_app s t rest _ _ Hrest) in Hreads. exact Hreads.
  - apply read_exact; assumption.
Qed.

Lemma read_unsigned_head (s : bool) (t : text) (x : spec_float) (r : text) :
  read_unsigned s t = Some (x, r) ->
  exists c t', t = c :: t' /\ starts_with_digit [c] = true.
Proof.
  unfold read_unsigned. destruct t as [|c t]; [discriminate|].
  cbn [read_int]. destruct (digit_value c) eqn:Hdigit; [|discriminate].
  intros _. exists c, t. split; [reflexivity|].
  cbn [starts_with_digit]. rewrite Hdigit. reflexivity.
Qed.

Lemma digit_not_minus (c : N) : starts_with_digit [c] = true -> (c =? code "-")%N = false.
Proof.
  cbn [starts_with_digit]. unfold digit_value.
  destruct (N.eqb_spec c (code "-")) as [-> | Hne]; [discriminate | reflexivity].
Qed.

(** [JSON.parse] reads the text Number::toString gives a finite number
    as that number. *)
Lemma parse_number_text (x : float) (rest : text) :
  is_finite x = true ->
  delimited rest = true ->
  parse_number (number_to_string x ++ rest) = Some (Number (unsigned_zero x), rest).
Proof.
  intros Hfin Hrest. unfold parse_number, number_to_string, is_finite, unsigned_zero in *.
  pose proof (Prim2SF_valid x) as Hvalid.
  pose proof (SF2Prim_Prim2SF x) as Hback.
  destruct (Prim2SF x) as [s | s | | s m e]; try discriminate.
  - change (txt "0") with (decimal 0).
    unfold read_numeral. change (decimal 0 ++ rest) with (code "0" :: rest).
    change (code "0" =? code "-")%N with false. cbv iota.
    unfold read_unsigned. change (code "0" :: rest) with (decimal 0 ++ rest).
    rewrite read_int_decimal by (apply delimited_no_digit; exact Hrest).
    rewrite read_frac_none, read_exp_none by exact Hrest. reflexivity.
  - pose proof (finite_to_string_read s m e rest Hvalid Hrest) as Hread.
    pose proof (finite_to_string_read s m e [] Hvalid eq_refl) as Hhead.
    rewrite app_nil_r in Hhead. apply read_unsigned_head in Hhead.
    destruct Hhead as [c [t' [Htext Hdigit]]].
    unfold read_numeral. destruct s.
    + cbn [txt list_ascii_of_string map app].
      change (code "-" =? code "-")%N with true. cbv iota.
      rewrite Hread, Hback. reflexivity.
    + cbn [app]. rewrite Htext in *. cbn [app] in *.
      rewrite (digit_not_minus c Hdigit), Hread, Hback. reflexivity.
Qed.

(** The first character of a numeral. *)
Definition numeral_head (c : N) : bool :=
  ((c =? code "-")%N || starts_with_digit [c])%bool.

Lemma number_to_string_head (x : float) :
  is_finite x = true ->
  exists c tail, number_to_string x = c :: tail /\ numeral_head c = true.
Proof.
  intros Hfin. unfold number_to_string, is_finite in *.
  pose proof (Prim2SF_valid x) as Hvalid.
  destruct (Prim2SF x) as [s | s | | s m e]; try discriminate.
  - exists (code "0"), []. split; reflexivity.
  - pose proof (finite_to_string_read s m e [] Hvalid eq_refl) as Hhead.
    rewrite app_nil_r in Hhead. apply read_unsigned_head in Hhead.
    destruct Hhead as [c [t' [Htext Hdigit]]].
    destruct s.
    + exists (code "-"), (finite_to_string m e). split; reflexivity.
    + exists c, t'. split; [exact Htext|].
      unfold numeral_head. rewrite Hdigit. apply orb_true_r.
Qed.

End NumberText.


(* ================================================================== *)
(** * JSON text read back *)
(* ================================================================== *)

Module JsonText.
Import Text Json NumberText.
Local Open Scope list_scope.

Lemma append_assoc (a b c : string) : ((a ++ b) ++ c = a ++ (b ++ c))%string.
Proof. induction a as [|x a IH]; simpl; [reflexivity | rewrite IH; reflexivity]. Qed.

Lemma list_sum_cons (a : nat) (l : list nat) : list_sum (a :: l) = a + list_sum l.
Proof. reflexivity. Qed.

(** ** What the parser never yields *)

Lemma parse_value_defined (fuel : nat) (s : text) (v : value) (r : text) :
  parse_value fuel s = Some (v, r) -> v <> Undefined.
Proof.
  destruct fuel as [|fuel]; [discriminate|]. cbn [parse_value].
  destruct (skip_ws s) as [|c rest]; [discriminate|].
  unfold parse_number.
  repeat match goal with
         | |- (if ?b then _ else _) = _ -> _ => destruct b
         | |- option_map _ ?o = _ -> _ => destruct o; cbn [option_map]
         | |- match ?o with Some _ => _ | None => _ end = _ -> _ => destruct o as [[? ?]|]
         | |- match ?o with Some _ => _ | None => _ end = _ -> _ => destruct o
         end;
    try discriminate;
    intros H; injection H as <- _; discriminate.
Qed.

(** [JSON.parse] never yields [undefined]. *)
Lemma parse_defined (t : text) : parse t <> Some Undefined.
Proof.
  unfold parse. intros H.
  destruct (parse_value (S (length t)) t) as [[v r]|] eqn:Hv; [|discriminate].
  destruct (skip_ws r); [|discriminate].
  injection H as ->. exact (parse_value_defined _ _ _ _ Hv eq_refl).
Qed.

(** ** Strings *)

Lemma hex_value_digit (d : N) : (d < 16)%N -> hex_value (hex_digit d) = Some d.
Proof.
  intros H.
  assert (Hcases : In d [0; 1; 2; 3; 4; 5; 6; 7; 8; 9; 10; 11; 12; 13; 14; 15]%N)
    by (simpl; lia).
  simpl in Hcases.
  repeat (destruct Hcases as [<- | Hcases]; [reflexivity|]).
  contradiction.
Qed.

Lemma hex_digits_value (c : N) :
  (c < 65536)%N ->
  (4096 * (c / 4096 mod 16) + 256 * (c / 256 mod 16) + 16 * (c / 16 mod 16) + c mod 16
   = c)%N.
Proof.
  intros Hc.
  replace (c / 4096)%N with (c / 16 / 16 / 16)%N
    by (rewrite !N.Div0.div_div; reflexivity).
  replace (c / 256)%N with (c / 16 / 16)%N
    by (rewrite !N.Div0.div_div; reflexivity).
  assert (Hd : (c / 16 / 16 / 16 < 16)%N).
  { rewrite !N.Div0.div_div. apply N.Div0.div_lt_upper_bound. exact Hc. }
  rewrite (N.mod_small _ _ Hd).
  pose proof (N.div_mod c 16 ltac:(discriminate)) as H0.
  pose proof (N.div_mod (c / 16) 16 ltac:(discriminate)) as H1.
  pose proof (N.div_mod (c / 16 / 16) 16 ltac:(discriminate)) as H2.
  remember (c / 16 / 16 / 16)%N as d eqn:Ed.
  remember (c / 16 / 16 mod 16)%N as r2 eqn:E2.
  remember (c / 16 / 16)%N as b eqn:Eb.
  remember (c / 16 mod 16)%N as r1 eqn:E1.
  remember (c / 16)%N as a eqn:Ea.
  remember (c mod 16)%N as r0 eqn:E0.
  clear Ed E2 Eb E1 Ea E0. lia.
Qed.

Lemma parse_unicode_escape (c : N) (tail : text) :
  (c < 65536)%N ->
  parse_chars (unicode_escape c ++ tail) = prepend c (parse_chars tail).
Proof.
  intros Hc. unfold unicode_escape. cbn [app parse_chars].
  change (backslash =? dquote)%N with false. change (backslash =? backslash)%N with true.
  change (code "u" =? code "u")%N with true. cbv iota.
  unfold read_unicode_escape.
  rewrite !hex_value_digit by (apply N.mod_lt; discriminate).
  rewrite hex_digits_value by exact Hc. reflexivity.
Qed.

Lemma parse_plain_char (c : N) (tail : text) :
  c <> dquote -> c <> backslash -> (32 <= c)%N ->
  parse_chars (c :: tail) = prepend c (parse_chars tail).
Proof.
  intros Hq Hb Hc. cbn [parse_chars].
  apply N.eqb_neq in Hq. apply N.eqb_neq in Hb. rewrite Hq, Hb.
  apply N.ltb_ge in Hc. rewrite Hc. reflexivity.
Qed.

Lemma parse_escape_char (c : N) (tail : text) :
  parse_chars (escape_char c ++ tail) = prepend c (parse_chars tail).
Proof.
  unfold escape_char.
  destruct (N.eqb_spec c 8) as [-> | H8]; [reflexivity|].
  destruct (N.eqb_spec c 9) as [-> | H9]; [reflexivity|].
  destruct (N.eqb_spec c 10) as [-> | H10]; [reflexivity|].
  destruct (N.eqb_spec c 12) as [-> | H12]; [reflexivity|].
  destruct (N.eqb_spec c 13) as [-> | H13]; [reflexivity|].
  destruct (N.eqb_spec c dquote) as [-> | Hq]; [reflexivity|].
  destruct (N.eqb_spec c backslash) as [-> | Hb]; [reflexivity|].
  destruct (N.ltb_spec c 32) as [Hlow | Hhigh].
  - apply parse_unicode_escape. lia.
  - apply parse_plain_char; assumption.
Qed.

Lemma surrogate_plain (c : N) :
  (is_leading_surrogate c || is_trailing_surrogate c)%bool = true ->
  c <> dquote /\ c <> backslash /\ (32 <= c)%N /\ (c < 65536)%N.
Proof.
  unfold is_leading_surrogate, is_trailing_surrogate, dquote, backslash.
  rewrite orb_true_iff, !andb_true_iff, !N.leb_le. lia.
Qed.

Lemma parse_escape_bounded (n : nat) :
  forall (s rest : text),
    length s <= n -> parse_chars (escape s ++ dquote :: rest) = Some (s, rest).
Proof.
  induction n as [|n IH]; intros s rest Hlen.
  - destruct s; [reflexivity | cbn in Hlen; lia].
  - destruct s as [|c s]; [reflexivity|]. cbn [length] in Hlen.
    cbn [escape].
    destruct (is_leading_surrogate c) eqn:Hlead.
    + destruct (surrogate_plain c) as [Hq [Hb [Hc Hu]]]; [rewrite Hlead; reflexivity|].
      destruct s as [|d s].
      * rewrite parse_unicode_escape by exact Hu. reflexivity.
      * destruct (is_trailing_surrogate d) eqn:Htrail.
        -- destruct (surrogate_plain d) as [Hq' [Hb' [Hc' _]]];
             [rewrite Htrail; apply orb_true_r|].
           cbn [app]. rewrite parse_plain_char by assumption.
           rewrite parse_plain_char by assumption.
           rewrite IH by (cbn [length] in Hlen; lia). reflexivity.
        -- rewrite <- app_assoc, parse_unicode_escape by exact Hu.
           rewrite IH by lia. reflexivity.
    + destruct (is_trailing_surrogate c) eqn:Htrail.
      * destruct (surrogate_plain c) as [_ [_ [_ Hu]]];
          [rewrite Htrail; apply orb_true_r|].
        rewrite <- app_assoc, parse_unicode_escape by exact Hu.
        rewrite IH by lia. reflexivity.
      * rewrite <- app_assoc, parse_escape_char, IH by lia. reflexivity.
Qed.

Lemma parse_escape (s rest : text) :
  parse_chars (escape s ++ dquote :: rest) = Some (s, rest).
Proof. apply (parse_escape_bounded (length s)). apply Nat.le_refl. Qed.

Lemma quote_append (s rest : text) :
  quote s ++ rest = dquote :: escape s ++ dquote :: rest.
Proof. unfold quote. cbn [app]. rewrite <- app_assoc. reflexivity. Qed.

(** ** Values *)

Section ValueInduction.
Variable P : value -> Prop.
Hypothesis P_undefined : P Undefined.
Hypothesis P_null : P Null.
Hypothesis P_bool : forall b, P (Bool b).
Hypothesis P_number : forall x, P (Number x).
Hypothesis P_str : forall s, P (Str s).
Hypothesis P_array : forall items, Forall P items -> P (Array items).
Hypothesis P_object : forall props, Forall (fun p => P (snd p)) props -> P (Object props).

Fixpoint value_induction (v : value) : P v :=
  match v with
  | Undefined => P_undefined
  | Null => P_null
  | Bool b => P_bool b
  | Number x => P_number x
  | Str s => P_str s
  | Array items =>
      P_array items
        ((fix all (l : list value) : Forall P l :=
            match l with
            | [] => Forall_nil P
            | x :: l' => Forall_cons x (value_induction x) (all l')
            end) items)
  | Object props =>
      P_object props
        ((fix all (l : list (text * value)) : Forall (fun p => P (snd p)) l :=
            match l with
            | [] => Forall_nil _
            | p :: l' => Forall_cons p (value_induction (snd p)) (all l')
            end) props)
  end.
End ValueInduction.

Lemma representable_array (items : list value) :
  representable (Array items) <-> Forall representable items.
Proof.
  cbn [representable]. induction items as [|x items IH].
  - split; [constructor | exact (fun _ => I)].
  - rewrite IH. split.
    + intros [Hx Hl]. constructor; assumption.
    + intros H. inversion H; subst. split; assumption.
Qed.

Lemma representable_object (props : list (text * value)) :
  representable (Object props) <->
  from_entries props = props /\ Forall (fun p => representable (snd p)) props.
Proof.
  cbn [representable].
  assert (Hall : forall l : list (text * value),
             (fix all (l : list (text * value)) : Prop :=
                match l with
                | [] => True
                | p :: l' => representable (snd p) /\ all l'
                end) l <-> Forall (fun p => representable (snd p)) l).
  { induction l as [|p l IH].
    - split; [constructor | exact (fun _ => I)].
    - rewrite IH. split.
      + intros [Hx Hl]. constructor; assumption.
      + intros H. inversion H; subst. split; assumption. }
  rewrite Hall. reflexivity.
Qed.

(** The text of a value. *)
Definition text_of (v : value) : text := element_text (stringify v).

Definition member_string (p : text * value) : text :=
  quote (fst p) ++ txt ":" ++ text_of (snd p).

Lemma stringify_representable (v : value) :
  representable v -> stringify v = Some (text_of v).
Proof.
  intros Hrep. unfold text_of.
  destruct v as [ | | [] | x | | | ]; try reflexivity; cbn in Hrep; contradiction.
Qed.

Lemma member_texts (props : list (text * value)) :
  Forall (fun p => representable (snd p)) props ->
  flat_map (fun p => member_text (fst p) (stringify (snd p))) props
  = map member_string props.
Proof.
  induction 1 as [|p props Hp _ IH]; [reflexivity|].
  cbn [flat_map map]. rewrite IH, (stringify_representable _ Hp). reflexivity.
Qed.

Fixpoint size (v : value) : nat :=
  match v with
  | Array items => S (list_sum (map (fun x => S (size x)) items))
  | Object props => S (list_sum (map (fun p => S (size (snd p))) props))
  | _ => 1
  end.

Lemma numeral_head_cases (c : N) :
  numeral_head c = true -> (c = 45 \/ 48 <= c <= 57)%N.
Proof.
  unfold numeral_head, starts_with_digit, digit_value.
  destruct (N.eqb_spec c (code "-")) as [-> | _]; [left; reflexivity|].
  cbn [orb]. destruct ((48 <=? c) && (c <=? 57))%N eqn:Hd; [|discriminate].
  apply andb_true_iff in Hd. rewrite !N.leb_le in Hd. right. exact Hd.
Qed.

(** A numeral is neither blank nor the start of another kind of value. *)
Lemma numeral_head_plain (c : N) :
  numeral_head c = true ->
  is_ws c = false /\ (code "]" =? c)%N = false
  /\ (c =? code "n")%N = false /\ (c =? code "t")%N = false
  /\ (c =? code "f")%N = false /\ (c =? dquote)%N = false
  /\ (c =? code "[")%N = false /\ (c =? code "{")%N = false.
Proof.
  intros H. apply numeral_head_cases in H. unfold is_ws, dquote.
  change (code "]") with 93%N. change (code "n") with 110%N.
  change (code "t") with 116%N. change (code "f") with 102%N.
  change (code "[") with 91%N. change (code "{") with 123%N.
  repeat split; rewrite ?orb_false_iff; repeat split; apply N.eqb_neq; lia.
Qed.

(** The first character of the text of a value is not blank and closes
    no array. *)
Lemma text_head (v : value) :
  representable v ->
  exists c tail, text_of v = c :: tail /\ is_ws c = false /\ (code "]" =? c)%N = false.
Proof.
  intros Hrep. unfold text_of.
  destruct v as [ | | [] | x | s | items | props ];
    try (cbn in Hrep; contradiction); cbn [stringify element_text];
    try (eexists; eexists; split; [reflexivity | split; reflexivity]).
  cbn [representable] in Hrep. rewrite Hrep.
  destruct (number_to_string_head x Hrep) as [c [tail [Htext Hhead]]].
  destruct (numeral_head_plain c Hhead) as [Hws [Hclose _]].
  exists c, tail. auto.
Qed.

Lemma parse_value_numeral (fuel : nat) (x : float) (rest : text) :
  is_finite x = true ->
  delimited rest = true ->
  parse_value (S fuel) (number_to_string x ++ rest)
  = Some (Number (unsigned_zero x), rest).
Proof.
  intros Hfin Hrest. rewrite <- (parse_number_text x rest Hfin Hrest).
  destruct (number_to_string_head x Hfin) as [c [tail [Htext Hhead]]].
  rewrite Htext. cbn [app parse_value skip_ws].
  destruct (numeral_head_plain c Hhead) as [Hws [_ [Hn [Ht [Hf [Hq [Ha Ho]]]]]]].
  rewrite Hws, Hn, Ht, Hf, Hq, Ha, Ho. reflexivity.
Qed.

Lemma parse_value_quote (fuel : nat) (tail : text) :
  parse_value (S fuel) (dquote :: tail)
  = match parse_chars tail with
    | Some (body, r) => Some (Str body, r)
    | None => None
    end.
Proof. reflexivity. Qed.

Lemma parse_value_bracket (fuel : nat) (tail : text) :
  parse_value (S fuel) (code "[" :: tail)
  = match strip_prefix "]" (skip_ws tail) with
    | Some r => Some (Array [], r)
    | None =>
        match parse_elements fuel tail with
        | Some (items, r) => Some (Array items, r)
        | None => None
        end
    end.
Proof. reflexivity. Qed.

Lemma parse_value_brace (fuel : nat) (tail : text) :
  parse_value (S fuel) (code "{" :: tail)
  = match strip_prefix "}" (skip_ws tail) with
    | Some r => Some (Object [], r)
    | None =>
        match parse_members fuel tail with
        | Some (entries, r) => Some (Object (from_entries entries), r)
        | None => None
        end
    end.
Proof. reflexivity. Qed.

(** The property proved of every value: its text, followed by anything
    that ends a numeral, is read back as the value and nothing more. *)
Definition reads_back (v : value) : Prop :=
  representable v ->
  forall fuel rest,
    size v <= fuel -> delimited rest = true ->
    parse_value fuel (text_of v ++ rest) = Some (unsigned_zeros v, rest).

Definition unsigned_member (p : text * value) : text * value :=
  (fst p, unsigned_zeros (snd p)).

Lemma parse_elements_texts (items : list value) :
  items <> [] ->
  Forall reads_back items -> Forall representable items ->
  forall fuel rest,
    list_sum (map (fun x => S (size x)) items) <= fuel ->
    parse_elements fuel (join "," (map text_of items) ++ code "]" :: rest)
    = Some (map unsigned_zeros items, rest).
Proof.
  induction items as [|x items IH]; [congruence|].
  intros _ Hback Hrep fuel rest Hfuel.
  inversion Hback as [|? ? Hx Hrest]; subst.
  inversion Hrep as [|? ? Rx Rrest]; subst.
  rewrite map_cons, list_sum_cons in Hfuel.
  destruct fuel as [|fuel]; [lia|].
  cbn [parse_elements].
  destruct items as [|y items].
  - cbn [map join].
    rewrite (Hx Rx fuel (code "]" :: rest)) by (reflexivity || lia).
    reflexivity.
  - change (join "," (map text_of (x :: y :: items)))
      with (text_of x ++ txt "," ++ join "," (map text_of (y :: items))).
    rewrite <- !app_assoc. change (txt "," ++ ?l) with (code "," :: l).
    rewrite (Hx Rx fuel) by (reflexivity || lia).
    cbn [skip_ws]. change (is_ws (code ",")) with false. cbv iota.
    change (code "," =? code ",")%N with true. cbv iota.
    rewrite IH; [reflexivity | discriminate | assumption | assumption | lia].
Qed.

Lemma parse_members_texts (props : list (text * value)) :
  props <> [] ->
  Forall (fun p => reads_back (snd p)) props ->
  Forall (fun p => representable (snd p)) props ->
  forall fuel rest,
    list_sum (map (fun p => S (size (snd p))) props) <= fuel ->
    parse_members fuel (join "," (map member_string props) ++ code "}" :: rest)
    = Some (map unsigned_member props, rest).
Proof.
  induction props as [|[k x] props IH]; [congruence|].
  intros _ Hback Hrep fuel rest Hfuel.
  inversion Hback as [|? ? Hx Hrest]; subst.
  inversion Hrep as [|? ? Rx Rrest]; subst.
  cbn [snd] in Hx, Rx. rewrite map_cons, list_sum_cons in Hfuel. cbn [snd] in Hfuel.
  destruct fuel as [|fuel]; [lia|].
  cbn [parse_members].
  assert (Hmember : forall tail,
             member_string (k, x) ++ tail
             = dquote :: escape k ++ dquote :: code ":" :: text_of x ++ tail).
  { intros tail. unfold member_string. cbn [fst snd].
    rewrite <- app_assoc, quote_append. rewrite <- app_assoc. reflexivity. }
  destruct props as [|q props].
  - cbn [map join]. rewrite Hmember.
    cbn [skip_ws]. change (is_ws dquote) with false. cbv iota.
    cbn [strip_prefix]. change (dquote =? dquote)%N with true. cbv iota.
    rewrite parse_escape.
    cbn [skip_ws]. change (is_ws (code ":")) with false. cbv iota.
    change (strip_prefix ":" (code ":" :: ?l)) with (Some l). cbv beta iota.
    rewrite (Hx Rx fuel (code "}" :: rest)) by (reflexivity || lia).
    reflexivity.
  - change (join "," (map member_string ((k, x) :: q :: props)))
      with (member_string (k, x) ++ txt "," ++ join "," (map member_string (q :: props))).
    rewrite <- app_assoc, Hmember.
    cbn [skip_ws]. change (is_ws dquote) with false. cbv iota.
    cbn [strip_prefix]. change (dquote =? dquote)%N with true. cbv iota.
    rewrite parse_escape.
    cbn [skip_ws]. change (is_ws (code ":")) with false. cbv iota.
    change (strip_prefix ":" (code ":" :: ?l)) with (Some l). cbv beta iota.
    rewrite <- app_assoc. change (txt "," ++ ?l) with (code "," :: l).
    rewrite (Hx Rx fuel) by (reflexivity || lia).
    cbn [skip_ws]. change (is_ws (code ",")) with false. cbv iota.
    change (code "," =? code ",")%N with true. cbv iota.
    rewrite IH; [reflexivity | discriminate | assumption | assumption | lia].
Qed.

Lemma text_array (items : list value) (rest : text) :
  text_of (Array items) ++ rest
  = code "[" :: join "," (map text_of items) ++ code "]" :: rest.
Proof.
  unfold text_of at 1. cbn [stringify element_text].
  rewrite <- !app_assoc. reflexivity.
Qed.

Lemma text_object (props : list (text * value)) (rest : text) :
  Forall (fun p => representable (snd p)) props ->
  text_of (Object props) ++ rest
  = code "{" :: join "," (map member_string props) ++ code "}" :: rest.
Proof.
  intros Hrep. unfold text_of at 1. cbn [stringify element_text].
  rewrite (member_texts props Hrep), <- !app_assoc. reflexivity.
Qed.

(** ** The order of the properties does not depend on their values *)

Lemma get_own_unsigned (o : Props.object value) (k : text) :
  Props.get_own (map unsigned_member o) k
  = option_map unsigned_zeros (Props.get_own o k).
Proof.
  induction o as [|[k' v] o IH]; [reflexivity|].
  cbn [map unsigned_member fst snd Props.get_own].
  destruct (Text.eqb k' k); [reflexivity | exact IH].
Qed.

Lemma define_unsigned (o : Props.object value) (k : text) (v : value) :
  Props.define (map unsigned_member o) k (unsigned_zeros v)
  = map unsigned_member (Props.define o k v).
Proof.
  unfold Props.define, Props.has_own. rewrite get_own_unsigned.
  destruct (Props.get_own o k) as [old|]; cbn [option_map].
  - induction o as [|[k' v'] o IH]; [reflexivity|].
    cbn [map unsigned_member fst snd Props.replace_own].
    destruct (Text.eqb k' k); [reflexivity|].
    cbn [map unsigned_member fst snd]. rewrite IH. reflexivity.
  - induction o as [|[k' v'] o IH]; [reflexivity|].
    cbn [map unsigned_member fst snd Props.create_own].
    destruct (Props.precedes k k'); [reflexivity|].
    cbn [map unsigned_member fst snd]. rewrite IH. reflexivity.
Qed.

Lemma from_entries_unsigned (props : list (text * value)) :
  from_entries (map unsigned_member props) = map unsigned_member (from_entries props).
Proof.
  unfold from_entries.
  change (@nil (text * value)) with (map unsigned_member []) at 1.
  generalize (@nil (text * value)).
  induction props as [|[k v] props IH]; intros acc; [reflexivity|].
  cbn [map fold_left unsigned_member fst snd].
  rewrite define_unsigned. apply IH.
Qed.

Lemma values_read_back (v : value) : reads_back v.
Proof.
  induction v as [ | | b | x | s | items IH | props IH ] using value_induction;
    intros Hrep fuel rest Hfuel Hrest.
  - destruct Hrep.
  - destruct fuel as [|fuel]; [cbn in Hfuel; lia | reflexivity].
  - destruct fuel as [|fuel]; [cbn in Hfuel; lia | destruct b; reflexivity].
  - destruct fuel as [|fuel]; [cbn in Hfuel; lia|].
    cbn [representable] in Hrep. unfold text_of. cbn [stringify element_text].
    rewrite Hrep. apply parse_value_numeral; assumption.
  - destruct fuel as [|fuel]; [cbn in Hfuel; lia|].
    unfold text_of. cbn [stringify element_text].
    rewrite quote_append, parse_value_quote, parse_escape. reflexivity.
  - apply representable_array in Hrep.
    cbn [size] in Hfuel. destruct fuel as [|fuel]; [lia|].
    rewrite text_array, parse_value_bracket.
    destruct items as [|x items]; [reflexivity|].
    assert (Hx : representable x) by (inversion Hrep; assumption).
    destruct (text_head x Hx) as [c [tail [Htext [Hws Hclose]]]].
    assert (Hskip : skip_ws (join "," (map text_of (x :: items)) ++ code "]" :: rest)
                    = join "," (map text_of (x :: items)) ++ code "]" :: rest
                    /\ strip_prefix "]"
                         (join "," (map text_of (x :: items)) ++ code "]" :: rest) = None).
    { destruct items as [|y items]; cbn [map join]; rewrite Htext; cbn [app];
        cbn [skip_ws]; rewrite Hws; split; try reflexivity;
        cbn [txt list_ascii_of_string map strip_prefix]; rewrite Hclose; reflexivity. }
    destruct Hskip as [-> ->].
    rewrite parse_elements_texts;
      [reflexivity | discriminate | assumption | assumption | lia].
  - apply representable_object in Hrep. destruct Hrep as [Horder Hrep].
    cbn [size] in Hfuel. destruct fuel as [|fuel]; [lia|].
    rewrite text_object by exact Hrep. rewrite parse_value_brace.
    destruct props as [|[k x] props]; [reflexivity|].
    assert (Hskip : exists tail,
               join "," (map member_string ((k, x) :: props)) ++ code "}" :: rest
               = dquote :: tail).
    { destruct props as [|q props]; cbn [map join]; unfold member_string at 1;
        cbn [fst]; unfold quote; cbn [app]; eexists; reflexivity. }
    destruct Hskip as [tail Htail].
    assert (Hopen : strip_prefix "}"
                      (skip_ws (join "," (map member_string ((k, x) :: props))
                                ++ code "}" :: rest)) = None)
      by (rewrite Htail; reflexivity).
    rewrite Hopen.
    rewrite parse_members_texts;
      [ | discriminate | assumption | assumption | lia].
    rewrite from_entries_unsigned, Horder. reflexivity.
Qed.

Lemma text_nonempty (v : value) : representable v -> 1 <= length (text_of v).
Proof.
  intros Hrep. destruct (text_head v Hrep) as [c [tail [-> _]]]. simpl. lia.
Qed.

Lemma join_length_bound (measure : list nat) (texts : list text) :
  Forall2 (fun m t => m <= length t) measure texts ->
  list_sum (map S measure) <= S (length (join "," texts)).
Proof.
  induction 1 as [|m t measure texts Hm Hrest IH]; [simpl; lia|].
  rewrite map_cons, list_sum_cons.
  destruct texts as [|t' texts].
  - inversion Hrest; subst. simpl. lia.
  - change (join "," (t :: t' :: texts)) with (t ++ txt "," ++ join "," (t' :: texts)).
    rewrite !length_app. change (length (txt ",")) with 1. lia.
Qed.

(** The text of a value is at least as long as the value is large. *)
Lemma size_text (v : value) : representable v -> size v <= length (text_of v).
Proof.
  induction v as [ | | b | x | s | items IH | props IH ] using value_induction;
    intros Hrep; try (apply (text_nonempty _ Hrep)).
  - apply representable_array in Hrep.
    pose proof (f_equal (@length N) (text_array items [])) as Hlen.
    rewrite app_nil_r in Hlen. cbn [length] in Hlen.
    rewrite length_app in Hlen. cbn [length] in Hlen.
    cbn [size].
    assert (Hbound : list_sum (map (fun x => S (size x)) items)
                     <= S (length (join "," (map text_of items)))).
    { rewrite <- (map_map size S). apply join_length_bound.
      clear Hlen. induction items as [|x items IHitems]; [constructor|].
      inversion IH; subst. inversion Hrep; subst.
      constructor; auto. }
    lia.
  - apply representable_object in Hrep. destruct Hrep as [_ Hrep].
    pose proof (f_equal (@length N) (text_object props [] Hrep)) as Hlen.
    rewrite app_nil_r in Hlen. cbn [length] in Hlen.
    rewrite length_app in Hlen. cbn [length] in Hlen.
    cbn [size].
    assert (Hbound : list_sum (map (fun p => S (size (snd p))) props)
                     <= S (length (join "," (map member_string props)))).
    { rewrite <- (map_map (fun p => size (snd p)) S). apply join_length_bound.
      clear Hlen. induction props as [|p props IHprops]; [constructor|].
      inversion IH; subst. inversion Hrep; subst.
      constructor; auto.
      unfold member_string. rewrite !length_app.
      match goal with H : representable (snd p) -> _ |- _ => specialize (H ltac:(assumption)) end.
      lia. }
    lia.
Qed.

(** Format followed by parse is the identity on the values that JSON
    text represents, but for the sign of a zero. *)
Lemma parse_stringify (v : value) (t : text) :
  representable v -> stringify v = Some t -> parse t = Some (unsigned_zeros v).
Proof.
  intros Hrep Ht. rewrite (stringify_representable v Hrep) in Ht.
  injection Ht as <-. unfold parse.
  pose proof (values_read_back v Hrep (S (length (text_of v))) []) as Hread.
  rewrite app_nil_r in Hread. rewrite Hread; [reflexivity | | reflexivity].
  pose proof (size_text v Hrep). lia.
Qed.

End JsonText.

(* ================================================================== *)
(** * Properties of utils.js: resource and access checks *)
(* ================================================================== *)

Module UtilsChecks.
Import Netscript Host Utils UtilsSpec.

(** The order of binary64 values is antisymmetric. *)
Lemma SFcompare_swap (a b : spec_float) :
  SFcompare b a = option_map CompOpp (SFcompare a b).
Proof.
  destruct a as [sa| sa | | sa ma ea], b as [sb | sb | | sb mb eb];
    try destruct sa; try destruct sb; simpl; try reflexivity.
  - rewrite (Z.compare_antisym ea eb).
    destruct (ea ?= eb)%Z; simpl; try reflexivity.
    change (Pos.compare_cont Eq mb ma) with (Pos.compare mb ma).
    change (Pos.compare_cont Eq ma mb) with (Pos.compare ma mb).
    rewrite (Pos.compare_antisym ma mb). reflexivity.
  - rewrite (Z.compare_antisym ea eb).
    destruct (ea ?= eb)%Z; simpl; try reflexivity.
    change (Pos.compare_cont Eq mb ma) with (Pos.compare mb ma).
    change (Pos.compare_cont Eq ma mb) with (Pos.compare ma mb).
    rewrite (Pos.compare_antisym ma mb). reflexivity.
Qed.

Lemma SFcompare_diag (a : spec_float) :
  SFcompare a a = Some Eq \/ SFcompare a a = None.
Proof.
  pose proof (SFcompare_swap a a) as Hs.
  destruct (SFcompare a a) as [[ | | ]|]; simpl in Hs;
    try discriminate; auto.
Qed.

Lemma length_filter_count (present : string -> bool) (files : list string) :
  length (filter present files) = count_files present files.
Proof.
  induction files as [|f files IH]; simpl; [reflexivity|].
  destruct (present f); simpl; congruence.
Qed.

(** C5. [canPenetrate] answers true exactly when the number of keys of
    [cracks] that exist as files on "home" is at least the number of
    ports the server requires. *)
Theorem canPenetrate_iff (ns : NS) (server : string) (cracks : JS.object string) :
  canPenetrate ns server cracks = true <->
  (Z.of_nat (count_files (fun file => fileExists ns file "home") (JS.keys cracks))
   >= getServerNumPortsRequired ns server)%Z.
Proof.
  unfold canPenetrate, getNumCracks, homeServer.
  rewrite length_filter_count, Z.leb_le. lia.
Qed.

(** C7. [hasRam] answers true exactly when the considered amount of RAM
    (the maximum when [useMax], else the maximum minus the used RAM, as
    binary64 arithmetic computes it) compares strictly greater than
    [scriptRam]; when the two are equal, as numbers or as values, the
    answer is false. *)
Theorem hasRam_strict (ns : NS) (server : string) (scriptRam : float) (useMax : bool) :
  let considered :=
    (if useMax then getServerMaxRam ns server
     else getServerMaxRam ns server - getServerUsedRam ns server)%float in
  (hasRam ns server scriptRam useMax = true <->
   SFcompare (Prim2SF considered) (Prim2SF scriptRam) = Some Gt)
  /\ (SFcompare (Prim2SF considered) (Prim2SF scriptRam) = Some Eq ->
      hasRam ns server scriptRam useMax = false)
  /\ (considered = scriptRam -> hasRam ns server scriptRam useMax = false).
Proof.
  intros considered. unfold hasRam. fold considered.
  rewrite ltb_spec. unfold SFltb.
  rewrite (SFcompare_swap (Prim2SF considered) (Prim2SF scriptRam)).
  repeat split.
  - destruct (SFcompare (Prim2SF considered) (Prim2SF scriptRam)) as [[ | | ]|];
      simpl; congruence.
  - destruct (SFcompare (Prim2SF considered) (Prim2SF scriptRam)) as [[ | | ]|];
      simpl; congruence.
  - intros Hc. rewrite Hc. reflexivity.
  - intros Heq. rewrite Heq.
    destruct (SFcompare_diag (Prim2SF scriptRam)) as [Hd | Hd];
      rewrite Hd; reflexivity.
Qed.

End UtilsChecks.

(* ================================================================== *)
(** * Properties of utils.js: gaining root access *)
(* ================================================================== *)

Module UtilsAccess.
Import Netscript Host Utils UtilsSpec HostFacts.
Local Open Scope script_scope.

Lemma crack_loop_run (ns : NS) (server : string) (cracks : JS.object string)
    (files : list string) :
  (forall file, In file files -> In file (JS.keys cracks)) ->
  forall w,
    for_each files
      (fun file =>
         if fileExists ns file homeServer then
           runScript <- of_option TypeError (JS.get_own cracks file) ;;
           call runScript server
         else ret tt) w
    = (Returned tt, logged w (crack_calls ns server cracks files)).
Proof.
  induction files as [|file files IH]; intros Hkeys w.
  - simpl. unfold ret. rewrite logged_nil. reflexivity.
  - assert (Hfile : exists fn, JS.get_own cracks file = Some fn).
    { destruct (JS.get_own cracks file) as [fn|] eqn:Hown; [eauto|].
      apply JSFacts.get_own_none_keys in Hown. exfalso. apply Hown, Hkeys.
      left; reflexivity. }
    destruct Hfile as [fn Hfn].
    cbn [for_each crack_calls flat_map]. unfold bind at 1. unfold homeServer in *.
    fold (crack_calls ns server cracks files).
    destruct (fileExists ns file "home").
    + rewrite Hfn. cbn [of_option]. unfold bind at 1, ret at 1.
      unfold call, emit. fold (logged w [Call fn server]).
      rewrite IH by (intros f Hf; apply Hkeys; right; exact Hf).
      rewrite logged_logged. reflexivity.
    + unfold ret at 1.
      rewrite IH by (intros f Hf; apply Hkeys; right; exact Hf).
      reflexivity.
Qed.

Lemma penetrate_run (ns : NS) (server : string) (cracks : JS.object string) (w : world) :
  penetrate ns server cracks w
  = (Returned tt,
     logged w (Print ("Penetrating " ++ server)
                 :: crack_calls ns server cracks (JS.keys cracks))).
Proof.
  unfold penetrate. unfold bind at 1. unfold print, emit.
  fold (logged w [Print ("Penetrating " ++ server)]).
  rewrite crack_loop_run by auto.
  rewrite logged_logged. reflexivity.
Qed.

(** C6. [getRootAccess] returns after these host calls, in this order:
    when the server requires more than zero ports, the announcement and
    then [cracks[file](server)] for exactly the keys of [cracks] that
    exist as files on "home", in key order, and otherwise none of them;
    then, in both cases, the second announcement and [ns.nuke(server)]. *)
Theorem getRootAccess_calls (ns : NS) (server : string) (cracks : JS.object string)
    (w : world) :
  getRootAccess ns server cracks w
  = (Returned tt,
     logged w
       ((if (getServerNumPortsRequired ns server >? 0)%Z
         then Print ("Penetrating " ++ server)
                :: crack_calls ns server cracks (JS.keys cracks)
         else [])
        ++ [Print ("Gaining root access on " ++ server); Nuke server])%list).
Proof.
  unfold getRootAccess.
  rewrite Z.gtb_ltb.
  unfold bind at 1.
  destruct (0 <? getServerNumPortsRequired ns server)%Z.
  - rewrite penetrate_run. unfold bind, print, nuke, emit, logged; simpl.
    rewrite <- !app_assoc. reflexivity.
  - unfold ret, bind, print, nuke, emit, logged; simpl.
    rewrite <- !app_assoc. reflexivity.
Qed.

End UtilsAccess.

(* ================================================================== *)
(** * Properties of utils.js: the network scan *)
(* ================================================================== *)

Module NetworkScan.
Import Netscript Utils UtilsSpec JS JSFacts Samples.

(** The test [!visited[h]]. *)
Definition unvisited (visited : object string) (h : string) : bool :=
  negb (truthy (get visited h)).

(** Every own property of [visited] holds its own key. *)
Definition self_valued (visited : object string) : Prop :=
  forall k v, get_own visited k = Some v -> v = k.

Lemma self_valued_define (visited : object string) (k : string) :
  self_valued visited -> self_valued (define visited k k).
Proof.
  intros Hsv q v. rewrite get_own_define.
  destruct (String.eqb_spec k q) as [Heq | Hne].
  - intros H; injection H as <-. exact Heq.
  - apply Hsv.
Qed.

Lemma in_push_unvisited (visited : object string) (neighbours : list string) :
  forall stack x,
    In x (push_unvisited visited neighbours stack) <->
    In x stack \/ (In x neighbours /\ unvisited visited x = true).
Proof.
  unfold push_unvisited.
  induction neighbours as [|c neighbours IH]; intros stack x; simpl.
  - tauto.
  - rewrite IH. fold (unvisited visited c).
    destruct (unvisited visited c) eqn:Hc; simpl.
    + split.
      * intros [[<- | H] | [H1 H2]]; auto.
      * intros [H | [[<- | H1] H2]]; auto.
    + split.
      * intros [H | [H1 H2]]; auto.
      * intros [H | [[<- | H1] H2]]; auto. congruence.
Qed.

(** An unvisited node has no inherited name, and either owns nothing
    or is the empty string. *)
Lemma unvisited_cases (visited : object string) (h : string) :
  self_valued visited ->
  unvisited visited h = true ->
  inherited h = false /\ (get_own visited h = None \/ h = "").
Proof.
  intros Hsv. unfold unvisited, get.
  destruct (get_own visited h) as [s|] eqn:Hown.
  - apply Hsv in Hown. subst s.
    destruct h; simpl; [|discriminate]. intros _. split; [reflexivity | auto].
  - destruct (inherited h); simpl; [discriminate|]. auto.
Qed.

Lemma assign_unvisited (visited : object string) (h : string) :
  self_valued visited ->
  unvisited visited h = true ->
  assign visited h h = define visited h h.
Proof.
  intros Hsv Hun. destruct (unvisited_cases _ _ Hsv Hun) as [Hinh _].
  unfold assign. destruct (String.eqb_spec h "__proto__") as [-> | Hne].
  - discriminate.
  - reflexivity.
Qed.

(** ** Termination *)

(** The weight of a stack entry: the empty hostname is visited again
    each time it is popped, and then pushes at most its neighbours. *)
Definition weight (ns : NS) (h : string) : nat :=
  if String.eqb h "" then S (S (length (scan ns ""))) else 1.

Definition stack_weight (ns : NS) (stack : list string) : nat :=
  list_sum (map (weight ns) stack).

(** The members of the universe that [visited] does not own yet. *)
Definition pending (visited : object string) (universe : list string) : nat :=
  length (filter (fun h => negb (has_own visited h)) universe).

Lemma weight_positive (ns : NS) (h : string) : 1 <= weight ns h.
Proof. unfold weight. destruct (String.eqb h ""); lia. Qed.

Lemma push_weight (ns : NS) (visited : object string) (neighbours : list string) :
  ~ In "" neighbours ->
  forall stack,
    stack_weight ns (push_unvisited visited neighbours stack)
    <= stack_weight ns stack + length neighbours.
Proof.
  unfold push_unvisited, stack_weight.
  induction neighbours as [|c neighbours IH]; intros Hno stack; simpl.
  - lia.
  - assert (Hc : c <> "") by (intros ->; apply Hno; left; reflexivity).
    assert (Hrest : ~ In "" neighbours) by (intros H; apply Hno; right; exact H).
    destruct (negb (truthy (get visited c))).
    + specialize (IH Hrest (c :: stack)). simpl in IH.
      unfold weight at 2 in IH. apply String.eqb_neq in Hc. rewrite Hc in IH. lia.
    + specialize (IH Hrest stack). lia.
Qed.

Lemma has_own_define (visited : object string) (k v q : string) :
  has_own (define visited k v) q = (String.eqb k q || has_own visited q)%bool.
Proof.
  unfold has_own. rewrite get_own_define.
  destruct (String.eqb k q); reflexivity.
Qed.

Lemma pending_define_le (visited : object string) (k v : string) (universe : list string) :
  pending (define visited k v) universe <= pending visited universe.
Proof.
  unfold pending. induction universe as [|h universe IH]; simpl; [lia|].
  rewrite has_own_define.
  destruct (String.eqb k h), (has_own visited h); simpl; lia.
Qed.

Lemma pending_define_lt (visited : object string) (k v : string) (universe : list string) :
  In k universe -> has_own visited k = false ->
  pending (define visited k v) universe < pending visited universe.
Proof.
  unfold pending. intros Hin Hown.
  induction universe as [|h universe IH]; simpl; [destruct Hin|].
  rewrite has_own_define.
  pose proof (pending_define_le visited k v universe) as Hle. unfold pending in Hle.
  destruct (String.eqb_spec k h) as [Heq | Hne].
  - subst h. rewrite Hown. simpl. lia.
  - destruct Hin as [Heq | Hin]; [congruence|].
    specialize (IH Hin). destruct (has_own visited h); simpl; lia.
Qed.

Section Termination.
Variable ns : NS.
Variable universe : list string.
Hypothesis closed : forall h c, In h universe -> In c (scan ns h) -> In c universe.
Hypothesis no_empty_loop : ~ In "" (scan ns "").

Lemma scan_loop_terminates :
  forall pend wgt visited stack,
    pending visited universe <= pend ->
    stack_weight ns stack <= wgt ->
    self_valued visited ->
    (forall h, In h stack -> In h universe) ->
    exists fuel result, scan_loop ns fuel visited stack = Some result.
Proof.
  induction pend as [pend IHpend] using lt_wf_ind.
  induction wgt as [wgt IHwgt] using lt_wf_ind.
  intros visited stack Hpend Hwgt Hsv Hstack.
  destruct stack as [|node stack].
  { exists 1, visited. reflexivity. }
  assert (Hnode : In node universe) by (apply Hstack; left; reflexivity).
  assert (Hrest : forall h, In h stack -> In h universe)
    by (intros h Hh; apply Hstack; right; exact Hh).
  change (weight ns node + stack_weight ns stack <= wgt) in Hwgt.
  pose proof (weight_positive ns node) as Hpos.
  destruct (unvisited visited node) eqn:Hun.
  - (* the node is visited now *)
    pose proof (assign_unvisited _ _ Hsv Hun) as Hassign.
    destruct (unvisited_cases _ _ Hsv Hun) as [_ Hcases].
    set (visited' := define visited node node).
    assert (Hsv' : self_valued visited') by (apply self_valued_define; exact Hsv).
    assert (Hstack' : forall h,
               In h (push_unvisited visited' (scan ns node) stack) -> In h universe).
    { intros h Hh. apply in_push_unvisited in Hh.
      destruct Hh as [Hh | [Hh _]]; [apply Hrest; exact Hh|].
      eapply closed; eassumption. }
    assert (Hstep : forall fuel,
               scan_loop ns (S fuel) visited (node :: stack)
               = scan_loop ns fuel visited'
                   (push_unvisited visited' (scan ns node) stack)).
    { intros fuel. cbn [scan_loop]. fold (unvisited visited node).
      rewrite Hun, Hassign. reflexivity. }
    destruct (String.eqb_spec node "") as [Hempty | Hnonempty].
    + (* the empty hostname: the stack loses weight *)
      subst node.
      pose proof (push_weight ns visited' (scan ns "") no_empty_loop stack) as Hpush.
      change (weight ns "") with (S (S (length (scan ns "")))) in Hwgt.
      pose proof (pending_define_le visited "" "" universe) as Hle.
      fold visited' in Hle.
      assert (Hrun : exists fuel result,
                 scan_loop ns fuel visited'
                   (push_unvisited visited' (scan ns "") stack) = Some result).
      { apply (IHwgt (stack_weight ns (push_unvisited visited' (scan ns "") stack)));
          try assumption; lia. }
      destruct Hrun as [fuel [result Hrun]].
      exists (S fuel), result. rewrite Hstep. exact Hrun.
    + (* another hostname: one more member of the universe is owned *)
      destruct Hcases as [Hnone | Hempty]; [|contradiction].
      assert (Hown : has_own visited node = false)
        by (unfold has_own; rewrite Hnone; reflexivity).
      pose proof (pending_define_lt visited node node universe Hnode Hown) as Hlt.
      fold visited' in Hlt.
      assert (Hrun : exists fuel result,
                 scan_loop ns fuel visited'
                   (push_unvisited visited' (scan ns node) stack) = Some result).
      { apply (IHpend (pending visited' universe))
          with (wgt := stack_weight ns (push_unvisited visited' (scan ns node) stack));
          try assumption; lia. }
      destruct Hrun as [fuel [result Hrun]].
      exists (S fuel), result. rewrite Hstep. exact Hrun.
  - (* the node was visited before *)
    assert (Hrun : exists fuel result, scan_loop ns fuel visited stack = Some result).
    { apply (IHwgt (stack_weight ns stack)); try assumption; lia. }
    destruct Hrun as [fuel [result Hrun]].
    exists (S fuel), result. cbn [scan_loop]. fold (unvisited visited node).
    rewrite Hun. exact Hrun.
Qed.
End Termination.

(** ** What the scan collects *)

Section Collected.
Variable ns : NS.
Hypothesis plain_names : forall h, reachable ns h -> inherited h = false.

(** The loop invariant of the scan. *)
Record scanning (visited : object string) (stack : list string) : Prop := {
  scanning_values : self_valued visited;
  scanning_once : NoDup (keys visited);
  scanning_visited : forall h, In h (keys visited) -> reachable ns h;
  scanning_stack : forall h, In h stack -> reachable ns h;
  scanning_origin : In (getHostname ns) (keys visited) \/ In (getHostname ns) stack;
  scanning_neighbours :
    forall h c, In h (keys visited) -> In c (scan ns h) ->
                In c (keys visited) \/ In c stack
}.

Lemma visited_is_owned (visited : object string) (h : string) :
  reachable ns h -> unvisited visited h = false -> In h (keys visited).
Proof.
  intros Hreach. unfold unvisited, get. rewrite (plain_names h Hreach).
  destruct (get_own visited h) as [s|] eqn:Hown; [|discriminate].
  intros _. apply has_own_keys. unfold has_own. rewrite Hown. reflexivity.
Qed.

Lemma scanning_visit (visited : object string) (node : string) (stack : list string) :
  scanning visited (node :: stack) ->
  scanning (define visited node node)
           (push_unvisited (define visited node node) (scan ns node) stack).
Proof.
  intros [Hval Honce Hvis Hstack Horigin Hnb].
  assert (Hnode : reachable ns node) by (apply Hstack; left; reflexivity).
  constructor.
  - apply self_valued_define; exact Hval.
  - apply NoDup_keys_define; exact Honce.
  - intros h Hh. apply in_keys_define in Hh. destruct Hh as [-> | Hh]; auto.
  - intros h Hh. apply in_push_unvisited in Hh.
    destruct Hh as [Hh | [Hh _]].
    + apply Hstack; right; exact Hh.
    + eapply reach_step; eassumption.
  - destruct Horigin as [Ho | [Ho | Ho]].
    + left. apply in_keys_define. right; exact Ho.
    + left. apply in_keys_define. left; symmetry; exact Ho.
    + right. apply in_push_unvisited. left; exact Ho.
  - intros h c Hh Hc. apply in_keys_define in Hh.
    assert (Hpushed : forall x, In x stack ->
               In x (push_unvisited (define visited node node) (scan ns node) stack))
      by (intros x Hx; apply in_push_unvisited; left; exact Hx).
    destruct Hh as [-> | Hh].
    + destruct (unvisited (define visited node node) c) eqn:Hun.
      * right. apply in_push_unvisited. right. split; assumption.
      * left. apply visited_is_owned; [|exact Hun].
        eapply reach_step; eassumption.
    + destruct (Hnb h c Hh Hc) as [Hin | [Hin | Hin]].
      * left. apply in_keys_define. right; exact Hin.
      * left. apply in_keys_define. left; symmetry; exact Hin.
      * right. apply Hpushed. exact Hin.
Qed.

Lemma scanning_skip (visited : object string) (node : string) (stack : list string) :
  unvisited visited node = false ->
  scanning visited (node :: stack) -> scanning visited stack.
Proof.
  intros Hun [Hval Honce Hvis Hstack Horigin Hnb].
  assert (Hnode : In node (keys visited)).
  { apply visited_is_owned; [|exact Hun]. apply Hstack. left; reflexivity. }
  constructor; auto.
  - intros h Hh. apply Hstack. right; exact Hh.
  - destruct Horigin as [Ho | [Ho | Ho]]; auto. left. rewrite <- Ho. exact Hnode.
  - intros h c Hh Hc. destruct (Hnb h c Hh Hc) as [Hin | [Hin | Hin]]; auto.
    left. rewrite <- Hin. exact Hnode.
Qed.

Lemma scan_loop_scanning (fuel : nat) :
  forall visited stack result,
    scanning visited stack ->
    scan_loop ns fuel visited stack = Some result ->
    scanning result [].
Proof.
  induction fuel as [|fuel IH]; intros visited stack result Hinv; [discriminate|].
  cbn [scan_loop]. destruct stack as [|node stack].
  - intros H; injection H as <-. exact Hinv.
  - fold (unvisited visited node).
    destruct (unvisited visited node) eqn:Hun.
    + rewrite (assign_unvisited _ _ (scanning_values _ _ Hinv) Hun).
      apply IH. apply scanning_visit. exact Hinv.
    + apply IH. eapply scanning_skip; eassumption.
Qed.

Lemma scanning_start : scanning empty_object [getHostname ns].
Proof.
  constructor.
  - intros k v H; discriminate.
  - constructor.
  - intros h [].
  - intros h [<- | []]. apply reach_origin.
  - right; left; reflexivity.
  - intros h c [].
Qed.

Lemma scanning_done (result : object string) :
  scanning result [] ->
  NoDup (keys result) /\ forall h, In h (keys result) <-> reachable ns h.
Proof.
  intros [Hval Honce Hvis Hstack Horigin Hnb]. split; [exact Honce|].
  intros h; split; [apply Hvis|].
  induction 1 as [|h c Hh IH Hc].
  - destruct Horigin as [Ho | []]. exact Ho.
  - destruct (Hnb h c IH Hc) as [Hin | []]. exact Hin.
Qed.

(** Whenever the scan returns, on a network none of whose hostnames is
    the name of a property of [Object.prototype], it returns the
    reachable hostnames, each once. *)
Lemma getNetworkNodes_collects (fuel : nat) (nodes : list string) :
  getNetworkNodes ns fuel = Some nodes ->
  NoDup nodes /\ forall h, In h nodes <-> reachable ns h.
Proof.
  unfold getNetworkNodes.
  destruct (scan_loop ns fuel empty_object [getHostname ns]) as [result|] eqn:Hrun;
    [|discriminate].
  intros H; injection H as <-.
  apply scanning_done. eapply scan_loop_scanning; [apply scanning_start | exact Hrun].
Qed.
End Collected.

(** X1. On a finite network in which the empty string is not its own
    neighbour and no reachable hostname is the name of a property of
    [Object.prototype], the scan returns, and returns exactly the
    reachable hostnames, each once. *)
Lemma getNetworkNodes_exact (ns : NS) (universe : list string) :
  finite_network ns universe ->
  ~ In "" (scan ns "") ->
  (forall h, reachable ns h -> inherited h = false) ->
  exists fuel nodes,
    getNetworkNodes ns fuel = Some nodes
    /\ NoDup nodes
    /\ forall h, In h nodes <-> reachable ns h.
Proof.
  intros [Horigin Hclosed] Hloop Hplain.
  destruct (scan_loop_terminates ns universe Hclosed Hloop
              (pending empty_object universe)
              (stack_weight ns [getHostname ns])
              empty_object [getHostname ns]) as [fuel [result Hrun]].
  - apply Nat.le_refl.
  - apply Nat.le_refl.
  - intros k v H; discriminate.
  - intros h [<- | []]. exact Horigin.
  - assert (Hnodes : getNetworkNodes ns fuel = Some (keys result))
      by (unfold getNetworkNodes; rewrite Hrun; reflexivity).
    exists fuel, (keys result). split; [exact Hnodes|].
    apply (getNetworkNodes_collects ns Hplain fuel _ Hnodes).
Qed.

(** ** Particular networks *)

Lemma empty_loop_spins (fuel : nat) :
  scan_loop empty_loop_network fuel [("", "")] [""] = None.
Proof. induction fuel as [|fuel IH]; [reflexivity | exact IH]. Qed.

(** The condition on the empty string in the termination theorem below
    is needed of strings at large, though of no hostname of the game:
    were the empty string a hostname that lists itself as a neighbour,
    no number of iterations would empty the stack. *)
Lemma getNetworkNodes_empty_loop :
  finite_network empty_loop_network [""] /\ diverges empty_loop_network.
Proof.
  split.
  - split; [left; reflexivity|]. intros h c _ Hc. exact Hc.
  - intros [|fuel]; [reflexivity|].
    unfold getNetworkNodes. cbn [scan_loop].
    change (option_map keys (scan_loop empty_loop_network fuel [("", "")] [""]) = None).
    rewrite empty_loop_spins. reflexivity.
Qed.

(** A hostname can be on the stack twice: in the triangle, "b" is pushed
    by "a" and again by "c" before it is popped. *)
Lemma triangle_pushes_twice :
  let visited1 := assign empty_object "a" "a" in
  let visited2 := assign visited1 "c" "c" in
  push_unvisited visited1 (scan triangle_network "a") [] = ["c"; "b"]
  /\ push_unvisited visited2 (scan triangle_network "c") ["b"] = ["b"; "b"]
  /\ getNetworkNodes triangle_network 5 = Some ["a"; "c"; "b"].
Proof. repeat split. Qed.

(** C8.  On every finite network the loop of [getNetworkNodes] empties
    its stack after finitely many iterations and the function returns,
    though a hostname may be pushed more than once.  The hostnames of
    the game are not empty; all that is used of it is that the empty
    string is not listed as its own neighbour. *)
Theorem getNetworkNodes_terminates (ns : NS) (universe : list string) :
  finite_network ns universe -> ~ In "" (scan ns "") -> terminates ns.
Proof.
  intros [Horigin Hclosed] Hloop. unfold terminates, getNetworkNodes.
  destruct (scan_loop_terminates ns universe Hclosed Hloop
              (pending empty_object universe)
              (stack_weight ns [getHostname ns])
              empty_object [getHostname ns]) as [fuel [result Hrun]].
  - apply Nat.le_refl.
  - apply Nat.le_refl.
  - intros k v H; discriminate.
  - intros h [<- | []]. exact Horigin.
  - exists fuel, (keys result). rewrite Hrun. reflexivity.
Qed.

Lemma getNetworkNodes_terminates_witness : terminates small_network.
Proof.
  apply (getNetworkNodes_terminates small_network
           ["home"; "n00dles"; "zer0"; "foodnstuff"]).
  - split; [left; reflexivity|].
    intros h c Hh Hc. simpl in Hh.
    destruct Hh as [<- | [<- | [<- | [<- | []]]]]; simpl in Hc; simpl; tauto.
  - simpl. intros [H | []]. discriminate.
Defined.

(** C1: the network of [prototype_network] has the reachable server
    "toString", and the scan, whenever it returns, returns the other two
    servers only. *)
Theorem getNetworkNodes_misses_inherited_name :
  reachable prototype_network "toString"
  /\ getNetworkNodes prototype_network 3 = Some ["home"; "n00dles"]
  /\ forall fuel,
       getNetworkNodes prototype_network fuel = None
       \/ getNetworkNodes prototype_network fuel = Some ["home"; "n00dles"].
Proof.
  split; [|split].
  - apply (reach_step prototype_network "home" "toString").
    + apply (reach_origin prototype_network).
    + right; left; reflexivity.
  - reflexivity.
  - intros fuel. do 3 (destruct fuel as [|fuel]; [left; reflexivity|]).
    right. reflexivity.
Qed.

End NetworkScan.

(* ================================================================== *)
(** * Properties of port-utils.js: writing to ports *)
(* ================================================================== *)

Module PortWrites.
Import Text Netscript Host PortUtils HostFacts Samples.
Local Open Scope script_scope.

(** C4. When the output port is full, [pushToOutputPort] returns false
    and no port changes; otherwise it returns true, port 20 holds its
    former messages followed by the payload, and no other port changes. *)
Theorem pushToOutputPort_full_or_appended (ns : NS) (payload : text) (w : world) :
  let result := fst (pushToOutputPort ns payload w) in
  let w' := snd (pushToOutputPort ns payload w) in
  ((portCapacity ns <= length (ports w 20%Z))%nat ->
     result = Returned false /\ ports w' = ports w)
  /\ ((length (ports w 20%Z) < portCapacity ns)%nat ->
     result = Returned true
     /\ ports w' 20%Z = (ports w 20%Z ++ [payload])%list
     /\ forall p, p <> 20%Z -> ports w' p = ports w p).
Proof.
  cbv zeta. unfold pushToOutputPort, outputPort.
  rewrite (bind_returned _ _ _ _ _ (getPortHandle_run 20 w)).
  rewrite (bind_returned _ _ _ _ _ (full_run ns 20 _)).
  cbn [ports logged].
  split.
  - intros Hfull. apply Nat.leb_le in Hfull. rewrite Hfull. split; reflexivity.
  - intros Hroom.
    assert (Hnot : (portCapacity ns <=? length (ports w 20%Z))%nat = false)
      by (apply Nat.leb_gt; exact Hroom).
    rewrite Hnot.
    erewrite bind_returned by (apply write_run; exact Hroom).
    cbn [fst snd ret]. split; [reflexivity|]. split.
    + rewrite ports_with_port_same. reflexivity.
    + intros p Hp. rewrite ports_with_port_other by exact Hp. reflexivity.
Qed.

(** C9. For a port number below 1 or above 19, [pushToInputPort] makes
    one host call, the [tprint] of the error message; it asks for no
    port handle, writes nothing, and leaves every port as it was. *)
Theorem pushToInputPort_rejects (ns : NS) (eventType reqId : text)
    (data : Json.value) (port : Z) (w : world) :
  (port < 1 \/ 19 < port)%Z ->
  pushToInputPort ns eventType reqId data port w
  = (Returned tt,
     logged w [Tprint ("ERROR" ++ tab ++ " Input ports must be between 1 and 19!")]).
Proof.
  intros Hout. unfold pushToInputPort.
  assert (Hno : isInputPort port = false).
  { unfold isInputPort, minInputPort, maxInputPort.
    apply andb_false_iff. rewrite Z.leb_gt, Z.leb_gt. lia. }
  rewrite Hno. reflexivity.
Qed.

(** On an input port with room, [pushToInputPort] asks for the handle
    and writes the envelope at the end of the port. *)
Lemma pushToInputPort_writes_envelope (ns : NS) (eventType reqId : text)
    (data : Json.value) (port : Z) (w : world) :
  (1 <= port <= 19)%Z ->
  (length (ports w port) < portCapacity ns)%nat ->
  pushToInputPort ns eventType reqId data port w
  = (Returned tt,
     with_port
       (logged w [GetPortHandle port; PortWrite port (envelope eventType reqId data)])
       port (ports w port ++ [envelope eventType reqId data])%list).
Proof.
  intros Hport Hroom. unfold pushToInputPort.
  assert (Hin : isInputPort port = true).
  { unfold isInputPort, minInputPort, maxInputPort.
    apply andb_true_iff. rewrite !Z.leb_le. exact Hport. }
  rewrite Hin. cbn [negb].
  rewrite (bind_returned _ _ _ _ _ (getPortHandle_run port w)).
  erewrite bind_returned by (apply write_run; exact Hroom).
  rewrite logged_logged. reflexivity.
Qed.

Lemma pushToInputPort_rejects_witness :
  (20 < 1 \/ 19 < 20)%Z /\
  ports (snd (pushToInputPort sample_ns "hack" "r1" Json.Null 20 idle_world)) = ports idle_world.
Proof.
  split.
  - right. reflexivity.
  - rewrite (pushToInputPort_rejects sample_ns "hack" "r1" Json.Null 20 idle_world
               (or_intror eq_refl)).
    reflexivity.
Defined.

End PortWrites.

(* ================================================================== *)
(** * Properties of port-utils.js: reading the output port *)
(* ================================================================== *)

Module PortReads.
Import Text Netscript Host PortUtils PortUtilsSpec HostFacts Samples.
Local Open Scope script_scope.

Ltac close_run := rewrite ?logged_logged; reflexivity.

Lemma checkForEvent_run (ns : NS) (eventType : text) (reqId_arg : option text)
    (w : world) :
  checkForEvent ns eventType reqId_arg w =
  match ports w 20%Z with
  | [] => (Returned None, logged w [GetPortHandle 20; PortEmpty 20])
  | msg :: rest =>
      if matches eventType (requested reqId_arg) msg then
        (delivered msg,
         with_port
           (logged w [GetPortHandle 20; PortEmpty 20; PortPeek 20; PortRead 20])
           20 rest)
      else
        (declined msg, logged w [GetPortHandle 20; PortEmpty 20; PortPeek 20])
  end.
Proof.
  unfold checkForEvent, outputPort. fold (requested reqId_arg).
  rewrite (bind_returned _ _ _ _ _ (getPortHandle_run 20 w)).
  rewrite (bind_returned _ _ _ _ _ (empty_run 20 _)).
  cbn [ports logged log].
  destruct (ports w 20%Z) as [|msg rest] eqn:Hq.
  - close_run.
  - cbn [negb].
    match goal with |- bind (peek 20) ?k ?w0 = _ =>
      rewrite (bind_returned _ k w0 _ _ (peek_run 20 w0)) end.
    cbn [ports logged log]. rewrite Hq.
    unfold matches, delivered, declined, JSON_parse.
    cbn [Json.to_string of_option]. unfold bind at 2. cbn [ret].
    destruct (Json.parse msg) as [payload|] eqn:Hparse.
    2:{ close_run. }
    unfold bind at 1. cbn [of_option ret].
    destruct payload as [ | | b | n | s | items | props ];
      try (close_run).
    cbn [member field].
    unfold bind at 1. cbn [ret].
    destruct (strict_eq_string
                match Props.get_own props "eventType" with
                | Some v => v
                | None => Json.Undefined
                end eventType) eqn:Hev;
      [| close_run ].
    cbn [andb].
    destruct (Text.eqb (requested reqId_arg) "ANY") eqn:Hany; cbn [negb orb].
    + unfold bind at 1. cbn [ret].
      erewrite bind_returned
        by (apply read_run; cbn [ports logged]; exact Hq).
      unfold bind at 1. cbn [member ret].
      unfold bind at 1. unfold bind at 1.
      destruct (Json.to_string _) as [t|]; cbn [of_option ret throw]; [|close_run].
      destruct (Json.parse t) as [d|]; close_run.
    + unfold bind at 1. unfold bind at 1. cbn [ret].
      destruct (strict_eq_string
                  match Props.get_own props "reqId" with
                  | Some v => v
                  | None => Json.Undefined
                  end (requested reqId_arg)) eqn:Hid; cbn [negb].
      * erewrite bind_returned
          by (apply read_run; cbn [ports logged]; exact Hq).
        unfold bind at 1. cbn [member ret].
        unfold bind at 1. unfold bind at 1.
        destruct (Json.to_string _) as [t|]; cbn [of_option ret throw]; [|close_run].
        destruct (Json.parse t) as [d|]; close_run.
      * close_run.
Qed.

(** C3, as stated, fails: a head message that is not JSON text does not
    carry the wanted event type, yet [checkForEvent] does not return
    [undefined]; it throws.  The port keeps its contents. *)
Lemma checkForEvent_garbled_head :
  matches "hack" "ANY" "oops" = false
  /\ fst (checkForEvent sample_ns "hack" None (output_holds [txt "oops"; txt "next"]))
     = Thrown SyntaxError
  /\ ports (snd (checkForEvent sample_ns "hack" None (output_holds [txt "oops"; txt "next"]))) 20%Z
     = [txt "oops"; txt "next"].
Proof. vm_compute. repeat split. Qed.

(** C3, amended.  [checkForEvent] looks at the head message of the
    output port only.  It removes that message, and nothing else,
    exactly when the message is JSON text whose [eventType] is the
    wanted one and whose [reqId] is the wanted one or any is accepted.
    In every other case no port changes, and the result is [undefined]
    when the port is empty or the head is JSON text of a value other
    than [null]; on a head that is not JSON text, or is [null], the call
    throws. *)
Theorem checkForEvent_frame (ns : NS) (eventType : text) (reqId_arg : option text)
    (w : world) :
  let result := fst (checkForEvent ns eventType reqId_arg w) in
  let w' := snd (checkForEvent ns eventType reqId_arg w) in
  match ports w 20%Z with
  | [] => result = Returned None /\ ports w' = ports w
  | msg :: rest =>
      if matches eventType (requested reqId_arg) msg then
        ports w' 20%Z = rest /\ (forall p, p <> 20%Z -> ports w' p = ports w p)
      else
        ports w' = ports w /\
        match Json.parse msg with
        | None => result = Thrown SyntaxError
        | Some Json.Null => result = Thrown TypeError
        | Some _ => result = Returned None
        end
  end
  /\ (forall w2 : world,
        hd_error (ports w2 20%Z) = hd_error (ports w 20%Z) ->
        fst (checkForEvent ns eventType reqId_arg w2) = result).
Proof.
  cbv zeta. split.
  - rewrite checkForEvent_run.
    destruct (ports w 20%Z) as [|msg rest]; [split; reflexivity|].
    destruct (matches eventType (requested reqId_arg) msg) eqn:Hm.
    + cbn [fst snd]. split.
      * apply ports_with_port_same.
      * intros p Hp. rewrite ports_with_port_other by exact Hp. reflexivity.
    + cbn [fst snd]. split; [reflexivity|]. unfold declined.
      destruct (Json.parse msg) as [payload|] eqn:Hparse; [|reflexivity].
      destruct payload; try reflexivity.
      exfalso. exact (JsonText.parse_defined _ Hparse).
  - intros w2 Hhead. rewrite !checkForEvent_run.
    destruct (ports w 20%Z) as [|msg rest], (ports w2 20%Z) as [|msg2 rest2];
      cbn in Hhead; try discriminate; [reflexivity|].
    injection Hhead as ->.
    destruct (matches eventType (requested reqId_arg) msg); reflexivity.
Qed.

End PortReads.

(* ================================================================== *)
(** * Properties of port-utils.js: a request sent and received *)
(* ================================================================== *)

Module PortRoundTrip.
Import Text Netscript Host PortUtils PortUtilsSpec HostFacts Samples PortReads.

(** The envelope of a payload that has a text is JSON text of the object
    [{eventType, reqId, data}] whose [data] is that text. *)
Lemma envelope_parse (eventType reqId : text) (payload : Json.value) (t : text) :
  Json.stringify payload = Some t ->
  Json.parse (envelope eventType reqId payload)
  = Some (Json.Object
            [(txt "eventType", Json.Str eventType); (txt "reqId", Json.Str reqId);
             (txt "data", Json.Str t)]).
Proof.
  intros Ht. unfold envelope. rewrite Ht.
  apply (JsonText.parse_stringify
           (Json.Object
              [(txt "eventType", Json.Str eventType); (txt "reqId", Json.Str reqId);
               (txt "data", Json.Str t)])); [|reflexivity].
  cbn. repeat split.
Qed.

Lemma envelope_delivered (eventType reqId : text) (payload : Json.value) :
  Json.representable payload ->
  delivered (envelope eventType reqId payload)
  = Returned (Some {| data := Json.unsigned_zeros payload; reqId := Json.Str reqId |})
  /\ forall wanted,
       wanted = reqId \/ wanted = txt "ANY" ->
       matches eventType wanted (envelope eventType reqId payload) = true.
Proof.
  intros Hrep.
  pose proof (JsonText.stringify_representable payload Hrep) as Ht.
  pose proof (envelope_parse eventType reqId payload _ Ht) as Hparse.
  split.
  - unfold delivered. rewrite Hparse.
    change (field _ "data") with (Json.Str (JsonText.text_of payload)).
    change (field _ "reqId") with (Json.Str reqId).
    cbn [Json.to_string].
    rewrite (JsonText.parse_stringify payload _ Hrep Ht). reflexivity.
  - intros wanted Hwanted. unfold matches. rewrite Hparse.
    change (field _ "eventType") with (Json.Str eventType).
    change (field _ "reqId") with (Json.Str reqId).
    cbn [strict_eq_string].
    rewrite TextFacts.eqb_refl. cbn [andb].
    destruct Hwanted as [-> | ->].
    + rewrite TextFacts.eqb_refl. apply orb_true_r.
    + reflexivity.
Qed.

(** C2, as stated, fails: the payload NaN is written as [null] and comes
    back as [null]; the payload -0 is written as [0] and comes back as
    0; the payload [undefined] leaves the envelope without [data], and
    reading it throws. *)
Lemma checkForEvent_unrepresentable_payload :
  fst (checkForEvent sample_ns "hack" (Some (txt "r1"))
         (output_holds [envelope "hack" "r1" (Json.Number nan)]))
  = Returned (Some {| data := Json.Null; reqId := Json.Str "r1" |})
  /\ Json.Null <> Json.Number nan
  /\ fst (checkForEvent sample_ns "hack" (Some (txt "r1"))
            (output_holds [envelope "hack" "r1" (Json.Number (-0)%float)]))
     = Returned (Some {| data := Json.Number 0%float; reqId := Json.Str "r1" |})
  /\ Json.Number 0%float <> Json.Number (-0)%float
  /\ fst (checkForEvent sample_ns "hack" (Some (txt "r1"))
            (output_holds [envelope "hack" "r1" Json.Undefined]))
     = Thrown SyntaxError.
Proof.
  split; [vm_compute; reflexivity|]. split; [discriminate|].
  split; [vm_compute; reflexivity|]. split; [|vm_compute; reflexivity].
  intros H.
  pose proof (f_equal (fun v => match v with
                                | Json.Number x => Prim2SF x
                                | _ => S754_nan
                                end) H) as Hsf.
  vm_compute in Hsf. discriminate.
Qed.

(** C2, amended.  When the head of the output port is the envelope that
    [pushToInputPort] builds for an event type, a request id and a
    payload that JSON text represents, [checkForEvent] called with that
    event type and that request id, or with no request id, returns the
    object whose [reqId] is the request id and whose [data] is the
    payload, a zero in it without its sign. *)
Theorem checkForEvent_returns_payload (ns : NS) (eventType reqId : text)
    (payload : Json.value) (w : world) (rest : list text) :
  Json.representable payload ->
  ports w 20%Z = envelope eventType reqId payload :: rest ->
  fst (checkForEvent ns eventType (Some reqId) w)
  = Returned (Some {| data := Json.unsigned_zeros payload; reqId := Json.Str reqId |})
  /\ fst (checkForEvent ns eventType None w)
     = Returned (Some {| data := Json.unsigned_zeros payload; reqId := Json.Str reqId |}).
Proof.
  intros Hrep Hhead.
  destruct (envelope_delivered eventType reqId payload Hrep) as [Hdelivered Hmatches].
  rewrite !checkForEvent_run, Hhead. cbn [requested].
  rewrite (Hmatches reqId) by (left; reflexivity).
  rewrite (Hmatches "ANY") by (right; reflexivity).
  cbn [fst]. split; exact Hdelivered.
Qed.

Lemma checkForEvent_returns_payload_witness :
  fst (checkForEvent sample_ns "hack" (Some (txt "r1"))
         (output_holds [envelope "hack" "r1" sample_payload; txt "next"]))
  = Returned (Some {| data := Json.unsigned_zeros sample_payload;
                      reqId := Json.Str "r1" |})
  /\ fst (checkForEvent sample_ns "hack" None
            (output_holds [envelope "hack" "r1" sample_payload; txt "next"]))
     = Returned (Some {| data := Json.unsigned_zeros sample_payload;
                         reqId := Json.Str "r1" |}).
Proof.
  apply (checkForEvent_returns_payload sample_ns "hack" "r1" sample_payload
           (output_holds [envelope "hack" "r1" sample_payload; txt "next"])
           [txt "next"]).
  - vm_compute. repeat split.
  - reflexivity.
Defined.

End PortRoundTrip.


(* ================================================================== *)
(** * Properties of port-utils.js: createUUID *)
(* ================================================================== *)

Module UuidShape.
Import PortUtils PortUtilsSpec.

Lemma truncate_nonneg (q : Q) : (0 <= q)%Q -> truncate q = Qfloor q.
Proof. intros H. unfold truncate. apply Qle_bool_iff in H. rewrite H. reflexivity. Qed.

Lemma floor_range (q : Q) (n : Z) :
  (0 <= q)%Q -> (q < inject_Z n)%Q -> (0 <= Qfloor q < n)%Z.
Proof.
  intros Hlo Hhi. split.
  - rewrite <- (Qfloor_Z 0). apply Qfloor_resp_le. exact Hlo.
  - rewrite Zlt_Qlt. eapply Qle_lt_trans; [apply Qfloor_le | exact Hhi].
Qed.

(** The remainder by 16 of a number that is not negative, cut to an
    integer, is one of 0 .. 15. *)
Lemma remainder_digit (s : Q) :
  (0 <= s)%Q -> (0 <= to_int32 (js_rem s 16) <= 15)%Z.
Proof.
  intros Hs. unfold js_rem, to_int32.
  assert (Hdiv : (0 <= s / 16)%Q).
  { apply Qle_shift_div_l; [reflexivity|]. lra. }
  rewrite (truncate_nonneg (s / 16) Hdiv).
  set (k := Qfloor (s / 16)).
  pose proof (Qfloor_le (s / 16)) as Hlo. pose proof (Qlt_floor (s / 16)) as Hhi.
  fold k in Hlo, Hhi.
  assert (Hk : (inject_Z (k + 1) == inject_Z k + 1)%Q) by (rewrite inject_Z_plus; reflexivity).
  rewrite Hk in Hhi. clear Hk.
  assert (Hs16 : (s == 16 * (s / 16))%Q) by field.
  assert (Hrem : (0 <= s - 16 * inject_Z k)%Q /\ (s - 16 * inject_Z k < inject_Z 16)%Q).
  { change (inject_Z 16) with 16%Q. split; lra. }
  destruct Hrem as [Hr0 Hr16].
  rewrite (truncate_nonneg _ Hr0).
  pose proof (floor_range _ 16 Hr0 Hr16) as Hf.
  set (m := Qfloor (s - 16 * inject_Z k)) in *.
  rewrite Z.mod_small by lia.
  assert (Hlt : (m <? 2147483648)%Z = true) by (apply Z.ltb_lt; lia).
  rewrite Hlt. lia.
Qed.

Lemma small_cases (r : Z) :
  (0 <= r <= 15)%Z ->
  In r [0; 1; 2; 3; 4; 5; 6; 7; 8; 9; 10; 11; 12; 13; 14; 15]%Z.
Proof. intros H. simpl. lia. Qed.

Lemma hex_digit_text (r : Z) :
  (0 <= r <= 15)%Z ->
  exists c, JS.Z_to_string 16 r = String c "" /\ lower_hex c = true.
Proof.
  intros H. apply small_cases in H. simpl in H.
  repeat (destruct H as [<- | H]; [eexists; split; reflexivity|]).
  contradiction.
Qed.

Lemma variant_digit_text (r : Z) :
  (0 <= r <= 15)%Z ->
  exists c, JS.Z_to_string 16 (Z.lor (Z.land r 3) 8) = String c ""
            /\ variant_char c = true.
Proof.
  intros H. apply small_cases in H. simpl in H.
  repeat (destruct H as [<- | H]; [eexists; split; reflexivity|]).
  contradiction.
Qed.

(** How a character of the result answers to a character of the
    template. *)
Definition fits (t c : ascii) : Prop :=
  if Ascii.eqb t "x" then lower_hex c = true
  else if Ascii.eqb t "y" then variant_char c = true
  else c = t.

Fixpoint shaped (template out : string) : Prop :=
  match template, out with
  | EmptyString, EmptyString => True
  | String t template', String c out' => fits t c /\ shaped template' out'
  | _, _ => False
  end.

Section Replace.
Variable fl : Q -> Q.
Variable random : nat -> Q.
Hypothesis fl_nonneg : forall q, (0 <= q)%Q -> (0 <= fl q)%Q.
Hypothesis random_nonneg : forall n, (0 <= random n)%Q.

Lemma sum_nonneg (dt : Z) (n : nat) :
  (0 <= dt)%Z -> (0 <= fl (inject_Z dt + fl (random n * 16)))%Q.
Proof.
  intros Hdt. apply fl_nonneg.
  assert (H1 : (0 <= fl (random n * 16))%Q).
  { apply fl_nonneg. pose proof (random_nonneg n). lra. }
  assert (H2 : (0 <= inject_Z dt)%Q).
  { change 0%Q with (inject_Z 0). rewrite <- Zle_Qle. exact Hdt. }
  lra.
Qed.

Lemma replace_xy_shaped (template : string) :
  forall (dt : Z) (calls : nat),
    (0 <= dt)%Z -> shaped template (replace_xy fl random template dt calls).
Proof.
  induction template as [|t template IH]; intros dt calls Hdt; [exact I|].
  cbn [replace_xy]. unfold replacement.
  pose proof (remainder_digit _ (sum_nonneg dt calls Hdt)) as Hr.
  set (r := to_int32 (js_rem (fl (inject_Z dt + fl (random calls * 16))) 16)) in *.
  assert (Hdt' : (0 <= dt / 16)%Z) by (apply Z.div_pos; lia).
  destruct (Ascii.eqb t "x") eqn:Hx; cbn [orb].
  - destruct (hex_digit_text r Hr) as [c [-> Hc]].
    cbn [append shaped]. split; [|apply IH; exact Hdt'].
    unfold fits. rewrite Hx. exact Hc.
  - destruct (Ascii.eqb t "y") eqn:Hy.
    + destruct (variant_digit_text r Hr) as [c [-> Hc]].
      cbn [append shaped]. split; [|apply IH; exact Hdt'].
      unfold fits. rewrite Hx, Hy. exact Hc.
    + cbn [shaped]. split; [|apply IH; exact Hdt].
      unfold fits. rewrite Hx, Hy. reflexivity.
Qed.
End Replace.

Lemma variant_is_lower_hex (c : ascii) : variant_char c = true -> lower_hex c = true.
Proof.
  unfold variant_char. rewrite !orb_true_iff, !Ascii.eqb_eq.
  intros [[[-> | ->] | ->] | ->]; reflexivity.
Qed.

Lemma shaped_uuid (out : string) :
  shaped "xxxxxxxx-xxxx-4xxx-yxxx-xxxxxxxxxxxx" out -> uuid_shape out.
Proof.
  intros H.
  do 36 (destruct out as [|? out]; [contradiction|];
         destruct H as [? H]).
  destruct out; [|contradiction]. clear H.
  unfold fits in *. cbn in *. subst.
  split; [reflexivity|].
  intros i Hi.
  do 36 (destruct i as [|i];
         [eexists; split; [reflexivity|]; cbn;
          repeat split; try assumption; try reflexivity; try discriminate;
          try (intros _; assumption);
          try (apply variant_is_lower_hex; assumption)|]).
  lia.
Qed.

(** C10, as stated, fails: with the clock one millisecond before the
    epoch and a random source that yields 0, every replaced character
    becomes the two characters of -1, and the result has 66 characters. *)
Lemma createUUID_before_epoch :
  createUUID (fun q => q) (-1) (fun _ => 0%Q)
  = "-1-1-1-1-1-1-1-1--1-1-1-1-4-1-1-1-b-1-1-1--1-1-1-1-1-1-1-1-1-1-1-1"
  /\ String.length (createUUID (fun q => q) (-1) (fun _ => 0%Q)) <> 36%nat.
Proof. split; [vm_compute; reflexivity | vm_compute; discriminate]. Qed.

(** C10, amended.  For every clock value that is not negative and every
    sequence of values of the random source (none of them negative),
    whatever the rounding of the two arithmetic results, [createUUID]
    returns 36 characters with hyphens at indices 8, 13, 18 and 23, a
    lowercase hexadecimal digit everywhere else, the digit 4 at index 14
    and one of 8, 9, a, b at index 19. *)
Theorem createUUID_shape (fl : Q -> Q) (now : Z) (random : nat -> Q) :
  (forall q, (0 <= q)%Q -> (0 <= fl q)%Q) ->
  (0 <= now)%Z ->
  (forall n, (0 <= random n)%Q) ->
  uuid_shape (createUUID fl now random).
Proof.
  intros Hfl Hnow Hrandom. apply shaped_uuid.
  unfold createUUID. apply replace_xy_shaped; assumption.
Qed.

Lemma createUUID_shape_witness :
  uuid_shape (createUUID (fun q => q) 1700000000000 (fun n => (Z.of_nat (n mod 16) # 16)%Q)).
Proof.
  apply createUUID_shape.
  - intros q Hq. exact Hq.
  - discriminate.
  - intros n. unfold Qle. simpl. lia.
Defined.

End UuidShape.

(* ================================================================== *)
(** * More on the network scan *)
(* ================================================================== *)

Module NetworkScanMore.
Import Netscript Utils UtilsSpec ExtraSpec JS JSFacts Samples NetworkScan.

(** ** The scan returns reachable hostnames only, each once *)

Record collecting (ns : NS) (visited : object string) (stack : list string) : Prop := {
  collecting_values : self_valued visited;
  collecting_once : NoDup (keys visited);
  collecting_visited : forall h, In h (keys visited) -> reachable ns h;
  collecting_stack : forall h, In h stack -> reachable ns h
}.

Lemma scan_loop_collecting (ns : NS) (fuel : nat) :
  forall visited stack result,
    collecting ns visited stack ->
    scan_loop ns fuel visited stack = Some result ->
    collecting ns result [].
Proof.
  induction fuel as [|fuel IH]; intros visited stack result Hinv; [discriminate|].
  cbn [scan_loop]. destruct stack as [|node stack].
  - intros H; injection H as <-. exact Hinv.
  - destruct Hinv as [Hval Honce Hvis Hstack].
    fold (unvisited visited node).
    destruct (unvisited visited node) eqn:Hun.
    + rewrite (assign_unvisited _ _ Hval Hun). apply IH. constructor.
      * apply self_valued_define; exact Hval.
      * apply NoDup_keys_define; exact Honce.
      * intros h Hh. apply in_keys_define in Hh.
        destruct Hh as [-> | Hh]; [apply Hstack; left; reflexivity | auto].
      * intros h Hh. apply in_push_unvisited in Hh.
        destruct Hh as [Hh | [Hh _]].
        -- apply Hstack; right; exact Hh.
        -- apply (reach_step ns node h); [apply Hstack; left; reflexivity | exact Hh].
    + apply IH. constructor; auto.
      intros h Hh. apply Hstack. right; exact Hh.
Qed.

(** X2. On every network, whatever its hostnames, a list returned by
    [getNetworkNodes] has no hostname twice and holds only hostnames
    that are reachable from the current host. *)
Theorem getNetworkNodes_sound (ns : NS) (fuel : nat) (nodes : list string) :
  getNetworkNodes ns fuel = Some nodes ->
  NoDup nodes /\ forall h, In h nodes -> reachable ns h.
Proof.
  unfold getNetworkNodes.
  destruct (scan_loop ns fuel empty_object [getHostname ns]) as [result|] eqn:Hrun;
    [|discriminate].
  intros H; injection H as <-.
  assert (Hstart : collecting ns empty_object [getHostname ns]).
  { constructor.
    - intros k v H; discriminate.
    - constructor.
    - intros h [].
    - intros h [<- | []]. apply reach_origin. }
  destruct (scan_loop_collecting ns fuel _ _ _ Hstart Hrun) as [_ Honce Hvis _].
  split; assumption.
Qed.

Lemma getNetworkNodes_sound_witness :
  NoDup ["home"; "n00dles"]
  /\ forall h, In h ["home"; "n00dles"] -> reachable prototype_network h.
Proof.
  apply (getNetworkNodes_sound prototype_network 3 ["home"; "n00dles"]).
  reflexivity.
Defined.

(** ** A bound on the iterations *)

(** The neighbours of the members of the universe that [visited] does
    not own yet. *)
Definition unscanned (ns : NS) (visited : object string) (universe : list string) : nat :=
  list_sum (map (fun h => if has_own visited h then 0 else length (scan ns h)) universe).

Lemma unscanned_empty (ns : NS) (universe : list string) :
  unscanned ns empty_object universe = degree_sum ns universe.
Proof. reflexivity. Qed.

Lemma push_length (visited : object string) (neighbours : list string) :
  forall stack,
    length (push_unvisited visited neighbours stack) <= length stack + length neighbours.
Proof.
  unfold push_unvisited.
  induction neighbours as [|c neighbours IH]; intros stack; simpl; [lia|].
  destruct (negb (truthy (get visited c))).
  - specialize (IH (c :: stack)). simpl in IH. lia.
  - specialize (IH stack). lia.
Qed.

Lemma unscanned_define_le (ns : NS) (visited : object string) (k v : string)
    (universe : list string) :
  unscanned ns (define visited k v) universe <= unscanned ns visited universe.
Proof.
  unfold unscanned. induction universe as [|h universe IH]; [apply Nat.le_refl|].
  rewrite !map_cons. cbn [list_sum fold_right].
  change (fold_right Nat.add 0
            (map (fun h => if has_own (define visited k v) h then 0
                           else length (scan ns h)) universe))
    with (list_sum (map (fun h => if has_own (define visited k v) h then 0
                                  else length (scan ns h)) universe)).
  change (fold_right Nat.add 0
            (map (fun h => if has_own visited h then 0 else length (scan ns h)) universe))
    with (list_sum (map (fun h => if has_own visited h then 0
                                  else length (scan ns h)) universe)).
  rewrite has_own_define.
  destruct (String.eqb k h), (has_own visited h); simpl; lia.
Qed.

Lemma unscanned_define_drop (ns : NS) (visited : object string) (k v : string)
    (universe : list string) :
  In k universe -> has_own visited k = false ->
  unscanned ns (define visited k v) universe + length (scan ns k)
  <= unscanned ns visited universe.
Proof.
  intros Hin Hown. induction universe as [|h universe IH]; [destruct Hin|].
  pose proof (unscanned_define_le ns visited k v universe) as Hle.
  unfold unscanned in *. rewrite !map_cons, !JsonText.list_sum_cons.
  rewrite has_own_define.
  destruct (String.eqb_spec k h) as [Heq | Hne].
  - subst h. rewrite Hown. simpl. lia.
  - destruct Hin as [Heq | Hin]; [congruence|].
    specialize (IH Hin). destruct (has_own visited h); simpl; lia.
Qed.

Lemma scan_loop_within (ns : NS) (universe : list string) :
  (forall h c, In h universe -> In c (scan ns h) -> In c universe) ->
  ~ In "" universe ->
  forall fuel visited stack,
    length stack + unscanned ns visited universe < fuel ->
    self_valued visited ->
    (forall h, In h stack -> In h universe) ->
    exists result, scan_loop ns fuel visited stack = Some result.
Proof.
  intros Hclosed Hnonempty.
  induction fuel as [|fuel IH]; intros visited stack Hfuel Hsv Hstack; [lia|].
  destruct stack as [|node stack]; [exists visited; reflexivity|].
  cbn [scan_loop length] in *. fold (unvisited visited node).
  assert (Hnode : In node universe) by (apply Hstack; left; reflexivity).
  assert (Hrest : forall h, In h stack -> In h universe)
    by (intros h Hh; apply Hstack; right; exact Hh).
  destruct (unvisited visited node) eqn:Hun.
  - rewrite (assign_unvisited _ _ Hsv Hun).
    destruct (unvisited_cases _ _ Hsv Hun) as [_ [Hnone | Hempty]];
      [|subst node; contradiction].
    assert (Hown : has_own visited node = false)
      by (unfold has_own; rewrite Hnone; reflexivity).
    pose proof (unscanned_define_drop ns visited node node universe Hnode Hown) as Hdrop.
    pose proof (push_length (define visited node node) (scan ns node) stack) as Hpush.
    apply IH.
    + lia.
    + apply self_valued_define; exact Hsv.
    + intros h Hh. apply in_push_unvisited in Hh.
      destruct Hh as [Hh | [Hh _]]; [apply Hrest; exact Hh|].
      eapply Hclosed; eassumption.
  - apply IH; [lia | exact Hsv | exact Hrest].
Qed.

(** X3. On a finite network without the empty hostname, the loop of
    [getNetworkNodes] ends after at most one iteration more than the
    total length of the neighbour lists (the fuel counts the last test
    of the loop condition as well): every iteration pops one entry, and
    a hostname pushes its neighbours once. *)
Theorem getNetworkNodes_within (ns : NS) (universe : list string) :
  finite_network ns universe ->
  ~ In "" universe ->
  exists nodes, getNetworkNodes ns (2 + degree_sum ns universe) = Some nodes.
Proof.
  intros [Horigin Hclosed] Hnonempty. unfold getNetworkNodes.
  destruct (scan_loop_within ns universe Hclosed Hnonempty
              (2 + degree_sum ns universe) empty_object [getHostname ns])
    as [result Hrun].
  - rewrite unscanned_empty. simpl. lia.
  - intros k v H; discriminate.
  - intros h [<- | []]. exact Horigin.
  - exists (keys result). rewrite Hrun. reflexivity.
Qed.

Lemma small_network_finite :
  finite_network small_network ["home"; "n00dles"; "zer0"; "foodnstuff"].
Proof.
  split; [left; reflexivity|].
  intros h c Hh Hc. simpl in Hh.
  destruct Hh as [<- | [<- | [<- | [<- | []]]]]; simpl in Hc; simpl; tauto.
Defined.

Lemma getNetworkNodes_within_witness :
  exists nodes,
    getNetworkNodes small_network
      (2 + degree_sum small_network ["home"; "n00dles"; "zer0"; "foodnstuff"])
    = Some nodes.
Proof.
  apply getNetworkNodes_within.
  - exact small_network_finite.
  - simpl. intros [H | [H | [H | [H | []]]]]; discriminate.
Defined.

(** ** The exact result *)

Lemma reachable_in_universe (ns : NS) (universe : list string) :
  finite_network ns universe -> forall h, reachable ns h -> In h universe.
Proof.
  intros [Horigin Hclosed] h Hreach.
  induction Hreach as [|h c _ IH Hc]; [exact Horigin|].
  eapply Hclosed; eassumption.
Qed.

Lemma getNetworkNodes_exact_witness :
  exists fuel nodes,
    getNetworkNodes small_network fuel = Some nodes
    /\ NoDup nodes
    /\ forall h, In h nodes <-> reachable small_network h.
Proof.
  apply (getNetworkNodes_exact small_network
           ["home"; "n00dles"; "zer0"; "foodnstuff"]).
  - exact small_network_finite.
  - simpl. intros [H | []]. discriminate.
  - intros h Hreach.
    pose proof (reachable_in_universe _ _ small_network_finite h Hreach) as Hin.
    simpl in Hin.
    destruct Hin as [<- | [<- | [<- | [<- | []]]]]; reflexivity.
Defined.

(** ** A current host with an inherited name *)

(** X4. When the hostname of the current host is the name of a property
    of [Object.prototype], the first test finds it visited already:
    after two iterations [getNetworkNodes] returns the empty array. *)
Theorem getNetworkNodes_inherited_origin (ns : NS) (fuel : nat) :
  inherited (getHostname ns) = true ->
  getNetworkNodes ns (S (S fuel)) = Some [].
Proof.
  intros Hinh. unfold getNetworkNodes. cbn [scan_loop].
  unfold get. cbn [get_own empty_object]. rewrite Hinh. reflexivity.
Qed.

Lemma getNetworkNodes_inherited_origin_witness :
  getNetworkNodes (network "valueOf" (fun _ => ["home"])) 2 = Some [].
Proof.
  apply (getNetworkNodes_inherited_origin (network "valueOf" (fun _ => ["home"])) 0).
  reflexivity.
Defined.

(** ** The current host comes first *)

Lemma head_define (o : object string) (k v origin : string) :
  array_index k = None ->
  hd_error (keys o) = Some origin ->
  hd_error (keys (define o k v)) = Some origin.
Proof.
  intros Hk Hhead. unfold define. destruct (has_own o k).
  - rewrite keys_replace. exact Hhead.
  - rewrite (create_own_plain o k v Hk). unfold keys. rewrite map_app.
    destruct o as [|[k' v'] o]; [discriminate | exact Hhead].
Qed.

Lemma scan_loop_head (ns : NS) (origin : string) (fuel : nat) :
  (forall h, reachable ns h -> array_index h = None) ->
  forall visited stack result,
    self_valued visited ->
    (forall h, In h stack -> reachable ns h) ->
    hd_error (keys visited) = Some origin ->
    scan_loop ns fuel visited stack = Some result ->
    hd_error (keys result) = Some origin.
Proof.
  intros Hplain.
  induction fuel as [|fuel IH]; intros visited stack result Hval Hstack Hhead;
    [discriminate|].
  cbn [scan_loop]. destruct stack as [|node stack].
  - intros H; injection H as <-. exact Hhead.
  - fold (unvisited visited node).
    destruct (unvisited visited node) eqn:Hun.
    + rewrite (assign_unvisited _ _ Hval Hun). apply IH.
      * apply self_valued_define; exact Hval.
      * intros h Hh. apply in_push_unvisited in Hh.
        destruct Hh as [Hh | [Hh _]].
        -- apply Hstack; right; exact Hh.
        -- apply (reach_step ns node h); [apply Hstack; left; reflexivity | exact Hh].
      * apply head_define; [|exact Hhead].
        apply Hplain, Hstack. left; reflexivity.
    + apply IH; try assumption.
      intros h Hh. apply Hstack. right; exact Hh.
Qed.

(** X21. The current host is the first entry of the result, provided
    its name is not the name of a property of [Object.prototype] and no
    reachable hostname is an array index (a canonical decimal numeral,
    which [Object.keys] lists before all other keys). *)
Theorem getNetworkNodes_origin_first (ns : NS) (fuel : nat) (nodes : list string) :
  inherited (getHostname ns) = false ->
  (forall h, reachable ns h -> array_index h = None) ->
  getNetworkNodes ns fuel = Some nodes ->
  hd_error nodes = Some (getHostname ns).
Proof.
  intros Hown Hplain. unfold getNetworkNodes.
  destruct fuel as [|fuel]; [discriminate|].
  cbn [scan_loop]. unfold get. cbn [get_own empty_object]. rewrite Hown.
  cbn [truthy negb].
  assert (Hassign : assign empty_object (getHostname ns) (getHostname ns)
                    = [(getHostname ns, getHostname ns)]).
  { unfold assign, empty_object.
    destruct (String.eqb_spec (getHostname ns) "__proto__") as [Heq | Hne].
    - rewrite Heq in Hown. discriminate.
    - reflexivity. }
  rewrite Hassign.
  destruct (scan_loop ns fuel _ _) as [result|] eqn:Hrun; [|discriminate].
  intros H; injection H as <-.
  apply (scan_loop_head ns (getHostname ns) fuel Hplain _ _ _) in Hrun;
    [exact Hrun | | | reflexivity].
  - intros k v. cbn [get_own].
    destruct (String.eqb_spec (getHostname ns) k) as [Heq | Hne]; [|discriminate].
    intros H; injection H as <-. exact Heq.
  - intros h Hh. apply in_push_unvisited in Hh.
    destruct Hh as [[] | [Hh _]].
    apply (reach_step ns (getHostname ns) h); [apply reach_origin | exact Hh].
Qed.

Lemma getNetworkNodes_origin_first_witness :
  hd_error ["home"; "foodnstuff"; "n00dles"; "zer0"] = Some "home".
Proof.
  apply (getNetworkNodes_origin_first small_network 10).
  - reflexivity.
  - intros h Hreach.
    pose proof (reachable_in_universe _ _ small_network_finite h Hreach) as Hin.
    simpl in Hin.
    destruct Hin as [<- | [<- | [<- | [<- | []]]]]; reflexivity.
  - reflexivity.
Defined.

End NetworkScanMore.

(* ================================================================== *)
(** * The port protocol: sending and receiving *)
(* ================================================================== *)

Module PortProtocol.
Import Text Netscript Host PortUtils PortUtilsSpec ExtraSpec HostFacts Samples PortReads
  PortRoundTrip.
Local Open Scope script_scope.

(** ** Runs of the two senders *)

Lemma write_effect (ns : NS) (handle : Z) (data : text) (w : world) :
  exists displaced w',
    write ns handle data w = (Returned displaced, w')
    /\ (forall p, p <> handle -> ports w' p = ports w p)
    /\ log w' = (log w ++ [PortWrite handle data])%list.
Proof.
  unfold write, bind, emit, port_data, set_port, ret. cbn [ports log].
  destruct (length (ports w handle ++ [data]) <=? portCapacity ns)%nat.
  - eexists; eexists. split; [reflexivity|]. split; [|reflexivity].
    intros p Hp. cbn. apply Z.eqb_neq in Hp. rewrite Hp. reflexivity.
  - destruct (ports w handle ++ [data])%list as [|oldest q].
    + eexists; eexists. split; [reflexivity|]. split; reflexivity.
    + eexists; eexists. split; [reflexivity|]. split; [|reflexivity].
      intros p Hp. cbn. apply Z.eqb_neq in Hp. rewrite Hp. reflexivity.
Qed.

Lemma pushToOutputPort_room (ns : NS) (payload : text) (w : world) :
  (length (ports w 20%Z) < portCapacity ns)%nat ->
  pushToOutputPort ns payload w
  = (Returned true,
     with_port (logged w [GetPortHandle 20; PortFull 20; PortWrite 20 payload]) 20
       (ports w 20%Z ++ [payload])%list).
Proof.
  intros Hroom. unfold pushToOutputPort, outputPort.
  rewrite (bind_returned _ _ _ _ _ (getPortHandle_run 20 w)).
  rewrite (bind_returned _ _ _ _ _ (full_run ns 20 _)).
  cbn [ports logged].
  assert (Hnot : (portCapacity ns <=? length (ports w 20%Z))%nat = false)
    by (apply Nat.leb_gt; exact Hroom).
  rewrite Hnot.
  erewrite bind_returned by (apply write_run; exact Hroom).
  rewrite !logged_logged. reflexivity.
Qed.

Lemma pushToOutputPort_no_room (ns : NS) (payload : text) (w : world) :
  (portCapacity ns <= length (ports w 20%Z))%nat ->
  pushToOutputPort ns payload w
  = (Returned false, logged w [GetPortHandle 20; PortFull 20]).
Proof.
  intros Hfull. unfold pushToOutputPort, outputPort.
  rewrite (bind_returned _ _ _ _ _ (getPortHandle_run 20 w)).
  rewrite (bind_returned _ _ _ _ _ (full_run ns 20 _)).
  cbn [ports logged].
  apply Nat.leb_le in Hfull. rewrite Hfull.
  unfold ret. rewrite logged_logged. reflexivity.
Qed.

(** The answer of [checkForEvent] is read off the output port alone. *)
Lemma checkForEvent_reads_output (ns : NS) (eventType : text)
    (reqId_arg : option text) (w1 w2 : world) :
  ports w1 20%Z = ports w2 20%Z ->
  fst (checkForEvent ns eventType reqId_arg w1)
  = fst (checkForEvent ns eventType reqId_arg w2).
Proof.
  intros Hsame. rewrite !checkForEvent_run, Hsame.
  destruct (ports w2 20%Z) as [|msg rest]; [reflexivity|].
  destruct (matches eventType (requested reqId_arg) msg); reflexivity.
Qed.

(** ** The envelope *)

(** The object an envelope is the text of. *)
Lemma envelope_object (eventType reqId : text) (payload : Json.value) :
  Json.parse (envelope eventType reqId payload)
  = Some (Json.Object (sent_properties eventType reqId payload)).
Proof.
  unfold sent_properties.
  destruct (Json.stringify payload) as [t|] eqn:Ht.
  - exact (envelope_parse eventType reqId payload t Ht).
  - unfold envelope. rewrite Ht.
    apply (JsonText.parse_stringify
             (Json.Object
                [(txt "eventType", Json.Str eventType); (txt "reqId", Json.Str reqId)]));
      [|reflexivity].
    cbn. repeat split.
Qed.

Lemma matches_envelope (eventType reqId : text) (payload : Json.value)
    (wantedType wantedId : text) :
  matches wantedType wantedId (envelope eventType reqId payload)
  = (Text.eqb eventType wantedType
     && (Text.eqb wantedId "ANY" || Text.eqb reqId wantedId))%bool.
Proof.
  unfold matches. rewrite envelope_object. unfold sent_properties.
  destruct (Json.stringify payload); reflexivity.
Qed.

Lemma declined_envelope (eventType reqId : text) (payload : Json.value) :
  declined (envelope eventType reqId payload) = Returned None.
Proof. unfold declined. rewrite envelope_object. reflexivity. Qed.


(** X5. For an input port (1 to 19), [pushToInputPort] returns after
    exactly two host calls, [getPortHandle(port)] and the write of the
    envelope, whether the port is full or not; no other port changes;
    and when the port has room, the envelope is appended to it. *)
Theorem pushToInputPort_sends (ns : NS) (eventType reqId : text)
    (payload : Json.value) (port : Z) (w : world) :
  (1 <= port <= 19)%Z ->
  let w' := snd (pushToInputPort ns eventType reqId payload port w) in
  fst (pushToInputPort ns eventType reqId payload port w) = Returned tt
  /\ log w' = (log w ++ [GetPortHandle port;
                         PortWrite port (envelope eventType reqId payload)])%list
  /\ (forall p, p <> port -> ports w' p = ports w p)
  /\ ((length (ports w port) < portCapacity ns)%nat ->
      ports w' port = (ports w port ++ [envelope eventType reqId payload])%list).
Proof.
  intros Hport. cbv zeta.
  assert (Hin : isInputPort port = true).
  { unfold isInputPort, minInputPort, maxInputPort.
    apply andb_true_iff. rewrite !Z.leb_le. exact Hport. }
  destruct (write_effect ns port (envelope eventType reqId payload)
              (logged w [GetPortHandle port]))
    as [displaced [w1 [Hwrite [Hothers Hlog]]]].
  assert (Hrun : pushToInputPort ns eventType reqId payload port w = (Returned tt, w1)).
  { unfold pushToInputPort. rewrite Hin. cbn [negb].
    rewrite (bind_returned _ _ _ _ _ (getPortHandle_run port w)).
    rewrite (bind_returned _ _ _ _ _ Hwrite). reflexivity. }
  rewrite Hrun. cbn [fst snd]. split; [reflexivity|]. split; [|split].
  - rewrite Hlog. cbn [logged log]. rewrite <- app_assoc. reflexivity.
  - intros p Hp. rewrite (Hothers p Hp). reflexivity.
  - intros Hroom.
    pose proof (write_run ns port (envelope eventType reqId payload)
                  (logged w [GetPortHandle port]) Hroom) as Hroomy.
    rewrite Hroomy in Hwrite. injection Hwrite as _ <-.
    apply ports_with_port_same.
Qed.

Lemma pushToInputPort_sends_witness :
  ports (snd (pushToInputPort sample_ns "hack" "r1" sample_payload 3 idle_world)) 3%Z
  = [envelope "hack" "r1" sample_payload].
Proof.
  apply (pushToInputPort_sends sample_ns "hack" "r1" sample_payload 3 idle_world).
  - split; discriminate.
  - cbn. apply Nat.lt_0_succ.
Defined.

(** X6. Whatever its port argument and whether ports are full or not,
    [pushToInputPort] leaves the output port (20) as it was, so a
    [checkForEvent] after it answers as it would have before. *)
Theorem pushToInputPort_keeps_output (ns : NS) (eventType reqId : text)
    (payload : Json.value) (port : Z) (w : world) :
  let w' := snd (pushToInputPort ns eventType reqId payload port w) in
  ports w' 20%Z = ports w 20%Z
  /\ forall wantedType wantedId,
       fst (checkForEvent ns wantedType wantedId w')
       = fst (checkForEvent ns wantedType wantedId w).
Proof.
  cbv zeta.
  assert (Hsame : ports (snd (pushToInputPort ns eventType reqId payload port w)) 20%Z
                  = ports w 20%Z).
  { unfold pushToInputPort. destruct (isInputPort port) eqn:Hin; cbn [negb].
    - destruct (write_effect ns port (envelope eventType reqId payload)
                  (logged w [GetPortHandle port]))
        as [displaced [w1 [Hwrite [Hothers _]]]].
      rewrite (bind_returned _ _ _ _ _ (getPortHandle_run port w)).
      rewrite (bind_returned _ _ _ _ _ Hwrite). cbn [ret snd].
      rewrite Hothers; [reflexivity|].
      unfold isInputPort, minInputPort, maxInputPort in Hin.
      apply andb_true_iff in Hin. rewrite !Z.leb_le in Hin. lia.
    - reflexivity. }
  split; [exact Hsame|].
  intros wantedType wantedId. apply checkForEvent_reads_output. exact Hsame.
Qed.

(** X7. Whatever the payload, the message [pushToInputPort] writes is
    JSON text of an object: [JSON.parse] reads it back without throwing,
    its [eventType] and [reqId] are the two strings given, and its
    [data] is the JSON text of the payload ([undefined] when the payload
    has none). *)
Theorem envelope_is_json (eventType reqId : text) (payload : Json.value) :
  exists props,
    Json.parse (envelope eventType reqId payload) = Some (Json.Object props)
    /\ field (Json.Object props) "eventType" = Json.Str eventType
    /\ field (Json.Object props) "reqId" = Json.Str reqId
    /\ field (Json.Object props) "data"
       = match Json.stringify payload with
         | Some t => Json.Str t
         | None => Json.Undefined
         end.
Proof.
  exists (sent_properties eventType reqId payload).
  split; [apply envelope_object|].
  unfold sent_properties.
  destruct (Json.stringify payload); repeat split.
Qed.

(** X8. With an envelope of [pushToInputPort] at the head of the output
    port, [checkForEvent] takes it off exactly when the event types are
    equal and the request id asked for is "ANY" or the envelope's;
    otherwise it returns [undefined] and no port changes. *)
Theorem checkForEvent_selects (ns : NS) (eventType reqId : text)
    (payload : Json.value) (wantedType : text) (wantedId : option text)
    (w : world) (rest : list text) :
  ports w 20%Z = envelope eventType reqId payload :: rest ->
  let w' := snd (checkForEvent ns wantedType wantedId w) in
  (wantedType = eventType /\ (requested wantedId = "ANY" \/ requested wantedId = reqId) ->
   ports w' 20%Z = rest)
  /\ (wantedType <> eventType
      \/ (requested wantedId <> "ANY" /\ requested wantedId <> reqId) ->
      fst (checkForEvent ns wantedType wantedId w) = Returned None
      /\ ports w' = ports w).
Proof.
  intros Hhead. cbv zeta. rewrite checkForEvent_run, Hhead, matches_envelope.
  split.
  - intros [-> Hid]. rewrite TextFacts.eqb_refl. cbn [andb].
    assert (Hwanted : (Text.eqb (requested wantedId) "ANY"
                       || Text.eqb reqId (requested wantedId))%bool = true).
    { destruct Hid as [-> | ->].
      - reflexivity.
      - rewrite TextFacts.eqb_refl. apply orb_true_r. }
    rewrite Hwanted. cbn [snd]. apply ports_with_port_same.
  - intros Hno.
    assert (Hwanted : (Text.eqb eventType wantedType
                       && (Text.eqb (requested wantedId) "ANY"
                           || Text.eqb reqId (requested wantedId)))%bool = false).
    { destruct Hno as [Htype | [Hany Hid]].
      - apply andb_false_iff. left. apply TextFacts.eqb_neq. congruence.
      - apply andb_false_iff. right. apply orb_false_iff. split.
        + apply TextFacts.eqb_neq. exact Hany.
        + apply TextFacts.eqb_neq. congruence. }
    rewrite Hwanted. cbn [fst snd]. split; [apply declined_envelope | reflexivity].
Qed.

Lemma checkForEvent_selects_witness :
  fst (checkForEvent sample_ns "grow" None
         (output_holds [envelope "hack" "r1" sample_payload; txt "next"]))
  = Returned None
  /\ ports (snd (checkForEvent sample_ns "grow" None
                   (output_holds [envelope "hack" "r1" sample_payload; txt "next"])))
     = ports (output_holds [envelope "hack" "r1" sample_payload; txt "next"]).
Proof.
  apply (checkForEvent_selects sample_ns "hack" "r1" sample_payload "grow" None
           (output_holds [envelope "hack" "r1" sample_payload; txt "next"]) [txt "next"]).
  - reflexivity.
  - left. discriminate.
Defined.

(** X9. A payload without JSON text ([undefined]) is lost on receipt:
    its envelope matches, [checkForEvent] takes it off the port, and then
    throws a SyntaxError on the missing [data]. *)
Theorem checkForEvent_loses_undefined (ns : NS) (eventType reqId : text)
    (payload : Json.value) (wantedId : option text) (w : world)
    (rest : list text) :
  Json.stringify payload = None ->
  ports w 20%Z = envelope eventType reqId payload :: rest ->
  requested wantedId = "ANY" \/ requested wantedId = reqId ->
  fst (checkForEvent ns eventType wantedId w) = Thrown SyntaxError
  /\ ports (snd (checkForEvent ns eventType wantedId w)) 20%Z = rest.
Proof.
  intros Hnone Hhead Hid.
  rewrite checkForEvent_run, Hhead, matches_envelope, TextFacts.eqb_refl. cbn [andb].
  assert (Hwanted : (Text.eqb (requested wantedId) "ANY"
                     || Text.eqb reqId (requested wantedId))%bool = true).
  { destruct Hid as [-> | ->].
    - reflexivity.
    - rewrite TextFacts.eqb_refl. apply orb_true_r. }
  rewrite Hwanted. cbn [fst snd]. split; [|apply ports_with_port_same].
  unfold delivered. rewrite envelope_object. unfold sent_properties. rewrite Hnone.
  reflexivity.
Qed.

Lemma checkForEvent_loses_undefined_witness :
  fst (checkForEvent sample_ns "hack" (Some (txt "r1"))
         (output_holds [envelope "hack" "r1" Json.Undefined; txt "next"]))
  = Thrown SyntaxError
  /\ ports (snd (checkForEvent sample_ns "hack" (Some (txt "r1"))
                   (output_holds [envelope "hack" "r1" Json.Undefined; txt "next"]))) 20%Z
     = [txt "next"].
Proof.
  apply (checkForEvent_loses_undefined sample_ns "hack" "r1" Json.Undefined (Some (txt "r1"))
           (output_holds [envelope "hack" "r1" Json.Undefined; txt "next"]) [txt "next"]).
  - reflexivity.
  - reflexivity.
  - right. reflexivity.
Defined.


(** ** Replies through the output port *)

Lemma checkForEvent_delivers (ns : NS) (eventType reqId : text)
    (payload : Json.value) (wantedId : option text) (w : world)
    (rest : list text) :
  Json.representable payload ->
  ports w 20%Z = envelope eventType reqId payload :: rest ->
  requested wantedId = "ANY" \/ requested wantedId = reqId ->
  checkForEvent ns eventType wantedId w
  = (Returned (Some {| data := Json.unsigned_zeros payload; reqId := Json.Str reqId |}),
     with_port (logged w [GetPortHandle 20; PortEmpty 20; PortPeek 20; PortRead 20])
       20 rest).
Proof.
  intros Hrep Hhead Hid.
  destruct (envelope_delivered eventType reqId payload Hrep) as [Hdelivered Hmatches].
  rewrite checkForEvent_run, Hhead.
  rewrite (Hmatches (requested wantedId))
    by (destruct Hid as [-> | ->]; [right | left]; reflexivity).
  rewrite Hdelivered. reflexivity.
Qed.

(** X10. A reply pushed with [pushToOutputPort] onto the empty output
    port of a host whose ports hold at least one message is accepted and
    is what the next [checkForEvent] for its event type returns, with the
    payload (a zero in it without its sign) and the request id of the
    reply; the port is empty again.  The payload is one that JSON text
    represents. *)
Theorem reply_received (ns : NS) (eventType reqId : text) (payload : Json.value)
    (wantedId : option text) (w : world) :
  ports w 20%Z = [] ->
  (0 < portCapacity ns)%nat ->
  Json.representable payload ->
  requested wantedId = "ANY" \/ requested wantedId = reqId ->
  let exchange :=
    (accepted <- pushToOutputPort ns (envelope eventType reqId payload) ;;
     answer <- checkForEvent ns eventType wantedId ;;
     ret (accepted, answer))%script in
  fst (exchange w)
  = Returned (true, Some {| data := Json.unsigned_zeros payload;
                            reqId := Json.Str reqId |})
  /\ ports (snd (exchange w)) 20%Z = [].
Proof.
  intros Hempty Hcap Hrep Hid. cbv zeta.
  assert (Hroom : (length (ports w 20%Z) < portCapacity ns)%nat)
    by (rewrite Hempty; exact Hcap).
  rewrite (bind_returned _ _ _ _ _
             (pushToOutputPort_room ns (envelope eventType reqId payload) w Hroom)).
  rewrite Hempty. cbn [app].
  erewrite bind_returned.
  2:{ apply (checkForEvent_delivers ns eventType reqId payload wantedId _ [] Hrep);
        [apply ports_with_port_same | exact Hid]. }
  cbn [ret fst snd]. split; [reflexivity | apply ports_with_port_same].
Qed.

Lemma reply_received_witness :
  fst ((accepted <- pushToOutputPort sample_ns (envelope "hack" "r1" sample_payload) ;;
        answer <- checkForEvent sample_ns "hack" (Some (txt "r1")) ;;
        ret (accepted, answer))%script idle_world)
  = Returned (true, Some {| data := Json.unsigned_zeros sample_payload;
                            reqId := Json.Str "r1" |})
  /\ ports (snd ((accepted <- pushToOutputPort sample_ns
                                (envelope "hack" "r1" sample_payload) ;;
                  answer <- checkForEvent sample_ns "hack" (Some (txt "r1")) ;;
                  ret (accepted, answer))%script idle_world)) 20%Z
     = [].
Proof.
  apply (reply_received sample_ns "hack" "r1" sample_payload (Some (txt "r1")) idle_world).
  - reflexivity.
  - cbn. apply Nat.lt_0_succ.
  - cbn. repeat split.
  - right. reflexivity.
Defined.

(** X11. The output port is first in, first out for its readers: a
    message pushed with [pushToOutputPort] while the port holds an older
    message does not change what the next [checkForEvent] answers,
    whether the push is accepted or refused. *)
Theorem pushToOutputPort_behind_head (ns : NS) (payload : text)
    (wantedType : text) (wantedId : option text) (w : world) :
  ports w 20%Z <> [] ->
  fst (checkForEvent ns wantedType wantedId (snd (pushToOutputPort ns payload w)))
  = fst (checkForEvent ns wantedType wantedId w).
Proof.
  intros Hheld.
  destruct (Nat.le_gt_cases (portCapacity ns) (length (ports w 20%Z))) as [Hfull | Hroom].
  - rewrite (pushToOutputPort_no_room ns payload w Hfull). cbn [snd].
    apply checkForEvent_reads_output. reflexivity.
  - rewrite (pushToOutputPort_room ns payload w Hroom). cbn [snd].
    rewrite !checkForEvent_run, ports_with_port_same.
    destruct (ports w 20%Z) as [|msg rest]; [congruence|]. cbn [app].
    destruct (matches wantedType (requested wantedId) msg); reflexivity.
Qed.

Lemma pushToOutputPort_behind_head_witness :
  fst (checkForEvent sample_ns "hack" None
         (snd (pushToOutputPort sample_ns "later" (output_holds [txt "first"]))))
  = fst (checkForEvent sample_ns "hack" None (output_holds [txt "first"])).
Proof.
  apply (pushToOutputPort_behind_head sample_ns "later" "hack" None
           (output_holds [txt "first"])).
  discriminate.
Defined.

(** X12. Two replies pushed onto the empty output port of a host whose
    ports hold at least two messages are both accepted and are received
    in the order sent: the first [checkForEvent] returns the first
    payload, the second the second (a zero without its sign), and the
    port is empty afterwards.  The payloads are such as JSON text
    represents. *)
Theorem replies_in_order (ns : NS) (type1 id1 type2 id2 : text)
    (payload1 payload2 : Json.value) (w : world) :
  ports w 20%Z = [] ->
  (2 <= portCapacity ns)%nat ->
  Json.representable payload1 ->
  Json.representable payload2 ->
  let exchange :=
    (accepted1 <- pushToOutputPort ns (envelope type1 id1 payload1) ;;
     accepted2 <- pushToOutputPort ns (envelope type2 id2 payload2) ;;
     first <- checkForEvent ns type1 None ;;
     second <- checkForEvent ns type2 None ;;
     ret (accepted1, accepted2, first, second))%script in
  fst (exchange w)
  = Returned (true, true,
              Some {| data := Json.unsigned_zeros payload1; reqId := Json.Str id1 |},
              Some {| data := Json.unsigned_zeros payload2; reqId := Json.Str id2 |})
  /\ ports (snd (exchange w)) 20%Z = [].
Proof.
  intros Hempty Hcap Hrep1 Hrep2. cbv zeta.
  assert (Hroom : (length (ports w 20%Z) < portCapacity ns)%nat)
    by (rewrite Hempty; simpl; lia).
  rewrite (bind_returned _ _ _ _ _
             (pushToOutputPort_room ns (envelope type1 id1 payload1) w Hroom)).
  rewrite Hempty. cbn [app].
  erewrite bind_returned.
  2:{ apply pushToOutputPort_room. rewrite ports_with_port_same. simpl. lia. }
  rewrite ports_with_port_same. cbn [app].
  erewrite bind_returned.
  2:{ apply (checkForEvent_delivers ns type1 id1 payload1 None _
               [envelope type2 id2 payload2] Hrep1);
        [apply ports_with_port_same | left; reflexivity]. }
  erewrite bind_returned.
  2:{ apply (checkForEvent_delivers ns type2 id2 payload2 None _ [] Hrep2);
        [apply ports_with_port_same | left; reflexivity]. }
  cbn [ret fst snd]. split; [reflexivity | apply ports_with_port_same].
Qed.

Lemma replies_in_order_witness :
  ports (snd ((accepted1 <- pushToOutputPort sample_ns
                              (envelope "hack" "r1" sample_payload) ;;
               accepted2 <- pushToOutputPort sample_ns
                              (envelope "grow" "r2" Json.Null) ;;
               first <- checkForEvent sample_ns "hack" None ;;
               second <- checkForEvent sample_ns "grow" None ;;
               ret (accepted1, accepted2, first, second))%script idle_world)) 20%Z
  = [].
Proof.
  apply (replies_in_order sample_ns "hack" "r1" "grow" "r2" sample_payload Json.Null
           idle_world).
  - reflexivity.
  - cbn. lia.
  - cbn. repeat split.
  - exact I.
Defined.

(** X13. A head message that does not match blocks the port: however
    often [checkForEvent] is called with the same arguments, no port
    changes and the answer stays the same, whatever waits behind the
    head. *)
Theorem checkForEvent_blocked (ns : NS) (wantedType : text)
    (wantedId : option text) (w : world) (msg : text) (rest : list text)
    (n : nat) :
  ports w 20%Z = msg :: rest ->
  matches wantedType (requested wantedId) msg = false ->
  ports (after_polls ns wantedType wantedId n w) = ports w
  /\ fst (checkForEvent ns wantedType wantedId (after_polls ns wantedType wantedId n w))
     = fst (checkForEvent ns wantedType wantedId w).
Proof.
  intros Hhead Hno.
  assert (Hports : forall m w0, ports w0 = ports w ->
                     ports (after_polls ns wantedType wantedId m w0) = ports w).
  { induction m as [|m IH]; intros w0 Hw0; [exact Hw0|].
    cbn [after_polls]. apply IH.
    rewrite checkForEvent_run, Hw0, Hhead, Hno. cbn [snd logged ports].
    exact Hw0. }
  split.
  - apply Hports. reflexivity.
  - apply checkForEvent_reads_output. rewrite (Hports n w eq_refl). reflexivity.
Qed.

Lemma checkForEvent_blocked_witness :
  ports (after_polls sample_ns "grow" None 5
           (output_holds [envelope "hack" "r1" Json.Null;
                          envelope "grow" "r2" Json.Null]))
  = ports (output_holds [envelope "hack" "r1" Json.Null;
                         envelope "grow" "r2" Json.Null])
  /\ fst (checkForEvent sample_ns "grow" None
            (after_polls sample_ns "grow" None 5
               (output_holds [envelope "hack" "r1" Json.Null;
                              envelope "grow" "r2" Json.Null])))
     = fst (checkForEvent sample_ns "grow" None
              (output_holds [envelope "hack" "r1" Json.Null;
                             envelope "grow" "r2" Json.Null])).
Proof.
  apply (checkForEvent_blocked sample_ns "grow" None
           (output_holds [envelope "hack" "r1" Json.Null;
                          envelope "grow" "r2" Json.Null])
           (envelope "hack" "r1" Json.Null) [envelope "grow" "r2" Json.Null] 5).
  - reflexivity.
  - reflexivity.
Defined.

End PortProtocol.

(* ================================================================== *)
(** * More on access and resources *)
(* ================================================================== *)

Module AccessMore.
Import Netscript Host Utils UtilsSpec ExtraSpec HostFacts JSFacts Samples UtilsAccess.
Local Open Scope script_scope.

Lemma count_calls_app (a b : list event) :
  count_calls (a ++ b)%list = count_calls a + count_calls b.
Proof. unfold count_calls. rewrite filter_app, length_app. reflexivity. Qed.

Lemma count_crack_calls (ns : NS) (server : string) (cracks : JS.object string)
    (files : list string) :
  (forall file, In file files -> In file (JS.keys cracks)) ->
  count_calls (crack_calls ns server cracks files)
  = length (filter (fun file => fileExists ns file homeServer) files).
Proof.
  unfold homeServer. induction files as [|file files IH]; intros Hkeys; [reflexivity|].
  cbn [crack_calls flat_map filter]. fold (crack_calls ns server cracks files).
  rewrite count_calls_app, IH by (intros f Hf; apply Hkeys; right; exact Hf).
  destruct (fileExists ns file "home"); [|reflexivity].
  destruct (JS.get_own cracks file) as [fn|] eqn:Hown; [reflexivity|].
  apply get_own_none_keys in Hown. exfalso. apply Hown, Hkeys. left; reflexivity.
Qed.

(** The host calls that [getRootAccess] adds to the log. *)
Lemma getRootAccess_log (ns : NS) (server : string) (cracks : JS.object string)
    (w : world) :
  log (snd (getRootAccess ns server cracks w))
  = (log w
     ++ (if (0 <? getServerNumPortsRequired ns server)%Z
         then Print ("Penetrating " ++ server)
                :: crack_calls ns server cracks (JS.keys cracks)
         else [])
     ++ [Print ("Gaining root access on " ++ server); Nuke server])%list.
Proof.
  unfold getRootAccess. unfold bind at 1.
  destruct (0 <? getServerNumPortsRequired ns server)%Z.
  - rewrite penetrate_run. unfold bind, print, nuke, emit, logged; simpl.
    rewrite <- !app_assoc. reflexivity.
  - unfold ret, bind, print, nuke, emit, logged; simpl.
    rewrite <- !app_assoc. reflexivity.
Qed.

Lemma count_calls_nuke (server : string) :
  count_calls [Print ("Gaining root access on " ++ server); Nuke server] = 0.
Proof. reflexivity. Qed.

Lemma count_calls_penetrate (ns : NS) (server : string) (cracks : JS.object string) :
  count_calls (Print ("Penetrating " ++ server)
                 :: crack_calls ns server cracks (JS.keys cracks))
  = getNumCracks ns cracks.
Proof.
  change (count_calls (Print ("Penetrating " ++ server)
                         :: crack_calls ns server cracks (JS.keys cracks)))
    with (count_calls (crack_calls ns server cracks (JS.keys cracks))).
  rewrite count_crack_calls by auto. reflexivity.
Qed.

(** X14. [getRootAccess] calls as many cracking functions as
    [getNumCracks] counts when the server requires more than zero ports,
    and none otherwise: the loop of [penetrate] and the filter of
    [getNumCracks] pick the same files. *)
Theorem getRootAccess_runs_getNumCracks (ns : NS) (server : string)
    (cracks : JS.object string) (w : world) :
  count_calls (log (snd (getRootAccess ns server cracks w)))
  = count_calls (log w)
    + (if (getServerNumPortsRequired ns server >? 0)%Z
       then getNumCracks ns cracks else 0).
Proof.
  rewrite Z.gtb_ltb, getRootAccess_log, !count_calls_app, count_calls_nuke.
  destruct (0 <? getServerNumPortsRequired ns server)%Z.
  - rewrite count_calls_penetrate. lia.
  - change (count_calls []) with 0. lia.
Qed.

Lemma crack_calls_are_calls (ns : NS) (server : string) (cracks : JS.object string)
    (files : list string) (e : event) :
  In e (crack_calls ns server cracks files) -> exists fn, e = Call fn server.
Proof.
  unfold crack_calls. rewrite in_flat_map. intros [file [_ He]].
  destruct (fileExists ns file "home"); [|destruct He].
  destruct (JS.get_own cracks file) as [fn|]; [|destruct He].
  destruct He as [<- | []]. exists fn. reflexivity.
Qed.

(** X15. When [canPenetrate] answers true, [getRootAccess] calls at
    least as many cracking functions as the server requires ports before
    it calls [ns.nuke]: the host calls it adds end with the one call of
    [ns.nuke], and those before it hold that many cracking calls. *)
Theorem canPenetrate_enough_cracks (ns : NS) (server : string)
    (cracks : JS.object string) (w : world) :
  canPenetrate ns server cracks = true ->
  exists before,
    log (snd (getRootAccess ns server cracks w))
    = (log w ++ before ++ [Nuke server])%list
    /\ (forall s, ~ In (Nuke s) before)
    /\ (getServerNumPortsRequired ns server <= Z.of_nat (count_calls before))%Z.
Proof.
  unfold canPenetrate. intros Hcan. apply Z.leb_le in Hcan.
  exists ((if (0 <? getServerNumPortsRequired ns server)%Z
           then Print ("Penetrating " ++ server)
                  :: crack_calls ns server cracks (JS.keys cracks)
           else [])
          ++ [Print ("Gaining root access on " ++ server)])%list.
  split; [|split].
  - rewrite getRootAccess_log, <- !app_assoc. reflexivity.
  - intros s Hin. apply in_app_or in Hin.
    destruct Hin as [Hin | [Hin | []]]; [|discriminate].
    destruct (0 <? getServerNumPortsRequired ns server)%Z; [|destruct Hin].
    destruct Hin as [Hin | Hin]; [discriminate|].
    apply crack_calls_are_calls in Hin. destruct Hin as [fn Hin]. discriminate.
  - rewrite count_calls_app.
    change (count_calls [Print ("Gaining root access on " ++ server)]) with 0.
    destruct (Z.ltb_spec 0 (getServerNumPortsRequired ns server)) as [Hpos | Hnone].
    + rewrite count_calls_penetrate. lia.
    + lia.
Qed.

Lemma canPenetrate_enough_cracks_witness :
  exists before,
    log (snd (getRootAccess ssh_only_ns "n00dles" two_tools idle_world))
    = (log idle_world ++ before ++ [Nuke "n00dles"])%list
    /\ (forall s, ~ In (Nuke s) before)
    /\ (1 <= Z.of_nat (count_calls before))%Z.
Proof.
  apply (canPenetrate_enough_cracks ssh_only_ns "n00dles" two_tools idle_world).
  reflexivity.
Defined.

(** ** One more tool *)

Lemma filter_length_permutation (f : string -> bool) (l l' : list string) :
  Permutation l l' -> length (filter f l) = length (filter f l').
Proof.
  induction 1 as [| x l l' _ IH | x y l | l l' l'' _ IH1 _ IH2]; simpl.
  - reflexivity.
  - destruct (f x); simpl; congruence.
  - destruct (f x), (f y); reflexivity.
  - congruence.
Qed.

Lemma getNumCracks_define (ns : NS) (cracks : JS.object string) (file fn : string) :
  getNumCracks ns cracks <= getNumCracks ns (JS.define cracks file fn).
Proof.
  unfold getNumCracks, JS.define. destruct (JS.has_own cracks file).
  - rewrite keys_replace. apply Nat.le_refl.
  - rewrite <- (filter_length_permutation _ _ _ (keys_create cracks file fn)).
    simpl. destruct (fileExists ns file homeServer); simpl; lia.
Qed.

(** X16. One more entry in [cracks], assigned by [cracks[file] = fn],
    never turns [canPenetrate] from true to false, whether the file is
    new or is listed already. *)
Theorem canPenetrate_more_tools (ns : NS) (server : string)
    (cracks : JS.object string) (file fn : string) :
  canPenetrate ns server cracks = true ->
  canPenetrate ns server (JS.assign cracks file fn) = true.
Proof.
  unfold JS.assign.
  destruct (String.eqb file "__proto__" && negb (JS.has_own cracks file))%bool;
    [exact (fun H => H)|].
  unfold canPenetrate. rewrite !Z.leb_le.
  pose proof (getNumCracks_define ns cracks file fn). lia.
Qed.

Lemma canPenetrate_more_tools_witness :
  canPenetrate ssh_only_ns "n00dles" (JS.assign two_tools "relaySMTP.exe" "relaysmtp")
  = true.
Proof.
  apply (canPenetrate_more_tools ssh_only_ns "n00dles" two_tools).
  reflexivity.
Defined.

(** ** An idle server *)

Lemma sub_zero (x : float) : (x - 0)%float = x.
Proof.
  apply Prim2SF_inj. rewrite sub_spec.
  change (Prim2SF 0) with (S754_zero false).
  destruct (Prim2SF x) as [[] | [] | | s m e]; reflexivity.
Qed.

(** X17. On a server that uses no RAM, [hasRam] answers the same with
    and without [useMax]: subtracting zero changes no binary64 number. *)
Theorem hasRam_idle (ns : NS) (server : string) (scriptRam : float) :
  getServerUsedRam ns server = 0%float ->
  hasRam ns server scriptRam false = hasRam ns server scriptRam true.
Proof.
  intros Hidle. unfold hasRam. rewrite Hidle, sub_zero. reflexivity.
Qed.

Lemma hasRam_idle_witness :
  hasRam sample_ns "home" 2.5%float false = hasRam sample_ns "home" 2.5%float true.
Proof. apply (hasRam_idle sample_ns "home" 2.5%float). reflexivity. Defined.

End AccessMore.

(* ================================================================== *)
(** * More on createUUID *)
(* ================================================================== *)

Module UuidMore.
Import PortUtils PortUtilsSpec ExtraSpec UuidShape.

Lemma replace_xy_ext (fl : Q -> Q) (random random' : nat -> Q) (template : string) :
  forall (dt : Z) (calls : nat),
    (forall n, calls <= n < calls + count_xy template -> random n = random' n) ->
    replace_xy fl random template dt calls = replace_xy fl random' template dt calls.
Proof.
  induction template as [|c template IH]; intros dt calls Hsame; [reflexivity|].
  cbn [replace_xy count_xy] in *.
  destruct (Ascii.eqb c "x" || Ascii.eqb c "y")%bool.
  - rewrite <- (Hsame calls) by lia.
    destruct (replacement fl dt (random calls) c) as [text dt'].
    f_equal. apply IH. intros n Hn. apply Hsame. lia.
  - f_equal. apply IH. intros n Hn. apply Hsame. lia.
Qed.

Lemma replace_xy_counted (fl : Q -> Q) (random : nat -> Q) (template : string) :
  forall (dt : Z) (calls : nat),
    replace_xy_counting fl random template dt calls
    = (replace_xy fl random template dt calls, calls + count_xy template).
Proof.
  induction template as [|c template IH]; intros dt calls.
  - cbn. rewrite Nat.add_0_r. reflexivity.
  - cbn [replace_xy_counting replace_xy count_xy].
    destruct (Ascii.eqb c "x" || Ascii.eqb c "y")%bool.
    + destruct (replacement fl dt (random calls) c) as [digit dt'].
      rewrite IH. f_equal. lia.
    + rewrite IH. reflexivity.
Qed.

(** X18. [createUUID] calls [Math.random()] 31 times, once for each [x]
    and [y] of the template, whatever the clock and the numbers drawn;
    so two sources of random numbers that agree on their first 31 values
    give the same identifier. *)
Theorem createUUID_draws (fl : Q -> Q) (now : Z) (random : nat -> Q) :
  createUUID_counting fl now random = (createUUID fl now random, 31)
  /\ forall random' : nat -> Q,
       (forall n, n < 31 -> random n = random' n) ->
       createUUID fl now random = createUUID fl now random'.
Proof.
  split.
  - unfold createUUID_counting, createUUID. rewrite replace_xy_counted. reflexivity.
  - intros random' Hsame. unfold createUUID. apply replace_xy_ext.
    intros n Hn. apply Hsame. cbn in Hn. lia.
Qed.

(** ** The share of the clock *)

Lemma replace_xy_append (fl : Q -> Q) (random : nat -> Q) (front back : string) :
  forall (dt : Z) (calls : nat),
    replace_xy fl random (front ++ back) dt calls
    = replace_xy fl random front dt calls
      ++ replace_xy fl random back (dt / 16 ^ Z.of_nat (count_xy front))
           (calls + count_xy front).
Proof.
  induction front as [|c front IH]; intros dt calls.
  - cbn. rewrite Z.div_1_r, Nat.add_0_r. reflexivity.
  - cbn [append replace_xy count_xy].
    destruct (Ascii.eqb c "x" || Ascii.eqb c "y")%bool.
    + unfold replacement. cbv zeta. rewrite IH.
      rewrite JsonText.append_assoc. f_equal.
      rewrite Nat2Z.inj_succ, Z.pow_succ_r by lia.
      rewrite <- Z.div_div by lia.
      replace (calls + S (count_xy front)) with (S calls + count_xy front) by lia.
      reflexivity.
    + rewrite IH. reflexivity.
Qed.

Lemma shaped_length (template out : string) :
  shaped template out -> String.length out = String.length template.
Proof.
  revert out. induction template as [|t template IH]; intros [|c out] H;
    try contradiction; [reflexivity|].
  destruct H as [_ H]. cbn [String.length]. f_equal. apply IH, H.
Qed.

Lemma substring_append_right (front back : string) :
  substring (String.length front) (String.length back) (front ++ back) = back.
Proof.
  induction front as [|c front IH]; cbn [String.length append substring].
  - induction back as [|c back IH]; cbn; [reflexivity|]. f_equal. exact IH.
  - exact IH.
Qed.

Section Clock.
Variable fl : Q -> Q.
Variable random : nat -> Q.
Hypothesis fl_nonneg : forall q, (0 <= q)%Q -> (0 <= fl q)%Q.
Hypothesis random_nonneg : forall n, (0 <= random n)%Q.

(** After eleven digits a clock below [16 ^ 11] is used up: the rest of
    the identifier is made from the random numbers alone. *)
Lemma createUUID_tail (now : Z) :
  (0 <= now < 16 ^ 11)%Z ->
  substring 12 24 (createUUID fl now random)
  = replace_xy fl random "x-4xxx-yxxx-xxxxxxxxxxxx" 0 11.
Proof.
  intros Hnow. unfold createUUID.
  change "xxxxxxxx-xxxx-4xxx-yxxx-xxxxxxxxxxxx"
    with ("xxxxxxxx-xxx" ++ "x-4xxx-yxxx-xxxxxxxxxxxx").
  rewrite replace_xy_append.
  change (count_xy "xxxxxxxx-xxx") with 11. change (Z.of_nat 11) with 11%Z.
  rewrite (Z.div_small now) by exact Hnow. cbn [Nat.add].
  pose proof (shaped_length _ _
    (replace_xy_shaped fl random fl_nonneg random_nonneg "xxxxxxxx-xxx" now 0
       (proj1 Hnow))) as Hfront.
  pose proof (shaped_length _ _
    (replace_xy_shaped fl random fl_nonneg random_nonneg "x-4xxx-yxxx-xxxxxxxxxxxx"
       0 11 (Z.le_refl 0))) as Hback.
  rewrite <- (substring_append_right
                (replace_xy fl random "xxxxxxxx-xxx" now 0)
                (replace_xy fl random "x-4xxx-yxxx-xxxxxxxxxxxx" 0 11)) at 2.
  rewrite Hfront, Hback. reflexivity.
Qed.
End Clock.

(** X19. The clock reaches only the first eleven digits: for clock
    values from 0 up to [16 ^ 11] milliseconds (the year 2527) and the
    same random numbers, the last 24 characters of the identifier are the
    same whatever the clock reads. *)
Theorem createUUID_clock_share (fl : Q -> Q) (random : nat -> Q) (now now' : Z) :
  (forall q, (0 <= q)%Q -> (0 <= fl q)%Q) ->
  (forall n, (0 <= random n)%Q) ->
  (0 <= now < 16 ^ 11)%Z ->
  (0 <= now' < 16 ^ 11)%Z ->
  substring 12 24 (createUUID fl now random)
  = substring 12 24 (createUUID fl now' random).
Proof.
  intros Hfl Hrandom Hnow Hnow'.
  rewrite (createUUID_tail fl random Hfl Hrandom now Hnow).
  rewrite (createUUID_tail fl random Hfl Hrandom now' Hnow').
  reflexivity.
Qed.

Lemma createUUID_clock_share_witness :
  substring 12 24 (createUUID (fun q => q) 1700000000000 (fun _ => (1 # 2)%Q))
  = substring 12 24 (createUUID (fun q => q) 946684800000 (fun _ => (1 # 2)%Q)).
Proof.
  apply (createUUID_clock_share (fun q => q) (fun _ => (1 # 2)%Q)).
  - intros q Hq. exact Hq.
  - intros n. discriminate.
  - split; [discriminate | reflexivity].
  - split; [discriminate | reflexivity].
Defined.

(** X20. The variant digit is right whatever the clock reads: the
    replacement of [y] is one character out of 8, 9, a and b for every
    clock value, also a negative one, and every random number. *)
Theorem replacement_variant (fl : Q -> Q) (dt : Z) (rnd : Q) :
  exists c, fst (replacement fl dt rnd "y") = String c ""
            /\ variant_char c = true.
Proof.
  unfold replacement. cbv zeta. cbn [fst].
  change (Ascii.eqb "y" "x") with false. cbv iota.
  set (r := to_int32 _).
  change 3%Z with (Z.ones 2). rewrite Z.land_ones by lia.
  change (2 ^ 2)%Z with 4%Z.
  pose proof (Z.mod_pos_bound r 4) as Hmod.
  assert (Hcases : (0 = r mod 4 \/ 1 = r mod 4 \/ 2 = r mod 4 \/ 3 = r mod 4
                    \/ False)%Z) by lia.
  repeat (destruct Hcases as [<- | Hcases]; [eexists; split; reflexivity|]).
  contradiction.
Qed.

End UuidMore.
